(** * The archive registry of dat-fox-helper ([src/library.js])

    A shallow embedding of the [Library] class: the persisted index
    (node-persist), the handle cache ([this.archives]), the usage map
    ([this.archiveUsage]) and the registry operations, written as
    asynchronous programs whose suspension points are the [await]s of the
    source. *)

From stdpp Require Import gmap strings list fin_maps.
From Stdlib Require Import ZArith Ascii.

Local Open Scope Z_scope.
Local Open Scope string_scope.

(** ** Data model *)

(** Keys of the two JavaScript [Map]s.  Every key the code uses is either a
    string (a canonical address) or the value [undefined]. *)
Inductive JsKey : Type :=
| KUndefined
| KAddr (a : string).

#[global] Instance JsKey_eq_dec : EqDecision JsKey.
Proof. solve_decision. Defined.

#[global] Instance JsKey_countable : Countable JsKey :=
  inj_countable'
    (fun k => match k with KUndefined => None | KAddr a => Some a end)
    (fun o => match o with None => KUndefined | Some a => KAddr a end)
    (fun k => match k with KUndefined => eq_refl | KAddr _ => eq_refl end).

(** JavaScript values, as far as a manifest and a stored record have them:
    [JObject] stands for any object or array, given by its JSON text. *)
Inductive JsVal : Type :=
| JUndefined
| JNull
| JBool (b : bool)
| JNum (n : Z)
| JStr (s : string)
| JObject (json : string).

#[global] Instance JsVal_eq_dec : EqDecision JsVal.
Proof. solve_decision. Defined.

(** What [archive.getInfo()] resolves to (the fields [updateLibraryEntry]
    destructures, line 171).  The wrapper computes [key], [url] and
    [isOwner] from the drive: two strings and a boolean.  [title] and
    [description] are whatever the manifest of the archive has under
    these names: any value, and [undefined] when the manifest has none. *)
Record Info : Type := {
  info_key : string;
  info_url : string;
  info_title : JsVal;
  info_description : JsVal;
  info_isOwner : bool
}.

(** A manifest ([dat.json]) as a list of field names and values; also the
    shape of the [opts] argument of [createArchive] and [forkArchive]. *)
Abbreviation Manifest := (list (string * string)).

(** The hyperdrive behind a dat: the collaborator's object, seen through
    what library.js reads from it. *)
Record Drive : Type := {
  drive_address : string;          (* the key the engine files it under *)
  drive_url : string;              (* [createDatArchive(drive).url] *)
  writable : bool;                 (* [dat.drive.writable] *)
  drive_info : option Info;        (* outcome of [getInfo()]; [None]: it rejects *)
  drive_manifest : Manifest
}.

(** An engine handle ([node.getDat] result): [dat.drive], [dat.ready],
    [dat.close()]. *)
Record Dat : Type := {
  dat_address : string;            (* the address it is filed under in [node.dats] *)
  drive : Drive;
  dat_ready : bool                 (* [await dat.ready]: resolves, or rejects *)
}.

(** A [DatArchive] wrapper.  [createDatArchive] builds a new object at every
    call: [archive_id] is its identity. *)
Record DatArchive : Type := {
  archive_id : nat;
  archive_drive : Drive
}.

Definition archive_url (a : DatArchive) : string := drive_url (archive_drive a).
Definition getInfo (a : DatArchive) : option Info := drive_info (archive_drive a).

(** The object literal [updateLibraryEntry] hands to [storage.setItem]
    (lines 172-178), as it reads once stored: [dir] is a template literal,
    a string; [title] and [description] are the values destructured from
    [getInfo()], passed on as they are. *)
Record LibraryEntry : Type := {
  dir : string;
  url : string;
  owner : bool;
  title : JsVal;
  description : JsVal
}.

(** node-persist keeps a record as JSON text: a property whose value is
    [undefined] is not written, and is not there when the record is read
    back. *)
Definition defined_property (name : string) (v : JsVal) : list (string * JsVal) :=
  match v with
  | JUndefined => []
  | _ => [ (name, v) ]
  end.

(** The properties of the stored object, in the order of the literal. *)
Definition entry_properties (e : LibraryEntry) : list (string * JsVal) :=
  [ ("dir", JStr (dir e));
    ("url", JStr (url e));
    ("owner", JBool (owner e)) ]
  ++ defined_property "title" (title e)
  ++ defined_property "description" (description e).

Inductive Error : Type :=
| NotInLibrary        (* [new Error('Archive not in library')] *)
| ResolveError        (* [dns.resolveName] rejected *)
| EngineError         (* [getDat], [dat.ready], [create] or [fork] rejected *)
| MigrateError
| StorageError
| FsError.

Inductive Result (A : Type) : Type :=
| Ok (a : A)
| Err (e : Error).
Arguments Ok {A} a.
Arguments Err {A} e.

(** Calls made on the engine, oldest first. *)
Inductive EngineCall : Type :=
| CallGetDat (address : string)
| CallClose (address : string)
| CallCreate (opts : Manifest)
| CallFork (src : Drive) (opts : Manifest).

(** The collaborators, taken as parameters: what each of them answers.

    [resolveName] stands for [dns.resolveName] of [./dns]: it resolves a
    name or URL to the canonical address, a string ([None]: the promise
    rejects).  The engine ([@sammacbeth/dat2-api],
    [@sammacbeth/dat-archive]) loads, creates and forks drives; the
    migration step, the initialisation of node-persist and the file system
    succeed or fail; once initialised, node-persist reads, writes and
    deletes the records it is asked to.  [libraryDir_exists] is what [fs.existsSync] answers
    for the library directory of a library without records, and
    [mkdirSync_ok] whether [fs.mkdirSync] can create it ([false]: it
    throws). *)
Record Env : Type := {
  resolveName : string -> option string;
  libraryDir_exists : bool;
  mkdirSync_ok : bool;
  migrate_ok : bool;
  storage_init_ok : bool;
  datDir_exists : bool;
  readdir_datDir : option (list string);
  load_drive : string -> option (Drive * bool);
  create_drive : Manifest -> option Drive;
  fork_drive : Drive -> Manifest -> option Drive
}.

(** The state of one [Library] instance together with the stores it talks
    to. *)
Record State : Type := {
  libraryDir : string;                       (* [this.libraryDir] *)
  archives : gmap JsKey DatArchive;          (* [this.archives] *)
  archiveUsage : gmap JsKey Z;               (* [this.archiveUsage] *)
  node_dats : gmap string Dat;               (* [this.node.dats] *)
  storage : gmap string LibraryEntry;        (* node-persist *)
  pending : list DatArchive;                 (* [getInfo().then(...)] not yet run *)
  engine_calls : list EngineCall;
  next_id : nat;                             (* next object identity *)
  now : Z                                    (* what [Date.now()] reads *)
}.

Definition datDir (s : State) : string := libraryDir s ++ "/dat2".

(** [new Library(libraryDir)], lines 30-44, over the index found on disk. *)
Definition new_Library (d : string) (index : gmap string LibraryEntry) (t : Z) : State :=
  {| libraryDir := d; archives := ∅; archiveUsage := ∅; node_dats := ∅;
     storage := index; pending := []; engine_calls := []; next_id := 0;
     now := t |}.

(** *** State updates *)

Definition set_archives (f : gmap JsKey DatArchive -> gmap JsKey DatArchive) (s : State) : State :=
  {| libraryDir := libraryDir s; archives := f (archives s);
     archiveUsage := archiveUsage s; node_dats := node_dats s;
     storage := storage s; pending := pending s;
     engine_calls := engine_calls s; next_id := next_id s; now := now s |}.

Definition set_archiveUsage (f : gmap JsKey Z -> gmap JsKey Z) (s : State) : State :=
  {| libraryDir := libraryDir s; archives := archives s;
     archiveUsage := f (archiveUsage s); node_dats := node_dats s;
     storage := storage s; pending := pending s;
     engine_calls := engine_calls s; next_id := next_id s; now := now s |}.

Definition set_node_dats (f : gmap string Dat -> gmap string Dat) (s : State) : State :=
  {| libraryDir := libraryDir s; archives := archives s;
     archiveUsage := archiveUsage s; node_dats := f (node_dats s);
     storage := storage s; pending := pending s;
     engine_calls := engine_calls s; next_id := next_id s; now := now s |}.

Definition set_storage (f : gmap string LibraryEntry -> gmap string LibraryEntry) (s : State) : State :=
  {| libraryDir := libraryDir s; archives := archives s;
     archiveUsage := archiveUsage s; node_dats := node_dats s;
     storage := f (storage s); pending := pending s;
     engine_calls := engine_calls s; next_id := next_id s; now := now s |}.

Definition set_pending (f : list DatArchive -> list DatArchive) (s : State) : State :=
  {| libraryDir := libraryDir s; archives := archives s;
     archiveUsage := archiveUsage s; node_dats := node_dats s;
     storage := storage s; pending := f (pending s);
     engine_calls := engine_calls s; next_id := next_id s; now := now s |}.

Definition log_call (c : EngineCall) (s : State) : State :=
  {| libraryDir := libraryDir s; archives := archives s;
     archiveUsage := archiveUsage s; node_dats := node_dats s;
     storage := storage s; pending := pending s;
     engine_calls := (engine_calls s ++ [c])%list; next_id := next_id s; now := now s |}.

Definition bump_id (s : State) : State :=
  {| libraryDir := libraryDir s; archives := archives s;
     archiveUsage := archiveUsage s; node_dats := node_dats s;
     storage := storage s; pending := pending s;
     engine_calls := engine_calls s; next_id := S (next_id s); now := now s |}.

(** Time passing between two calls: the clock does not run backwards. *)
Definition elapse (d : N) (s : State) : State :=
  {| libraryDir := libraryDir s; archives := archives s;
     archiveUsage := archiveUsage s; node_dats := node_dats s;
     storage := storage s; pending := pending s;
     engine_calls := engine_calls s; next_id := next_id s;
     now := now s + Z.of_N d |}.

(** ** Asynchronous programs

    An [async] function is a tree of synchronous steps ([Act]) separated by
    suspension points ([Await]): one [Await] per [await] of the source.
    [Act f k] changes the state by [f] and goes on with [k] applied to the
    state it started from. *)
Inductive Async (A : Type) : Type :=
| Ret (a : A)
| Throw (e : Error)
| Act (f : State -> State) (k : State -> Async A)
| Await (k : Async A).
Arguments Ret {A} a.
Arguments Throw {A} e.
Arguments Act {A} f k.
Arguments Await {A} k.

Fixpoint bind {A B : Type} (t : Async A) (g : A -> Async B) : Async B :=
  match t with
  | Ret a => g a
  | Throw e => Throw e
  | Act f k => Act f (fun s => bind (k s) g)
  | Await k => Await (bind k g)
  end.

#[global] Instance Async_bind : MBind Async := fun A B g t => bind t g.
#[global] Instance Async_ret : MRet Async := fun A a => Ret a.

(** [try { t } catch (e) { h e }]. *)
Fixpoint try_catch {A : Type} (t : Async A) (h : Error -> Async A) : Async A :=
  match t with
  | Ret a => Ret a
  | Throw e => h e
  | Act f k => Act f (fun s => try_catch (k s) h)
  | Await k => Await (try_catch k h)
  end.

(** A synchronous step that also computes a value. *)
Definition act {A B : Type} (g : State -> B * State) (k : B -> Async A) : Async A :=
  Act (fun s => (g s).2) (fun s => k (g s).1).

Definition modify (f : State -> State) : Async unit :=
  Act f (fun _ => Ret tt).

Definition of_result {A : Type} (r : Result A) : Async A :=
  match r with Ok a => Ret a | Err e => Throw e end.

(** [await p] for a promise of a collaborator: the task is suspended, and
    the outcome [g] of the collaborator's work is there when it resumes. *)
Definition await {A : Type} (g : State -> Result A * State) : Async A :=
  Await (act g of_result).

(** Running a task alone, from call to settlement. *)
Fixpoint run {A : Type} (t : Async A) (s : State) : Result A * State :=
  match t with
  | Ret a => (Ok a, s)
  | Throw e => (Err e, s)
  | Act f k => run (k s) (f s)
  | Await k => run k s
  end.

(** Running a task up to its next suspension point: what the event loop
    does when it picks the task. *)
Fixpoint resume {A : Type} (t : Async A) (s : State) : Async A * State :=
  match t with
  | Ret a => (Ret a, s)
  | Throw e => (Throw e, s)
  | Act f k => resume (k s) (f s)
  | Await k => (k, s)
  end.

(** [await f(...)] for an [async] function [f] of the class: [f] runs, and
    the caller resumes in a later turn. *)
Definition awaited {A : Type} (t : Async A) : Async A :=
  a ← t; Await (Ret a).

Definition gets {A : Type} (g : State -> A) : Async A :=
  Act (fun s => s) (fun s => Ret (g s)).

(** *** [Promise.all] over tasks that run concurrently

    The event loop picks a task and runs it to its next suspension point.
    A schedule is the list of its picks (indices into the pool); when the
    schedule is used up the tasks that are still suspended are run until
    they settle, so every schedule describes a complete execution.  (The
    source starts the tasks in list order, [array.map]; schedules that
    begin otherwise are covered as well.) *)
Definition pool_step {A : Type} (i : nat) (ts : list (Async A)) : Async (list (Async A)) :=
  match ts !! i with
  | Some t => Act (fun s => (resume t s).2) (fun s => Ret (<[i := (resume t s).1]> ts))
  | None => Ret ts
  end.

Fixpoint pool_run {A : Type} (sched : list nat) (ts : list (Async A)) : Async (list (Async A)) :=
  match sched with
  | [] => Ret ts
  | i :: sched' => ts' ← pool_step i ts; pool_run sched' ts'
  end.

Fixpoint settle_all {A : Type} (ts : list (Async A)) : Async (list (Result A)) :=
  match ts with
  | [] => Ret []
  | t :: ts' =>
      Act (fun s => (run t s).2)
          (fun s => rs ← settle_all ts'; Ret ((run t s).1 :: rs))
  end.

(** The value of [Promise.all]: all the values, or the rejection of a
    task.  (The source rejects as soon as one task does, with that
    rejection; here the first one in list order is taken, once all tasks
    have settled.  The tasks of [init] never reject.) *)
Fixpoint all_results {A : Type} (rs : list (Result A)) : Result (list A) :=
  match rs with
  | [] => Ok []
  | Ok a :: rs' =>
      match all_results rs' with Ok l => Ok (a :: l) | Err e => Err e end
  | Err e :: _ => Err e
  end.

Definition Promise_all {A : Type} (sched : list nat) (ts : list (Async A)) : Async (list A) :=
  ts' ← pool_run sched ts;
  rs ← settle_all ts';
  Await (of_result (all_results rs)).

(** ** The collaborators' operations *)

Definition dns_resolveName (env : Env) (u : string) : Async string :=
  await (fun s =>
    (match resolveName env u with Some a => Ok a | None => Err ResolveError end, s)).

(** [const { host } = r] where [r] is a string: a string has no property
    [host], the binding is [undefined]. *)
Definition host_property (r : string) : JsKey := KUndefined.

(** [node.getDat(address, datOpts)]: the handle the engine already holds
    for the address, or a newly loaded one, which the engine files in
    [node.dats]. *)
Definition engine_getDat (env : Env) (address : string) (s : State) : Result Dat * State :=
  match node_dats s !! address with
  | Some d => (Ok d, s)
  | None =>
      match load_drive env address with
      | Some (dr, rdy) =>
          let d := {| dat_address := address; drive := dr; dat_ready := rdy |} in
          (Ok d, set_node_dats (insert address d) s)
      | None => (Err EngineError, s)
      end
  end.

Definition getDat (env : Env) (address : string) : Async Dat :=
  Act (log_call (CallGetDat address)) (fun _ => await (engine_getDat env address)).

Definition await_ready (d : Dat) : Async unit :=
  await (fun s => (if dat_ready d then Ok tt else Err EngineError, s)).

(** [dat.close()]: the engine closes the handle and drops it from
    [node.dats]. *)
Definition engine_close (d : Dat) (s : State) : State :=
  log_call (CallClose (dat_address d)) (set_node_dats (delete (dat_address d)) s).

Definition dat_close (d : Dat) : Async unit := modify (engine_close d).

Definition createDatArchive (dr : Drive) : Async DatArchive :=
  act (fun s => ({| archive_id := next_id s; archive_drive := dr |}, bump_id s)) Ret.

(** A drive the engine has just made ([create], [fork]): filed in
    [node.dats] and wrapped in a new archive. *)
Definition engine_new (o : option Drive) (s : State) : Result DatArchive * State :=
  match o with
  | Some dr =>
      let d := {| dat_address := drive_address dr; drive := dr; dat_ready := true |} in
      (Ok {| archive_id := next_id s; archive_drive := dr |},
       bump_id (set_node_dats (insert (drive_address dr) d) s))
  | None => (Err EngineError, s)
  end.

Definition engine_create (env : Env) (opts : Manifest) : Async DatArchive :=
  Act (log_call (CallCreate opts)) (fun _ => await (engine_new (create_drive env opts))).

Definition engine_fork (env : Env) (src : Drive) (opts : Manifest) : Async DatArchive :=
  Act (log_call (CallFork src opts)) (fun _ => await (engine_new (fork_drive env src opts))).

(** ** library.js *)

Definition DAT_PRESERVED_FIELDS_ON_FORK : list string :=
  [ "web_root"; "fallback_page"; "links" ].

(** [updateLibraryEntry], lines 169-180.  The call itself only starts
    [getInfo()]; the callback of [then] runs later, detached from the
    caller. *)
Definition library_entry (libDir : string) (info : Info) : LibraryEntry :=
  {| dir := libDir ++ "/dat1/" ++ info_key info ++ "/";
     url := info_url info;
     owner := info_isOwner info;
     title := info_title info;
     description := info_description info |}.

Definition updateLibraryEntry (archive : DatArchive) : Async unit :=
  modify (set_pending (fun l => (l ++ [archive])%list)).

(** The detached part for one archive: nothing is written when [getInfo()]
    rejects. *)
Definition land_entry (archive : DatArchive) (s : State) : State :=
  match getInfo archive with
  | Some info =>
      set_storage (insert (archive_url archive) (library_entry (libraryDir s) info)) s
  | None => s
  end.

(** All the detached writes started so far have run, oldest first. *)
Definition settle (s : State) : State :=
  fold_left (fun s' a => land_entry a s') (pending s) (set_pending (fun _ => []) s).

(** [listLibrary], lines 93-96. *)
Definition listLibrary : Async (list LibraryEntry) :=
  Await (gets (fun s => (map_to_list (storage s)).*2)).

(** [close], lines 111-118. *)
Definition close (env : Env) (u : string) : Async unit :=
  host ← dns_resolveName env u;
  d ← gets (fun s => node_dats s !! host);
  _ ← match d with Some dat => dat_close dat | None => Ret tt end;
  _ ← modify (set_archives (delete (KAddr host)));
  modify (set_archiveUsage (delete (KAddr host))).

(** [remove], lines 98-109.  A stored record is an object, so
    [!archiveInfo] holds exactly when there is no item under [url]. *)
Definition remove (env : Env) (u : string) : Async LibraryEntry :=
  Await (
    archiveInfo ← await (fun s => (Ok (storage s !! u), s));
    match archiveInfo with
    | None => Throw NotInLibrary
    | Some info =>
        _ ← awaited (close env u);
        _ ← await (fun s => (Ok tt, set_storage (delete u) s));
        Ret info
    end).

(** [getOpenArchives], lines 120-126.  The order of the entries (insertion
    order in the source) is not kept; the entries are. *)
Record OpenArchive : Type := {
  host : JsKey;
  open_url : string;
  lastUsed : option Z            (* [None]: [undefined] *)
}.

Definition getOpenArchives (s : State) : list OpenArchive :=
  (fun p => {| host := p.1; open_url := archive_url p.2;
               lastUsed := archiveUsage s !! p.1 |}) <$> map_to_list (archives s).

(** [ensureCacheDir], lines 128-133: both promises resolve whatever the
    file system answers. *)
Definition ensureCacheDir (env : Env) : Async unit :=
  dir_exists ← await (fun s => (Ok (datDir_exists env), s));
  if (dir_exists : bool) then Ret tt else await (fun s => (Ok tt, s)).

(** [createTempArchive], lines 135-141. *)
Definition createTempArchive (env : Env) (address : string) : Async DatArchive :=
  _ ← awaited (ensureCacheDir env);
  dat ← getDat env address;
  _ ← await_ready dat;
  createDatArchive (drive dat).

(** [getArchive], lines 143-150. *)
Definition getArchive (env : Env) (u : string) : Async (option DatArchive) :=
  host ← dns_resolveName env u;
  cached ← gets (fun s => bool_decide (is_Some (archives s !! KAddr host)));
  _ ← (if (cached : bool) then Ret tt
       else
         archive ← awaited (createTempArchive env host);
         modify (set_archives (insert (KAddr host) archive)));
  _ ← modify (fun s => set_archiveUsage (insert (KAddr host) (now s)) s);
  gets (fun s => archives s !! KAddr host).

(** [createArchive], lines 152-159. *)
Definition createArchive (env : Env) (opts : Manifest) : Async string :=
  archive ← engine_create env opts;
  r ← dns_resolveName env (archive_url archive);
  _ ← modify (set_archives (insert (host_property r) archive));
  _ ← updateLibraryEntry archive;
  Ret (archive_url archive).

(** [forkArchive], lines 161-167. *)
Definition forkArchive (env : Env) (srcArchiveUrl : string) (opts : Manifest) : Async string :=
  srcAddress ← dns_resolveName env srcArchiveUrl;
  srcDat ← getDat env srcAddress;
  dstArchive ← engine_fork env (drive srcDat) opts;
  _ ← updateLibraryEntry dstArchive;
  Ret (archive_url dstArchive).

(** [fs.existsSync(this.libraryDir)], line 48.  The records of the index
    are files below the library directory: when the index has a record,
    the directory is there; otherwise the file system tells. *)
Definition existsSync_libraryDir (env : Env) (s : State) : bool :=
  if decide (storage s = ∅) then libraryDir_exists env else true.

(** Lines 48-50 of [init], which run before its first [await]: when the
    library directory is missing, [fs.mkdirSync] creates it or throws, and
    the call is rejected. *)
Definition init_libraryDir (env : Env) : Async unit :=
  Act (fun s => s) (fun s =>
    if existsSync_libraryDir env s then Ret tt
    else if mkdirSync_ok env then Ret tt
    else Throw FsError).

(** [init], lines 46-91.  [checkOwned] and [loadLibrary] are the two
    closures mapped over the candidates and over the records; their
    schedules are parameters.  [library], an array, is never falsy (line
    54). *)
Definition checkOwned (env : Env) (address : string) : Async unit :=
  try_catch
    (dat ← getDat env address;
     _ ← await_ready dat;
     if writable (drive dat) then
       archive ← createDatArchive (drive dat);
       _ ← updateLibraryEntry archive;
       modify (set_archives (insert (KAddr address) archive))
     else dat_close dat)
    (fun _ => Ret tt).

Definition loadLibrary (env : Env) (entry : LibraryEntry) : Async unit :=
  try_catch
    (address ← dns_resolveName env (url entry);
     dat ← getDat env address;
     _ ← await_ready dat;
     archive ← createDatArchive (drive dat);
     modify (set_archives (insert (KAddr address) archive)))
    (fun _ => await (fun s => (Ok tt, set_storage (delete (url entry)) s))).

Definition init (env : Env) (sched_owned sched_load : list nat) : Async unit :=
  _ ← init_libraryDir env;
  _ ← await (fun s => (if migrate_ok env then Ok tt else Err MigrateError, s));
  _ ← await (fun s => (if storage_init_ok env then Ok tt else Err StorageError, s));
  library ← awaited listLibrary;
  _ ← (if decide (length library = 0%nat) then
         addresses ← await (fun s =>
           (match readdir_datDir env with Some l => Ok l | None => Err FsError end, s));
         _ ← Promise_all sched_owned (checkOwned env <$> addresses);
         Ret tt
       else Ret tt);
  _ ← Promise_all sched_load (loadLibrary env <$> library);
  Ret tt.

(** ** Definitions used in the statements *)

(** What [close] does to the state once the name is resolved. *)
Definition close_effect (h : string) (s : State) : State :=
  set_archiveUsage (delete (KAddr h))
    (set_archives (delete (KAddr h))
       (match node_dats s !! h with Some d => engine_close d s | None => s end)).

(** What [createTempArchive] does when it runs alone. *)
Definition createTempArchive_effect (env : Env) (h : string) (s : State) : Result DatArchive * State :=
  let s1 := log_call (CallGetDat h) s in
  match engine_getDat env h s1 with
  | (Ok d, s2) =>
      if dat_ready d
      then (Ok {| archive_id := next_id s2; archive_drive := drive d |}, bump_id s2)
      else (Err EngineError, s2)
  | (Err e, s2) => (Err e, s2)
  end.

(** *** Shapes of stored records *)

Inductive JsType : Type :=
| TString
| TBoolean
| TStringOrNull.

Definition has_type (v : JsVal) (ty : JsType) : bool :=
  match ty, v with
  | TString, JStr _ => true
  | TBoolean, JBool _ => true
  | TStringOrNull, (JStr _ | JNull) => true
  | _, _ => false
  end.

Fixpoint property (name : string) (props : list (string * JsVal)) : option JsVal :=
  match props with
  | [] => None
  | (n, v) :: rest => if decide (n = name) then Some v else property name rest
  end.

(** An object has exactly a shape: every property of the shape is there
    with a value of its type, and the object has no other property. *)
Definition has_shape (shape : list (string * JsType)) (props : list (string * JsVal)) : bool :=
  forallb (fun f => match property f.1 props with
                    | Some v => has_type v f.2
                    | None => false
                    end) shape
  && forallb (fun p => bool_decide (p.1 ∈ shape.*1)) props
  && bool_decide (NoDup props.*1).

(** The record shape as the specification words it. *)
Definition spec_record_shape : list (string * JsType) :=
  [ ("directory", TString); ("url", TString); ("owner", TBoolean);
    ("title", TStringOrNull); ("description", TStringOrNull) ].

(** The record shape of the literal in [updateLibraryEntry]. *)
Definition stored_record_shape : list (string * JsType) :=
  [ ("dir", TString); ("url", TString); ("owner", TBoolean);
    ("title", TStringOrNull); ("description", TStringOrNull) ].

(** *** Concrete collaborators and states, for the examples *)

Definition demo_info : Info :=
  {| info_key := "aa"; info_url := "dat://aa"; info_title := JStr "Notes";
     info_description := JUndefined; info_isOwner := true |}.

Definition demo_drive : Drive :=
  {| drive_address := "aa"; drive_url := "dat://aa"; writable := true;
     drive_info := Some demo_info;
     drive_manifest := [("title", "Notes"); ("web_root", "/public")] |}.

(** A read-only archive somebody else owns. *)
Definition foreign_drive : Drive :=
  {| drive_address := "bb"; drive_url := "dat://bb"; writable := false;
     drive_info :=
       Some {| info_key := "bb"; info_url := "dat://bb"; info_title := JUndefined;
               info_description := JUndefined; info_isOwner := false |};
     drive_manifest := [] |}.

Definition demo_env : Env :=
  {| resolveName := fun u =>
       if decide (u = "dat://aa") then Some "aa"
       else if decide (u = "dat://notes.example") then Some "aa"
       else if decide (u = "dat://bb") then Some "bb"
       else None;
     libraryDir_exists := true;
     mkdirSync_ok := true;
     migrate_ok := true;
     storage_init_ok := true;
     datDir_exists := true;
     readdir_datDir := Some ["aa"; "bb"; "cc"];
     load_drive := fun a =>
       if decide (a = "aa") then Some (demo_drive, true)
       else if decide (a = "bb") then Some (foreign_drive, true)
       else None;
     create_drive := fun _ => Some demo_drive;
     fork_drive := fun _ _ => None |}.

Definition demo_entry : LibraryEntry := library_entry "/lib" demo_info.

Definition gone_entry : LibraryEntry :=
  {| dir := "/lib/dat1/dd/"; url := "dat://gone.example"; owner := false;
     title := JNull; description := JNull |}.

(** A new library over an empty index, at time 100. *)
Definition demo_start : State := new_Library "/lib" ∅ 100.

(** A library whose index knows [dat://aa] and a name that no longer
    resolves. *)
Definition demo_indexed : State :=
  new_Library "/lib"
    (<["dat://aa" := demo_entry]> (<["dat://gone.example" := gone_entry]> ∅)) 100.

(** [demo_start] after [getArchive("dat://aa")]. *)
Definition demo_open : State := (run (getArchive demo_env "dat://aa") demo_start).2.


(** [demo_start] after [createArchive({})]. *)
Definition demo_created : State := (run (createArchive demo_env []) demo_start).2.

(** *** Reasoning about tasks that interleave

    [all_acts R t]: every synchronous step of [t] relates the state before
    it to the state after it by [R]. *)
Fixpoint all_acts {A : Type} (R : State -> State -> Prop) (t : Async A) : Prop :=
  match t with
  | Ret _ | Throw _ => True
  | Act f k => ∀ s, R s (f s) ∧ all_acts R (k s)
  | Await k => all_acts R k
  end.

(** [rg Rely Guar t s Q]: started in [s], the task [t] makes only [Guar]
    steps and settles in a state where [Q] holds of its outcome, provided
    that, while it is suspended, the rest of the world makes [Rely]
    steps. *)
Fixpoint rg {A : Type} (Rely Guar : State -> State -> Prop)
    (t : Async A) (s : State) (Q : Result A -> State -> Prop) : Prop :=
  match t with
  | Ret a => Q (Ok a) s
  | Throw e => Q (Err e) s
  | Act f k => Guar s (f s) ∧ rg Rely Guar (k s) (f s) Q
  | Await k => ∀ s', Rely s s' → rg Rely Guar k s' Q
  end.

(** *** Histories of calls

    The calls of the registry API, made one after the other on one
    [Library]; between them the detached index writes may land and time
    may pass.  The collaborators may answer differently at every call. *)
Inductive Op : Type :=
| OpInit (sched_owned sched_load : list nat)
| OpListLibrary
| OpRemove (u : string)
| OpClose (u : string)
| OpGetOpenArchives
| OpGetArchive (u : string)
| OpCreateArchive (opts : Manifest)
| OpForkArchive (srcArchiveUrl : string) (opts : Manifest)
| OpSettle
| OpElapse (d : N).

Definition perform (env : Env) (op : Op) (s : State) : State :=
  match op with
  | OpInit sched_owned sched_load => (run (init env sched_owned sched_load) s).2
  | OpListLibrary => (run listLibrary s).2
  | OpRemove u => (run (remove env u) s).2
  | OpClose u => (run (close env u) s).2
  | OpGetOpenArchives => s
  | OpGetArchive u => (run (getArchive env u) s).2
  | OpCreateArchive opts => (run (createArchive env opts) s).2
  | OpForkArchive u opts => (run (forkArchive env u opts) s).2
  | OpSettle => settle s
  | OpElapse d => elapse d s
  end.

Definition exec (h : list (Env * Op)) (s : State) : State :=
  fold_left (fun s' p => perform p.1 p.2 s') h s.

(** A history on [demo_start]: startup, a [createArchive], the detached
    writes landing, and a [getArchive] of the read-only archive. *)
Definition demo_history : list (Env * Op) :=
  [ (demo_env, OpInit [] []);
    (demo_env, OpCreateArchive []);
    (demo_env, OpSettle);
    (demo_env, OpElapse 7);
    (demo_env, OpGetArchive "dat://bb") ].

(** A pool of suspended tasks, the task at position [i] having index
    [n + i]: each one is safe to resume in any state its rely allows. *)
Definition pool_ok {A : Type} (Rely Guar : nat -> State -> State -> Prop)
    (Q : nat -> Result A -> State -> Prop) (n : nat) (ts : list (Async A))
    (s : State) : Prop :=
  ∀ i t, ts !! i = Some t →
    ∀ s', Rely (n + i)%nat s s' →
      rg (Rely (n + i)%nat) (Guar (n + i)%nat) t s' (Q (n + i)%nat).

(** *** Startup *)

(** The handle [node.getDat(a)] yields in state [s], if any: the one the
    engine holds already, or else the one it loads. *)
Definition opens (env : Env) (s : State) (a : string) : option Dat :=
  match node_dats s !! a with
  | Some d => Some d
  | None =>
      (fun p => {| dat_address := a; drive := p.1; dat_ready := p.2 |})
        <$> load_drive env a
  end.

(** A record loads when its url resolves, the engine opens the address and
    the handle gets ready; the result is that handle. *)
Definition loads (env : Env) (s : State) (e : LibraryEntry) : option Dat :=
  match resolveName env (url e) with
  | Some a =>
      match opens env s a with
      | Some d => if dat_ready d then Some d else None
      | None => None
      end
  | None => None
  end.

(** A step of one of the [loadLibrary] tasks: handles the engine opens are
    the ones [opens] tells; index entries are only removed, and only those
    of records that do not load; cache entries are only added or replaced,
    by archives over the drive that [opens] tells; nothing else changes. *)
Definition load_step (env : Env) (library : list LibraryEntry) (s s' : State) : Prop :=
  (∀ a, opens env s' a = opens env s a)
  ∧ (∀ k, storage s' !! k = storage s !! k
          ∨ (storage s' !! k = None
             ∧ ∃ e, e ∈ library ∧ url e = k ∧ loads env s e = None))
  ∧ (∀ k, match archives s' !! k with
          | Some archive =>
              archives s !! k = Some archive
              ∨ ∃ a d, k = KAddr a ∧ opens env s a = Some d
                       ∧ archive_drive archive = drive d
          | None => archives s !! k = None
          end)
  ∧ archiveUsage s' = archiveUsage s
  ∧ pending s' = pending s
  ∧ libraryDir s' = libraryDir s
  ∧ now s' = now s.

(** What the task of record [e] has achieved when it settles. *)
Definition loaded (env : Env) (s0 : State) (e : LibraryEntry)
    (r : Result unit) (s : State) : Prop :=
  r = Ok tt
  ∧ (∀ a, opens env s a = opens env s0 a)
  ∧ match loads env s0 e with
    | Some d =>
        ∃ a archive, resolveName env (url e) = Some a
                     ∧ archives s !! KAddr a = Some archive
                     ∧ archive_drive archive = drive d
    | None => storage s !! url e = None
    end.

(** The handles for which the ownership scan starts the metadata capture:
    wrappers of the drives of the candidates that open, get ready and are
    writable. *)
Definition owned_candidate (env : Env) (s0 : State) (addresses : list string)
    (archive : DatArchive) : Prop :=
  ∃ a d, a ∈ addresses ∧ opens env s0 a = Some d ∧ dat_ready d = true
         ∧ writable (drive d) = true ∧ archive_drive archive = drive d.

(** What every step of the ownership scan keeps: the index, the usage map
    and the clock; the detached writes and the engine's log only grow. *)
Definition scan_step (env : Env) (s0 : State) (addresses : list string)
    (s s' : State) : Prop :=
  storage s' = storage s
  ∧ archiveUsage s' = archiveUsage s
  ∧ libraryDir s' = libraryDir s
  ∧ now s' = now s
  ∧ (∃ new, pending s' = (pending s ++ new)%list
            ∧ Forall (owned_candidate env s0 addresses) new)
  ∧ (∃ calls, engine_calls s' = (engine_calls s ++ calls)%list).

(** A step of the [checkOwned] task of candidate [a]: besides, it touches
    the engine's table and the cache at [a] only. *)
Definition own_step (env : Env) (s0 : State) (addresses : list string)
    (a : string) (s s' : State) : Prop :=
  scan_step env s0 addresses s s'
  ∧ (∀ a', a' ≠ a → node_dats s' !! a' = node_dats s !! a')
  ∧ (∀ k, k ≠ KAddr a → archives s' !! k = archives s !! k).

(** What the task of candidate [a] relies on while it is suspended: the
    other tasks leave the table and the cache at [a] alone. *)
Definition own_rely (env : Env) (s0 : State) (addresses : list string)
    (a : string) (s s' : State) : Prop :=
  scan_step env s0 addresses s s'
  ∧ node_dats s' !! a = node_dats s !! a
  ∧ archives s' !! KAddr a = archives s !! KAddr a.

(** What the task of candidate [a] has achieved when it settles. *)
Definition scanned (env : Env) (s0 : State) (a : string)
    (r : Result unit) (s : State) : Prop :=
  r = Ok tt
  ∧ match opens env s0 a with
    | Some d =>
        if dat_ready d then
          if writable (drive d) then
            ∃ archive, archives s !! KAddr a = Some archive
                       ∧ archive_drive archive = drive d
                       ∧ archive ∈ pending s
          else
            archives s !! KAddr a = archives s0 !! KAddr a
            ∧ node_dats s !! a = None
            ∧ CallClose a ∈ engine_calls s
        else archives s !! KAddr a = archives s0 !! KAddr a
    | None => archives s !! KAddr a = archives s0 !! KAddr a
    end.

(** *** Counting the engine's opens *)

Definition is_open (a : string) (c : EngineCall) : bool :=
  match c with
  | CallGetDat a' => bool_decide (a' = a)
  | _ => false
  end.

(** The number of [node.getDat(a, ...)] calls made so far. *)
Definition open_calls (a : string) (s : State) : nat :=
  length (List.filter (is_open a) (engine_calls s)).

(** [spends c n t]: along any execution of [t] the counter [c] of the
    state grows by [n] at most (and never shrinks). *)
Fixpoint spends {A : Type} (c : State -> nat) (n : nat) (t : Async A) : Prop :=
  match t with
  | Ret _ | Throw _ => True
  | Act f k =>
      ∀ s, ∃ m, (m ≤ n)%nat ∧ c (f s) = (c s + m)%nat ∧ spends c (n - m) (k s)
  | Await k => spends c n k
  end.

(** Between the steps of concurrent [getArchive] calls for the address
    [h]: the number of opens does not go down, and once it is above [c0]
    whenever the cache holds [h], it stays so. *)
Definition opened_step (h : string) (c0 : nat) (s s' : State) : Prop :=
  (open_calls h s ≤ open_calls h s')%nat
  ∧ ((is_Some (archives s !! KAddr h) → (c0 < open_calls h s)%nat) →
     (is_Some (archives s' !! KAddr h) → (c0 < open_calls h s')%nat)).

(** What a task knows whenever it runs: the opens are not fewer than at the
    start, and more if the address is cached. *)
Definition opened_inv (h : string) (c0 : nat) (s : State) : Prop :=
  (c0 ≤ open_calls h s)%nat
  ∧ (is_Some (archives s !! KAddr h) → (c0 < open_calls h s)%nat).

(** *** Forks *)

Fixpoint manifest_get (f : string) (m : Manifest) : option string :=
  match m with
  | [] => None
  | (n, v) :: rest => if decide (n = f) then Some v else manifest_get f rest
  end.

(** The fork contract as the specification words it: the fork has the
    source's value of every field of the allow-list, and for every other
    field nothing of the source: what the options give, or nothing. *)
Definition spec_fork_carries (src opts dst : Manifest) : Prop :=
  (∀ f, f ∈ DAT_PRESERVED_FIELDS_ON_FORK → manifest_get f dst = manifest_get f src)
  ∧ (∀ f, f ∉ DAT_PRESERVED_FIELDS_ON_FORK → manifest_get f dst = manifest_get f opts).

(** An engine whose [fork] takes the title from the source when the
    options give none, and keeps the source's [web_root]. *)
Definition inheriting_fork (src : Drive) (opts : Manifest) : option Drive :=
  let title_of m := match manifest_get "title" m with
                    | Some t => [("title", t)]
                    | None => []
                    end in
  let web_root := match manifest_get "web_root" (drive_manifest src) with
                  | Some w => [("web_root", w)]
                  | None => []
                  end in
  Some {| drive_address := "ff"; drive_url := "dat://ff"; writable := true;
          drive_info := None;
          drive_manifest :=
            ((match manifest_get "title" opts with
              | Some _ => title_of opts
              | None => title_of (drive_manifest src)
              end) ++ web_root)%list |}.

Definition inheriting_env : Env :=
  {| resolveName := resolveName demo_env;
     libraryDir_exists := true;
     mkdirSync_ok := true;
     migrate_ok := true;
     storage_init_ok := true;
     datDir_exists := true;
     readdir_datDir := Some [];
     load_drive := load_drive demo_env;
     create_drive := create_drive demo_env;
     fork_drive := inheriting_fork |}.

(** ** More of library.js *)

(** [s.replace(x, y)] where [x] and [y] are strings of one character: the
    first occurrence of [x] is replaced, the later ones stay. *)
Fixpoint replace_first (x y : ascii) (s : string) : string :=
  match s with
  | EmptyString => EmptyString
  | String c rest =>
      if decide (c = x) then String y rest else String c (replace_first x y rest)
  end.

(** [formatArchiveName], lines 16-21. *)
Definition formatArchiveName (name : string) : string :=
  replace_first ":"%char "_"%char
    (replace_first "\"%char "_"%char
       (replace_first "/"%char "_"%char
          (replace_first " "%char "-"%char name))).

(** The number of occurrences of a character in a string. *)
Fixpoint occurrences (c : ascii) (s : string) : nat :=
  match s with
  | EmptyString => 0
  | String c' rest => (if decide (c' = c) then 1 else 0) + occurrences c rest
  end.

(** The characters [formatArchiveName] replaces. *)
Definition reserved_characters : list ascii := [ " "; "/"; "\"; ":" ]%char.

(** The storage of the engine, lines 36-43 of the constructor: the file
    that [persistantStorageFactory(key)] opens for the name [f], and the
    directory that [persistantStorageDeleter(key)] removes. *)
Definition storageDirectory (s : State) (key : string) : string :=
  datDir s ++ "/" ++ key.

Definition storageFile (s : State) (key f : string) : string :=
  datDir s ++ "/" ++ key ++ "/" ++ replace_first "/"%char "."%char f.

(** *** Collaborators for the examples *)

(** A name service that resolves nothing, next to an engine that creates
    archives. *)
Definition unresolving_env : Env :=
  {| resolveName := fun _ => None;
     libraryDir_exists := true;
     mkdirSync_ok := true;
     migrate_ok := true;
     storage_init_ok := true;
     datDir_exists := true;
     readdir_datDir := None;
     load_drive := fun _ => None;
     create_drive := fun _ => Some demo_drive;
     fork_drive := fun _ _ => None |}.

(** An engine that opens [aa] with a handle whose [ready] is rejected. *)
Definition stalled_env : Env :=
  {| resolveName := resolveName demo_env;
     libraryDir_exists := true;
     mkdirSync_ok := true;
     migrate_ok := true;
     storage_init_ok := true;
     datDir_exists := true;
     readdir_datDir := Some ["aa"];
     load_drive := fun a => if decide (a = "aa") then Some (demo_drive, false) else None;
     create_drive := fun _ => None;
     fork_drive := inheriting_fork |}.

(** *** Tasks that cannot reject

    [never_throws t]: no path of [t] ends in a rejection, whatever the
    states it is resumed in. *)
Fixpoint never_throws {A : Type} (t : Async A) : Prop :=
  match t with
  | Ret _ => True
  | Throw _ => False
  | Act f k => ∀ s, never_throws (k s)
  | Await k => never_throws k
  end.

(** *** Steps that only add

    [startup_step s s']: from [s] to [s'] the library directory and the
    usage map are unchanged, no record has been added to the index, every
    cached key is still cached, and the started metadata captures and the
    calls made to the engine have only been extended. *)
Definition startup_step (s s' : State) : Prop :=
  libraryDir s' = libraryDir s
  ∧ archiveUsage s' = archiveUsage s
  ∧ storage s' ⊆ storage s
  ∧ (∀ k, is_Some (archives s !! k) → is_Some (archives s' !! k))
  ∧ pending s `prefix_of` pending s'
  ∧ engine_calls s `prefix_of` engine_calls s'.

(** [reload_step s s']: from [s] to [s'] no metadata capture has been
    started, the engine still holds every handle it held, and nothing has
    been asked of the engine but to open addresses. *)
Definition reload_step (s s' : State) : Prop :=
  pending s' = pending s
  ∧ node_dats s ⊆ node_dats s'
  ∧ ∃ calls, engine_calls s' = (engine_calls s ++ calls)%list
             ∧ Forall (fun c => ∃ a, c = CallGetDat a) calls.

(** *** Invariants of a library in use *)

(** Every key with a usage timestamp has a handle in the cache. *)
Definition usage_cached (s : State) : Prop :=
  ∀ k, is_Some (archiveUsage s !! k) → is_Some (archives s !! k).

(** A history that opens an archive, creates one, forks one and closes
    the first, no detached write landing in between. *)
Definition unsettled_history : list (Env * Op) :=
  [ (demo_env, OpGetArchive "dat://aa");
    (demo_env, OpCreateArchive []);
    (demo_env, OpElapse 3);
    (inheriting_env, OpForkArchive "dat://bb" []);
    (demo_env, OpClose "dat://aa") ].

(** *** Concurrent [getArchive] calls *)

(** [cache_grows s s']: every key of the handle cache and of the usage map
    of [s] is still one in [s']. *)
Definition cache_grows (s s' : State) : Prop :=
  (∀ k, is_Some (archives s !! k) → is_Some (archives s' !! k))
  ∧ (∀ k, is_Some (archiveUsage s !! k) → is_Some (archiveUsage s' !! k)).

(** What a [getArchive(u)] call that has returned [r] leaves in [s]. *)
Definition got (env : Env) (u : string) (r : Result (option DatArchive)) (s : State) : Prop :=
  ∀ x, r = Ok x →
    ∃ h, resolveName env u = Some h
         ∧ is_Some x
         ∧ is_Some (archives s !! KAddr h)
         ∧ is_Some (archiveUsage s !! KAddr h).

(** Three overlapping calls, two of them for the same archive, and what
    they return. *)
Definition demo_urls : list string := [ "dat://aa"; "dat://bb"; "dat://notes.example" ].

Definition demo_sched : list nat := [ 0; 1; 2; 2; 1; 0; 2 ]%nat.

Definition demo_gets : list (option DatArchive) :=
  Eval vm_compute in
    match (run (Promise_all demo_sched (getArchive demo_env <$> demo_urls)) demo_start).1 with
    | Ok l => l
    | Err _ => []
    end.

(** A writable archive that does not answer [getInfo()], and an engine
    that has it on disk and creates no other. *)
Definition silent_drive : Drive :=
  {| drive_address := "ee"; drive_url := "dat://ee"; writable := true;
     drive_info := None; drive_manifest := [] |}.

Definition silent_env : Env :=
  {| resolveName := fun u => if decide (u = "dat://ee") then Some "ee" else None;
     libraryDir_exists := true;
     mkdirSync_ok := true;
     migrate_ok := true;
     storage_init_ok := true;
     datDir_exists := true;
     readdir_datDir := Some ["ee"];
     load_drive := fun a => if decide (a = "ee") then Some (silent_drive, true) else None;
     create_drive := fun _ => Some silent_drive;
     fork_drive := fun _ _ => None |}.

(** *** Overlapping calls *)

(** Two tasks, each one taken past its first three suspension points
    before the other goes on. *)
Definition overlapped : list nat := [ 0; 0; 0; 1; 1; 1 ]%nat.
(** * Properties *)

(** ** Running programs *)

Lemma run_bind {A B : Type} (t : Async A) (g : A -> Async B) (s : State) :
  run (bind t g) s =
  match (run t s).1 with
  | Ok a => run (g a) (run t s).2
  | Err e => (Err e, (run t s).2)
  end.
Proof.
  revert s. induction t as [a|e|f k IH|k IH]; intros s; simpl; auto.
Qed.

Lemma run_mbind {A B : Type} (t : Async A) (g : A -> Async B) (s : State) :
  run (t ≫= g) s =
  match (run t s).1 with
  | Ok a => run (g a) (run t s).2
  | Err e => (Err e, (run t s).2)
  end.
Proof. apply run_bind. Qed.

Lemma run_try_catch {A : Type} (t : Async A) (h : Error -> Async A) (s : State) :
  run (try_catch t h) s =
  match (run t s).1 with
  | Ok a => (Ok a, (run t s).2)
  | Err e => run (h e) (run t s).2
  end.
Proof.
  revert s. induction t as [a|e|f k IH|k IH]; intros s; simpl; auto.
Qed.

Ltac state_simpl :=
  cbn [archives archiveUsage node_dats storage pending engine_calls next_id
       now libraryDir set_archives set_archiveUsage set_node_dats set_storage
       set_pending log_call bump_id elapse].

Ltac run_simpl :=
  repeat (first [rewrite run_mbind | rewrite run_try_catch]);
  cbn [run fst snd modify gets act await awaited of_result];
  repeat (first [rewrite run_mbind | rewrite run_try_catch]);
  cbn [run fst snd modify gets act await awaited of_result];
  state_simpl.

Lemma run_dns_resolveName env u s :
  run (dns_resolveName env u) s =
  (match resolveName env u with Some a => Ok a | None => Err ResolveError end, s).
Proof. unfold dns_resolveName, await, act. simpl. by destruct (resolveName env u). Qed.

Lemma run_close env u s :
  run (close env u) s =
  match resolveName env u with
  | Some h => (Ok tt, close_effect h s)
  | None => (Err ResolveError, s)
  end.
Proof.
  unfold close. rewrite run_mbind, run_dns_resolveName.
  destruct (resolveName env u) as [h|]; simpl; [|done].
  unfold close_effect. by destruct (node_dats s !! h).
Qed.

Lemma elem_of_getOpenArchives (s : State) (oa : OpenArchive) :
  oa ∈ getOpenArchives s ↔
  ∃ archive, archives s !! host oa = Some archive ∧
             open_url oa = archive_url archive ∧
             lastUsed oa = archiveUsage s !! host oa.
Proof.
  unfold getOpenArchives. rewrite list_elem_of_fmap. split.
  - intros [[k a] [-> Hin]]. apply elem_of_map_to_list in Hin. simpl. eauto.
  - intros (a & Ha & Hu & Hl). exists (host oa, a). split.
    + destruct oa; simpl in *; by subst.
    + by apply elem_of_map_to_list.
Qed.

Lemma run_remove env u s :
  run (remove env u) s =
  match storage s !! u with
  | None => (Err NotInLibrary, s)
  | Some e =>
      match resolveName env u with
      | Some h => (Ok e, set_storage (delete u) (close_effect h s))
      | None => (Err ResolveError, s)
      end
  end.
Proof.
  unfold remove. cbn [run]. rewrite run_mbind. cbn [await act run of_result fst snd].
  destruct (storage s !! u) as [e|]; cbn [of_result run fst snd]; [|done].
  unfold awaited. rewrite !run_mbind, run_close.
  by destruct (resolveName env u).
Qed.

Lemma run_createTempArchive env h s :
  run (createTempArchive env h) s = createTempArchive_effect env h s.
Proof.
  unfold createTempArchive, createTempArchive_effect.
  rewrite run_mbind.
  assert (run (awaited (ensureCacheDir env)) s = (Ok tt, s)) as ->.
  { unfold awaited, ensureCacheDir. simpl. by destruct (datDir_exists env). }
  simpl. destruct (engine_getDat env h (log_call (CallGetDat h) s)) as [[d|e] s2]; simpl; [|done].
  by destruct (dat_ready d).
Qed.

Lemma run_getArchive env u s :
  run (getArchive env u) s =
  match resolveName env u with
  | None => (Err ResolveError, s)
  | Some h =>
      match archives s !! KAddr h with
      | Some a => (Ok (Some a), set_archiveUsage (insert (KAddr h) (now s)) s)
      | None =>
          match createTempArchive_effect env h s with
          | (Ok a, s1) =>
              (Ok (Some a),
               set_archiveUsage (insert (KAddr h) (now s1))
                 (set_archives (insert (KAddr h) a) s1))
          | (Err e, s1) => (Err e, s1)
          end
      end
  end.
Proof.
  unfold getArchive. rewrite run_mbind, run_dns_resolveName.
  destruct (resolveName env u) as [h|]; cbn [fst snd]; [|done].
  rewrite run_mbind. cbn [gets run fst snd].
  destruct (archives s !! KAddr h) as [a|] eqn:Ha.
  - rewrite bool_decide_eq_true_2 by eauto. run_simpl. by rewrite Ha.
  - assert (¬ is_Some (archives s !! KAddr h)) by (rewrite Ha; by intros [? ?]).
    rewrite bool_decide_eq_false_2 by done.
    unfold awaited. run_simpl. rewrite run_createTempArchive.
    destruct (createTempArchive_effect env h s) as [[a|e] s1]; run_simpl; [|done].
    by rewrite lookup_insert_eq.
Qed.

(** ** [close] *)

Lemma archives_close_effect h s :
  archives (close_effect h s) = delete (KAddr h) (archives s).
Proof. unfold close_effect. state_simpl. by destruct (node_dats s !! h). Qed.

Lemma archiveUsage_close_effect h s :
  archiveUsage (close_effect h s) = delete (KAddr h) (archiveUsage s).
Proof. unfold close_effect. state_simpl. by destruct (node_dats s !! h). Qed.

Lemma storage_close_effect h s : storage (close_effect h s) = storage s.
Proof. unfold close_effect. state_simpl. by destruct (node_dats s !! h). Qed.

Lemma engine_close_effect h s :
  match node_dats s !! h with
  | Some d =>
      engine_calls (close_effect h s) = (engine_calls s ++ [CallClose (dat_address d)])%list
      ∧ node_dats (close_effect h s) = delete (dat_address d) (node_dats s)
  | None =>
      engine_calls (close_effect h s) = engine_calls s
      ∧ node_dats (close_effect h s) = node_dats s
  end.
Proof. unfold close_effect. state_simpl. by destruct (node_dats s !! h). Qed.

(** C4 — [close(u)] is idempotent: when [u] resolves to [h], after the call
    [h] is in neither the handle cache nor the usage map, whatever the
    state before, so [getOpenArchives()] does not list it; the handle the
    engine held for [h], if any, has been closed; and a second [close(u)]
    succeeds and changes neither map. *)
Theorem close_idempotent (env : Env) (u h : string) (s : State) :
  resolveName env u = Some h →
  let s1 := (run (close env u) s).2 in
  let s2 := (run (close env u) s1).2 in
  (run (close env u) s).1 = Ok tt
  ∧ archives s1 = delete (KAddr h) (archives s)
  ∧ archiveUsage s1 = delete (KAddr h) (archiveUsage s)
  ∧ archives s1 !! KAddr h = None
  ∧ archiveUsage s1 !! KAddr h = None
  ∧ (∀ oa, oa ∈ getOpenArchives s1 → host oa ≠ KAddr h)
  ∧ match node_dats s !! h with
    | Some d =>
        engine_calls s1 = (engine_calls s ++ [CallClose (dat_address d)])%list
        ∧ node_dats s1 = delete (dat_address d) (node_dats s)
    | None => engine_calls s1 = engine_calls s ∧ node_dats s1 = node_dats s
    end
  ∧ (run (close env u) s1).1 = Ok tt
  ∧ archives s2 = archives s1
  ∧ archiveUsage s2 = archiveUsage s1.
Proof.
  intros Hres s1 s2. subst s2 s1. rewrite !run_close, Hres. cbn [fst snd].
  rewrite !archives_close_effect, !archiveUsage_close_effect.
  split_and!; try done.
  - apply lookup_delete_eq.
  - apply lookup_delete_eq.
  - intros oa Hin Hk. apply elem_of_getOpenArchives in Hin as (a & Hl & _).
    rewrite archives_close_effect, Hk, lookup_delete_eq in Hl. done.
  - apply engine_close_effect.
  - apply delete_id, lookup_delete_eq.
  - apply delete_id, lookup_delete_eq.
Qed.

Lemma close_idempotent_witness :
  resolveName demo_env "dat://aa" = Some "aa"
  ∧ is_Some (archives demo_open !! KAddr "aa")
  ∧ archives (run (close demo_env "dat://aa") demo_open).2 !! KAddr "aa" = None.
Proof.
  split; [reflexivity|]. split; [vm_compute; eauto|].
  pose proof (close_idempotent demo_env "dat://aa" "aa" demo_open eq_refl) as H.
  cbv zeta in H. apply H.
Defined.

(** ** [remove] *)

(** C1, as amended — [remove(u)] on a URL that is not a key of the index
    fails with "not in library" and changes nothing.  On a URL that is a
    key and resolves to [h], it returns the record, deletes the entry,
    takes [h] out of the handle cache and the usage map and closes the
    handle the engine holds for [h], if any.  On a URL that is a key but
    does not resolve, it fails with the resolution error and changes
    nothing. *)
Theorem remove_spec (env : Env) (u : string) (s : State) :
  let r := run (remove env u) s in
  match storage s !! u with
  | None => r = (Err NotInLibrary, s)
  | Some e =>
      match resolveName env u with
      | Some h =>
          r.1 = Ok e
          ∧ storage r.2 = delete u (storage s)
          ∧ storage r.2 !! u = None
          ∧ archives r.2 = delete (KAddr h) (archives s)
          ∧ archiveUsage r.2 = delete (KAddr h) (archiveUsage s)
          ∧ match node_dats s !! h with
            | Some d =>
                engine_calls r.2 = (engine_calls s ++ [CallClose (dat_address d)])%list
                ∧ node_dats r.2 = delete (dat_address d) (node_dats s)
            | None => engine_calls r.2 = engine_calls s ∧ node_dats r.2 = node_dats s
            end
      | None => r = (Err ResolveError, s)
      end
  end.
Proof.
  intros r. subst r. rewrite run_remove.
  destruct (storage s !! u) as [e|]; [|done].
  destruct (resolveName env u) as [h|]; [|done].
  cbn [fst snd]. state_simpl.
  rewrite storage_close_effect, archives_close_effect, archiveUsage_close_effect.
  split_and!; try done.
  - apply lookup_delete_eq.
  - apply engine_close_effect.
Qed.

(** C1, the claim as stated fails: [dat://gone.example] is a key of the
    index, but its name does not resolve; [remove] fails with the
    resolution error, returns no record and the entry stays. *)
Lemma remove_unresolvable_counterexample :
  storage demo_indexed !! "dat://gone.example" = Some gone_entry
  ∧ (run (remove demo_env "dat://gone.example") demo_indexed).1 = Err ResolveError
  ∧ storage (run (remove demo_env "dat://gone.example") demo_indexed).2
      !! "dat://gone.example" = Some gone_entry
  ∧ ¬ ((run (remove demo_env "dat://gone.example") demo_indexed).1 = Ok gone_entry
       ∧ storage (run (remove demo_env "dat://gone.example") demo_indexed).2
           !! "dat://gone.example" = None).
Proof.
  split_and!; try (vm_compute; reflexivity).
  intros [H _]. vm_compute in H. discriminate H.
Qed.

(** ** [getArchive] *)

Lemma createTempArchive_effect_frame env h s a s1 :
  createTempArchive_effect env h s = (Ok a, s1) →
  archives s1 = archives s ∧ archiveUsage s1 = archiveUsage s
  ∧ now s1 = now s ∧ storage s1 = storage s.
Proof.
  unfold createTempArchive_effect, engine_getDat. state_simpl.
  destruct (node_dats s !! h) as [d|].
  - destruct (dat_ready d); intros [= <- <-]; done.
  - destruct (load_drive env h) as [[dr rdy]|]; [|done]. cbn [dat_ready].
    destruct rdy; intros [= <- <-]; done.
Qed.

(** C3 — two [getArchive] calls in sequence that resolve to the same
    address [h] (the first one returning) return the same handle instance;
    each call records the time of the call as [lastUsed] of [h], whether
    the handle was cached or is new; and the second time is not before the
    first ([d] is the time that passes between the calls). *)
Theorem getArchive_twice (env1 env2 : Env) (u1 u2 h : string) (s : State)
    (d : N) (a1 : option DatArchive) :
  resolveName env1 u1 = Some h →
  resolveName env2 u2 = Some h →
  (run (getArchive env1 u1) s).1 = Ok a1 →
  let s1 := (run (getArchive env1 u1) s).2 in
  let r2 := run (getArchive env2 u2) (elapse d s1) in
  ∃ archive : DatArchive,
    a1 = Some archive
    ∧ r2.1 = Ok (Some archive)
    ∧ archives s1 !! KAddr h = Some archive
    ∧ archives r2.2 !! KAddr h = Some archive
    ∧ archiveUsage s1 !! KAddr h = Some (now s)
    ∧ archiveUsage r2.2 !! KAddr h = Some (now s + Z.of_N d)%Z
    ∧ (now s ≤ now s + Z.of_N d)%Z.
Proof.
  intros H1 H2 Hok s1 r2. subst r2 s1. revert Hok.
  rewrite (run_getArchive env1), H1.
  assert (∀ s' a, archives s' !! KAddr h = Some a → now s' = now s →
            let r2 := run (getArchive env2 u2) (elapse d s') in
            r2.1 = Ok (Some a) ∧ archives r2.2 !! KAddr h = Some a
            ∧ archiveUsage r2.2 !! KAddr h = Some (now s + Z.of_N d)%Z) as Hsecond.
  { intros s' a Ha Hnow r2. subst r2. rewrite run_getArchive, H2.
    state_simpl. rewrite Ha. cbn [fst snd]. state_simpl.
    rewrite lookup_insert_eq, Hnow. done. }
  destruct (archives s !! KAddr h) as [a|] eqn:Ha.
  - cbn [fst snd]. intros [= <-]. exists a.
    destruct (Hsecond (set_archiveUsage <[KAddr h:=now s]> s) a) as (?&?&?); [done..|].
    state_simpl. rewrite lookup_insert_eq. split_and!; try done.
    pose proof (N2Z.is_nonneg d). lia.
  - destruct (createTempArchive_effect env1 h s) as [[a|e] s'] eqn:Hc; [|done].
    apply createTempArchive_effect_frame in Hc as (_ & _ & Hnow & _).
    cbn [fst snd]. rewrite Hnow. intros [= <-]. exists a.
    destruct (Hsecond (set_archiveUsage <[KAddr h:=now s]> (set_archives <[KAddr h:=a]> s')) a)
      as (?&?&?); [by state_simpl; rewrite lookup_insert_eq|done|].
    state_simpl. rewrite !lookup_insert_eq. split_and!; try done.
    pose proof (N2Z.is_nonneg d). lia.
Qed.

Lemma getArchive_twice_witness :
  resolveName demo_env "dat://aa" = Some "aa"
  ∧ resolveName demo_env "dat://notes.example" = Some "aa"
  ∧ ∃ archive : DatArchive,
      (run (getArchive demo_env "dat://aa") demo_start).1 = Ok (Some archive)
      ∧ (run (getArchive demo_env "dat://notes.example") (elapse 5 demo_open)).1
        = Ok (Some archive).
Proof.
  split; [reflexivity|]. split; [reflexivity|].
  destruct (getArchive_twice demo_env demo_env "dat://aa" "dat://notes.example" "aa"
              demo_start 5
              (Some {| archive_id := 0; archive_drive := demo_drive |})
              eq_refl eq_refl eq_refl) as (archive & Ha & Hr & _).
  exists archive. split; [|exact Hr].
  rewrite <- Ha. reflexivity.
Defined.

(** ** [updateLibraryEntry] *)

Lemma library_entry_shape (d : string) (info : Info) :
  has_shape stored_record_shape (entry_properties (library_entry d info)) = true
  ↔ has_type (info_title info) TStringOrNull = true
    ∧ has_type (info_description info) TStringOrNull = true.
Proof.
  destruct info as [k u t de o].
  destruct t, de; vm_compute; split; try done; by intros [? ?].
Qed.

Lemma library_entry_not_spec_shape (d : string) (info : Info) :
  has_shape spec_record_shape (entry_properties (library_entry d info)) = false.
Proof. destruct info as [k u t de o]. destruct t, de; vm_compute; reflexivity. Qed.

Lemma land_entry_libraryDir a s : libraryDir (land_entry a s) = libraryDir s.
Proof. unfold land_entry. by destruct (getInfo a). Qed.

Lemma land_entries_lookup (l : list DatArchive) (s : State) (k : string) (e : LibraryEntry) :
  storage (fold_left (fun s' a => land_entry a s') l s) !! k = Some e →
  storage s !! k = Some e
  ∨ ∃ archive info,
      archive ∈ l ∧ getInfo archive = Some info ∧ k = archive_url archive
      ∧ e = library_entry (libraryDir s) info.
Proof.
  revert s. induction l as [|a l IH]; intros s; cbn [fold_left]; [by left|].
  intros H. apply IH in H as [H|(archive & info & Hin & Hi & -> & ->)].
  - unfold land_entry in H. destruct (getInfo a) as [info|] eqn:Hi; [|by left].
    revert H. state_simpl. rewrite lookup_insert.
    case_decide as Hk; [|by left].
    intros [= <-]. right. exists a, info. split_and!; try done. apply list_elem_of_here.
  - right. exists archive, info. rewrite land_entry_libraryDir.
    split_and!; try done. by apply list_elem_of_further.
Qed.

(** The index stays keyed by the records' own urls as long as the handles
    report their own url in [getInfo()]. *)
Lemma settle_keyed (s : State) :
  map_Forall (fun k e => url e = k) (storage s) →
  Forall (fun a => ∀ info, getInfo a = Some info → info_url info = archive_url a)
         (pending s) →
  map_Forall (fun k e => url e = k) (storage (settle s)).
Proof.
  intros Hkeys Hp k e Hk. cbn.
  apply land_entries_lookup in Hk as [Hk|(archive & info & Hin & Hi & -> & ->)].
  - by apply (Hkeys k e).
  - rewrite Forall_forall in Hp. by apply Hp.
Qed.

(** C7, as amended — every record that the detached part of
    [updateLibraryEntry] writes into the index is stored under the [url]
    of the handle (the record's own [url] whenever [getInfo()] reports
    the handle's url) and has the properties [dir], the string
    [<libraryDir>/dat1/<key>/], [url], a string, and [owner], a boolean.
    It carries [title] and [description] as [getInfo()] reports them:
    the property is missing when [getInfo()] reports [undefined], and has
    the reported value otherwise.  So the record has exactly the shape
    [{dir, url, owner, title: string|null, description: string|null}] if
    and only if [getInfo()] reports a string or [null] for both; and it
    never has the shape with a property [directory]. *)
Theorem stored_record_shape_spec (s : State) (k : string) (e : LibraryEntry) :
  storage (settle s) !! k = Some e →
  storage s !! k ≠ Some e →
  ∃ archive info,
    archive ∈ pending s
    ∧ getInfo archive = Some info
    ∧ k = archive_url archive
    ∧ (info_url info = archive_url archive → url e = k)
    ∧ entry_properties e
      = ([ ("dir", JStr (libraryDir s ++ "/dat1/" ++ info_key info ++ "/"));
           ("url", JStr (info_url info));
           ("owner", JBool (info_isOwner info)) ]
         ++ defined_property "title" (info_title info)
         ++ defined_property "description" (info_description info))%list
    ∧ (has_shape stored_record_shape (entry_properties e) = true
       ↔ has_type (info_title info) TStringOrNull = true
         ∧ has_type (info_description info) TStringOrNull = true)
    ∧ has_shape spec_record_shape (entry_properties e) = false.
Proof.
  unfold settle. intros H Hnew.
  apply land_entries_lookup in H as [H|(archive & info & Hin & Hi & -> & ->)]; [done|].
  exists archive, info. split_and!; try done.
  - apply library_entry_shape.
  - apply library_entry_not_spec_shape.
Qed.

Lemma stored_record_shape_spec_witness :
  storage (settle demo_created) !! "dat://aa" = Some demo_entry
  ∧ storage demo_created !! "dat://aa" ≠ Some demo_entry
  ∧ ∃ archive info,
      archive ∈ pending demo_created
      ∧ getInfo archive = Some info
      ∧ entry_properties demo_entry
        = ([ ("dir", JStr ("/lib" ++ "/dat1/" ++ info_key info ++ "/"));
             ("url", JStr (info_url info));
             ("owner", JBool (info_isOwner info)) ]
           ++ defined_property "title" (info_title info)
           ++ defined_property "description" (info_description info))%list.
Proof.
  assert (storage (settle demo_created) !! "dat://aa" = Some demo_entry) as H1
    by (vm_compute; reflexivity).
  assert (storage demo_created !! "dat://aa" ≠ Some demo_entry) as H2
    by (vm_compute; discriminate).
  split; [exact H1|]. split; [exact H2|].
  destruct (stored_record_shape_spec demo_created "dat://aa" demo_entry H1 H2)
    as (archive & info & Hin & Hi & _ & _ & Hp & _).
  exists archive, info. split; [exact Hin|]. split; [exact Hi|]. exact Hp.
Defined.

(** C7, the claim as stated fails: [getInfo()] reporting a title and no
    description, the record [createArchive] leaves in the index has the
    four properties [dir], [url], [owner], [title]: no property
    [directory], and no property [description] either, so that it has not
    the stated shape even with [dir] for [directory]. *)
Lemma spec_record_shape_counterexample :
  getInfo {| archive_id := 0; archive_drive := demo_drive |} = Some demo_info
  ∧ info_description demo_info = JUndefined
  ∧ storage (settle demo_created) !! "dat://aa" = Some demo_entry
  ∧ entry_properties demo_entry
    = [ ("dir", JStr "/lib/dat1/aa/"); ("url", JStr "dat://aa");
        ("owner", JBool true); ("title", JStr "Notes") ]
  ∧ has_shape spec_record_shape (entry_properties demo_entry) = false
  ∧ has_shape stored_record_shape (entry_properties demo_entry) = false
  ∧ property "directory" (entry_properties demo_entry) = None
  ∧ property "description" (entry_properties demo_entry) = None.
Proof. split_and!; vm_compute; reflexivity. Qed.

(** ** [createArchive] *)

Lemma run_createArchive env opts s :
  run (createArchive env opts) s =
  match create_drive env opts with
  | None => (Err EngineError, log_call (CallCreate opts) s)
  | Some dr =>
      let s1 := (engine_new (Some dr) (log_call (CallCreate opts) s)).2 in
      let archive := {| archive_id := next_id s; archive_drive := dr |} in
      match resolveName env (drive_url dr) with
      | None => (Err ResolveError, s1)
      | Some r =>
          (Ok (drive_url dr),
           set_pending (fun l => (l ++ [archive])%list)
             (set_archives (insert (host_property r) archive) s1))
      end
  end.
Proof.
  unfold createArchive, engine_create.
  rewrite run_mbind. cbn [run await act of_result fst snd].
  destruct (create_drive env opts) as [dr|]; cbn [engine_new of_result run fst snd]; [|done].
  rewrite run_mbind, run_dns_resolveName. unfold archive_url. cbn [archive_drive].
  destruct (resolveName env (drive_url dr)) as [r|]; cbn [fst snd]; [|done].
  unfold updateLibraryEntry. run_simpl. done.
Qed.

(** C8, what the code does — [createArchive] files the new handle under
    the key [undefined], not under the address: after
    [createArchive({})] the cache has no entry for the address [aa] of the
    new archive, a following [getArchive] of the archive's own url builds
    a second handle, and the cache then holds two handle instances for the
    one address. *)
Theorem createArchive_caches_under_undefined :
  let s1 := (run (createArchive demo_env []) demo_start).2 in
  let s2 := (run (getArchive demo_env "dat://aa") s1).2 in
  let first := {| archive_id := 0; archive_drive := demo_drive |} in
  let second := {| archive_id := 1; archive_drive := demo_drive |} in
  (run (createArchive demo_env []) demo_start).1 = Ok "dat://aa"
  ∧ resolveName demo_env "dat://aa" = Some "aa"
  ∧ archives s1 !! KAddr "aa" = None
  ∧ archives s1 !! KUndefined = Some first
  ∧ (host <$> getOpenArchives s1) = [KUndefined]
  ∧ (run (getArchive demo_env "dat://aa") s1).1 = Ok (Some second)
  ∧ archives s2 !! KUndefined = Some first
  ∧ archives s2 !! KAddr "aa" = Some second
  ∧ first ≠ second
  ∧ archive_drive first = archive_drive second.
Proof.
  cbv zeta. split_and!; try (vm_compute; reflexivity). discriminate.
Qed.

(** ** Steps of a task, one relation for all *)

Section AllActs.
Context (R : State -> State -> Prop).
Context (R_refl : ∀ s, R s s).
Context (R_trans : ∀ s1 s2 s3, R s1 s2 → R s2 s3 → R s1 s3).

Lemma all_acts_run {A : Type} (t : Async A) (s : State) :
  all_acts R t → R s (run t s).2.
Proof using R_refl R_trans.
  revert s. induction t as [a|e|f k IH|k IH]; intros s Ht; simpl in *; auto.
  destruct (Ht s) as [Hf Hk]. eapply R_trans; [exact Hf|]. by apply IH.
Qed.

Lemma all_acts_resume {A : Type} (t : Async A) (s : State) :
  all_acts R t → R s (resume t s).2 ∧ all_acts R (resume t s).1.
Proof using R_refl R_trans.
  revert s. induction t as [a|e|f k IH|k IH]; intros s Ht; simpl in *; auto.
  destruct (Ht s) as [Hf Hk]. destruct (IH s (f s) Hk) as [H1 H2].
  split; [|done]. eapply R_trans; [exact Hf|done].
Qed.

Lemma all_acts_bind {A B : Type} (t : Async A) (g : A -> Async B) :
  all_acts R t → (∀ a, all_acts R (g a)) → all_acts R (t ≫= g).
Proof using Type.
  intros Ht Hg. induction t as [a|e|f k IH|k IH]; simpl in *; auto.
  intros s. destruct (Ht s). split; [done|]. by apply IH.
Qed.

Lemma all_acts_try_catch {A : Type} (t : Async A) (h : Error -> Async A) :
  all_acts R t → (∀ e, all_acts R (h e)) → all_acts R (try_catch t h).
Proof using Type.
  intros Ht Hh. induction t as [a|e|f k IH|k IH]; simpl in *; auto.
  intros s. destruct (Ht s). split; [done|]. by apply IH.
Qed.

Lemma all_acts_await {A : Type} (g : State -> Result A * State) :
  (∀ s, R s (g s).2) → all_acts R (await g).
Proof using Type.
  intros Hg. simpl. intros s. split; [apply Hg|]. by destruct (g s).1.
Qed.

Lemma all_acts_modify (f : State -> State) :
  (∀ s, R s (f s)) → all_acts R (modify f).
Proof using Type. intros Hf s. split; [apply Hf|done]. Qed.

Lemma all_acts_gets {A : Type} (g : State -> A) : all_acts R (gets g).
Proof using R_refl. intros s. split; [apply R_refl|done]. Qed.

Lemma all_acts_awaited {A : Type} (t : Async A) :
  all_acts R t → all_acts R (awaited t).
Proof using Type. intros Ht. apply all_acts_bind; [done|]. by intros a. Qed.

Lemma all_acts_pool_step {A : Type} (i : nat) (ts : list (Async A)) :
  Forall (all_acts R) ts →
  all_acts R (pool_step i ts)
  ∧ ∀ s, Forall (all_acts R) (match (run (pool_step i ts) s).1 with
                              | Ok ts' => ts' | Err _ => [] end).
Proof using R_refl R_trans.
  intros Hts. unfold pool_step. destruct (ts !! i) as [t|] eqn:Hi; simpl; [|done].
  assert (all_acts R t) as Ht by (eapply Forall_lookup_1; eauto).
  split.
  - intros s. split; [|done]. by apply all_acts_resume.
  - intros s. apply Forall_insert; [done|]. by apply all_acts_resume.
Qed.

Lemma all_acts_pool_run {A : Type} (sched : list nat) (ts : list (Async A)) :
  Forall (all_acts R) ts →
  all_acts R (pool_run sched ts)
  ∧ ∀ s, Forall (all_acts R) (match (run (pool_run sched ts) s).1 with
                              | Ok ts' => ts' | Err _ => [] end).
Proof using R_refl R_trans.
  revert ts. induction sched as [|i sched IH]; intros ts Hts; [done|].
  cbn [pool_run]. unfold pool_step.
  destruct (ts !! i) as [t|] eqn:Hi; cbn [mbind Async_bind bind].
  - assert (all_acts R t) as Ht by (eapply Forall_lookup_1; eauto).
    assert (∀ s, Forall (all_acts R) (<[i:=(resume t s).1]> ts)) as Hts'.
    { intros s. apply Forall_insert; [done|]. by apply all_acts_resume. }
    split.
    + cbn [all_acts]. intros s. split; [by apply all_acts_resume|].
      by apply IH.
    + intros s. cbn [run]. by apply IH.
  - by apply IH.
Qed.

Lemma all_acts_settle_all {A : Type} (ts : list (Async A)) :
  Forall (all_acts R) ts → all_acts R (settle_all ts).
Proof using R_refl R_trans.
  induction ts as [|t ts IH]; intros Hts; [done|].
  apply Forall_cons in Hts as [Ht Hts]. cbn [settle_all all_acts].
  intros s. split; [by apply all_acts_run|].
  apply all_acts_bind; [by apply IH|done].
Qed.

Lemma run_bind_rel {A B : Type} (t : Async A) (g : A -> Async B) (s : State) :
  R s (run t s).2 →
  (∀ a, (run t s).1 = Ok a → R (run t s).2 (run (g a) (run t s).2).2) →
  R s (run (t ≫= g) s).2.
Proof using R_trans.
  intros Ht Hg. rewrite run_mbind. destruct (run t s) as [[a|e] s1]; cbn [fst snd] in *.
  - eapply R_trans; [exact Ht|]. by apply Hg.
  - done.
Qed.

Lemma run_Promise_all_rel {A : Type} (sched : list nat) (ts : list (Async A)) (s : State) :
  Forall (all_acts R) ts → R s (run (Promise_all sched ts) s).2.
Proof using R_refl R_trans.
  intros Hts. unfold Promise_all.
  destruct (all_acts_pool_run sched ts Hts) as [H1 H2].
  apply run_bind_rel; [by apply all_acts_run|].
  intros ts' Hts'. specialize (H2 s). rewrite Hts' in H2.
  apply run_bind_rel; [by apply all_acts_run, all_acts_settle_all|].
  intros rs _. cbn [run]. destruct (all_results rs); apply R_refl.
Qed.
End AllActs.

(** ** What leaves the usage map alone *)

Section UsageFrame.
Context (R : State -> State -> Prop).
Context (R_refl : ∀ s, R s s).
Context (R_trans : ∀ s1 s2 s3, R s1 s2 → R s2 s3 → R s1 s3).
Context (R_archives : ∀ f s, R s (set_archives f s)).
Context (R_node_dats : ∀ f s, R s (set_node_dats f s)).
Context (R_storage : ∀ f s, R s (set_storage f s)).
Context (R_pending : ∀ f s, R s (set_pending f s)).
Context (R_log : ∀ c s, R s (log_call c s)).
Context (R_bump : ∀ s, R s (bump_id s)).
Context (R_elapse : ∀ d s, R s (elapse d s)).
Context (R_delete : ∀ k s, R s (set_archiveUsage (delete k) s)).

Lemma frame_dns_resolveName env u : all_acts R (dns_resolveName env u).
Proof using R_refl. apply all_acts_await. intros s. apply R_refl. Qed.

Lemma frame_engine_getDat env a s : R s (engine_getDat env a s).2.
Proof using R_refl R_node_dats.
  unfold engine_getDat. destruct (node_dats s !! a); [apply R_refl|].
  destruct (load_drive env a) as [[dr rdy]|]; [apply R_node_dats|apply R_refl].
Qed.

Lemma frame_getDat env a : all_acts R (getDat env a).
Proof using R_refl R_node_dats R_log.
  intros s. split; [apply R_log|]. apply all_acts_await. apply frame_engine_getDat.
Qed.

Lemma frame_await_ready d : all_acts R (await_ready d).
Proof using R_refl. apply all_acts_await. intros s. apply R_refl. Qed.

Lemma frame_dat_close d : all_acts R (dat_close d).
Proof using R_trans R_node_dats R_log.
  apply all_acts_modify. intros s. unfold engine_close.
  eapply R_trans; [apply R_node_dats|apply R_log].
Qed.

Lemma frame_createDatArchive dr : all_acts R (createDatArchive dr).
Proof using R_bump. intros s. split; [apply R_bump|done]. Qed.

Lemma frame_engine_new o s : R s (engine_new o s).2.
Proof using R_refl R_trans R_node_dats R_bump.
  destruct o as [dr|]; [|apply R_refl]. cbn [engine_new snd].
  eapply R_trans; [apply R_node_dats|apply R_bump].
Qed.

Lemma frame_updateLibraryEntry a : all_acts R (updateLibraryEntry a).
Proof using R_pending. apply all_acts_modify. intros s. apply R_pending. Qed.

Lemma frame_listLibrary : all_acts R listLibrary.
Proof using R_refl. apply all_acts_gets. apply R_refl. Qed.

Lemma frame_close env u : all_acts R (close env u).
Proof using R_refl R_trans R_archives R_node_dats R_log R_delete.
  unfold close. apply all_acts_bind; [apply frame_dns_resolveName|]. intros h.
  apply all_acts_bind; [by apply all_acts_gets|]. intros d.
  apply all_acts_bind; [destruct d; [apply frame_dat_close|done]|]. intros _.
  apply all_acts_bind; [apply all_acts_modify, R_archives|]. intros _.
  apply all_acts_modify, R_delete.
Qed.

Lemma frame_remove env u : all_acts R (remove env u).
Proof using R_refl R_trans R_archives R_node_dats R_storage R_log R_delete.
  unfold remove. cbn [all_acts].
  apply all_acts_bind; [apply all_acts_await; intros s; apply R_refl|].
  intros [e|]; [|done].
  apply all_acts_bind; [apply all_acts_awaited, frame_close|]. intros _.
  apply all_acts_bind; [apply all_acts_await; intros s; apply R_storage|].
  by intros _.
Qed.

Lemma frame_createArchive env opts : all_acts R (createArchive env opts).
Proof using R_refl R_trans R_archives R_node_dats R_pending R_log R_bump.
  unfold createArchive.
  apply all_acts_bind.
  { intros s. split; [apply R_log|]. apply all_acts_await. apply frame_engine_new. }
  intros a.
  apply all_acts_bind; [apply frame_dns_resolveName|]. intros r.
  apply all_acts_bind; [apply all_acts_modify, R_archives|]. intros _.
  apply all_acts_bind; [apply frame_updateLibraryEntry|]. by intros _.
Qed.

Lemma frame_forkArchive env u opts : all_acts R (forkArchive env u opts).
Proof using R_refl R_trans R_node_dats R_pending R_log R_bump.
  unfold forkArchive.
  apply all_acts_bind; [apply frame_dns_resolveName|]. intros a.
  apply all_acts_bind; [apply frame_getDat|]. intros d.
  apply all_acts_bind.
  { intros s. split; [apply R_log|]. apply all_acts_await. apply frame_engine_new. }
  intros dst.
  apply all_acts_bind; [apply frame_updateLibraryEntry|]. by intros _.
Qed.

Lemma frame_checkOwned env a : all_acts R (checkOwned env a).
Proof using R_refl R_trans R_archives R_node_dats R_pending R_log R_bump.
  unfold checkOwned. apply all_acts_try_catch; [|done].
  apply all_acts_bind; [apply frame_getDat|]. intros d.
  apply all_acts_bind; [apply frame_await_ready|]. intros _.
  destruct (writable (drive d)); [|apply frame_dat_close].
  apply all_acts_bind; [apply frame_createDatArchive|]. intros archive.
  apply all_acts_bind; [apply frame_updateLibraryEntry|]. intros _.
  apply all_acts_modify, R_archives.
Qed.

Lemma frame_loadLibrary env e : all_acts R (loadLibrary env e).
Proof using R_refl R_archives R_node_dats R_storage R_log R_bump.
  unfold loadLibrary. apply all_acts_try_catch.
  - apply all_acts_bind; [apply frame_dns_resolveName|]. intros a.
    apply all_acts_bind; [apply frame_getDat|]. intros d.
    apply all_acts_bind; [apply frame_await_ready|]. intros _.
    apply all_acts_bind; [apply frame_createDatArchive|]. intros archive.
    apply all_acts_modify, R_archives.
  - intros _. apply all_acts_await. intros s. apply R_storage.
Qed.

Lemma frame_init_libraryDir env : all_acts R (init_libraryDir env).
Proof using R_refl.
  intros s. split; [apply R_refl|].
  destruct (existsSync_libraryDir env s); [done|]. by destruct (mkdirSync_ok env).
Qed.

Lemma frame_init env sched_owned sched_load s :
  R s (run (init env sched_owned sched_load) s).2.
Proof using R_refl R_trans R_archives R_node_dats R_storage R_pending R_log R_bump.
  pose proof (fun A => all_acts_run R R_refl R_trans (A:=A)) as Hrun.
  unfold init.
  apply (run_bind_rel R R_trans); [apply Hrun, frame_init_libraryDir|].
  intros _ _.
  apply (run_bind_rel R R_trans); [apply Hrun, all_acts_await; intros; apply R_refl|].
  intros _ _.
  apply (run_bind_rel R R_trans); [apply Hrun, all_acts_await; intros; apply R_refl|].
  intros _ _.
  apply (run_bind_rel R R_trans); [apply Hrun, all_acts_awaited, frame_listLibrary|].
  intros library _.
  apply (run_bind_rel R R_trans).
  - destruct (decide (length library = 0%nat)); [|apply R_refl].
    apply (run_bind_rel R R_trans); [apply Hrun, all_acts_await; intros; apply R_refl|].
    intros addresses _.
    apply (run_bind_rel R R_trans); [|intros; apply R_refl].
    apply (run_Promise_all_rel R R_refl R_trans).
    apply Forall_fmap, Forall_forall. intros a _. apply frame_checkOwned.
  - intros _ _.
    apply (run_bind_rel R R_trans); [|intros; apply R_refl].
    apply (run_Promise_all_rel R R_refl R_trans).
    apply Forall_fmap, Forall_forall. intros e _. apply frame_loadLibrary.
Qed.

Lemma frame_land_entries l s :
  R s (fold_left (fun s' a => land_entry a s') l s).
Proof using R_refl R_trans R_storage.
  revert s. induction l as [|a l IH]; intros s; cbn [fold_left]; [apply R_refl|].
  eapply R_trans; [|apply IH].
  unfold land_entry. destruct (getInfo a); [apply R_storage|apply R_refl].
Qed.

Lemma frame_settle s : R s (settle s).
Proof using R_refl R_trans R_storage R_pending.
  unfold settle. eapply R_trans; [apply (R_pending (fun _ => []))|].
  apply frame_land_entries.
Qed.

(** Every call but [getArchive]. *)
Lemma frame_perform env op s :
  (∀ u, op ≠ OpGetArchive u) → R s (perform env op s).
Proof using All.
  pose proof (fun A => all_acts_run R R_refl R_trans (A:=A)) as Hrun.
  intros Hop. destruct op; cbn [perform].
  - apply frame_init.
  - apply Hrun, frame_listLibrary.
  - apply Hrun, frame_remove.
  - apply Hrun, frame_close.
  - apply R_refl.
  - by destruct (Hop u).
  - apply Hrun, frame_createArchive.
  - apply Hrun, frame_forkArchive.
  - apply frame_settle.
  - apply R_elapse.
Qed.

(** [getArchive], given what it does to the usage map. *)
Lemma frame_getArchive env u s :
  (∀ h s', resolveName env u = Some h →
     R s' (set_archiveUsage (insert (KAddr h) (now s')) s')) →
  R s (run (getArchive env u) s).2.
Proof using R_refl R_trans R_archives R_node_dats R_log R_bump.
  intros Hins. rewrite run_getArchive.
  destruct (resolveName env u) as [h|]; [|apply R_refl].
  destruct (archives s !! KAddr h) as [a|]; cbn [snd]; [by apply Hins|].
  assert (R s (createTempArchive_effect env h s).2) as Hc.
  { unfold createTempArchive_effect.
    pose proof (frame_engine_getDat env h (log_call (CallGetDat h) s)) as Hg.
    destruct (engine_getDat env h (log_call (CallGetDat h) s)) as [[d|e] s2];
      cbn [snd] in *.
    - destruct (dat_ready d); cbn [snd].
      + eapply R_trans; [apply R_log|]. eapply R_trans; [exact Hg|apply R_bump].
      + eapply R_trans; [apply R_log|exact Hg].
    - eapply R_trans; [apply R_log|exact Hg]. }
  destruct (createTempArchive_effect env h s) as [[a|e] s1]; cbn [snd] in *; [|done].
  eapply R_trans; [exact Hc|]. eapply R_trans; [apply R_archives|].
  apply (Hins h (set_archives <[KAddr h:=a]> s1)). done.
Qed.
End UsageFrame.

(** ** The usage map *)

Lemma exec_snoc h env op s :
  exec (h ++ [(env, op)]) s = perform env op (exec h s).
Proof. unfold exec. by rewrite fold_left_app. Qed.

(** C10 — the usage map is written by [getArchive] only: every other call
    leaves each of its entries as it was or removes it.  So, in a library
    built by [new Library] and used through any history of calls, as long
    as no [getArchive] call has resolved to the key [k], the usage map has
    no entry for [k] and [getOpenArchives()] reports [lastUsed] undefined
    for every handle filed under [k], whichever of [init],
    [createArchive] or [forkArchive] filed it. *)
Theorem lastUsed_undefined_until_getArchive :
  (∀ (env : Env) (op : Op) (s : State),
     (∀ u, op ≠ OpGetArchive u) →
     archiveUsage (perform env op s) ⊆ archiveUsage s)
  ∧ (∀ (h : list (Env * Op)) (d : string) (index : gmap string LibraryEntry)
       (t : Z) (k : JsKey),
       (∀ env u, (env, OpGetArchive u) ∈ h → KAddr <$> resolveName env u ≠ Some k) →
       let s := exec h (new_Library d index t) in
       archiveUsage s !! k = None
       ∧ ∀ oa, oa ∈ getOpenArchives s → host oa = k → lastUsed oa = None).
Proof.
  split.
  - intros env op s Hop.
    apply (frame_perform (fun s1 s2 => archiveUsage s2 ⊆ archiveUsage s1));
      try done.
    + intros s1 s2 s3 H1 H2. by etrans.
    + intros k s1. state_simpl. apply delete_subseteq.
  - intros h d index t k Hh s.
    assert (archiveUsage s !! k = None) as Hk.
    { subst s. induction h as [|[env op] h IH] using rev_ind; [done|].
      rewrite exec_snoc.
      assert (archiveUsage (exec h (new_Library d index t)) !! k = None) as IH'.
      { apply IH. intros env' u Hin. apply Hh. apply elem_of_app. by left. }
      revert IH'. generalize (exec h (new_Library d index t)) as s. intros s.
      set (R := fun s1 s2 : State =>
                  archiveUsage s1 !! k = None → archiveUsage s2 !! k = None).
      assert (∀ s1, R s1 s1) as R_refl by (intros s1 H; exact H).
      assert (∀ s1 s2 s3, R s1 s2 → R s2 s3 → R s1 s3) as R_trans
        by (intros s1 s2 s3 H1 H2 H; by apply H2, H1).
      change (R s (perform env op s)).
      assert ((∃ u, op = OpGetArchive u) ∨ ∀ u, op ≠ OpGetArchive u) as [[u ->]|Hop]
        by (destruct op; eauto).
      + cbn [perform]. apply (frame_getArchive R); try done.
        intros h' s' Hres H. state_simpl. rewrite lookup_insert_ne; [done|].
        intros <-. apply (Hh env u); [|by rewrite Hres].
        apply elem_of_app. right. apply list_elem_of_here.
      + apply (frame_perform R); try done.
        intros k' s1 H. state_simpl. rewrite lookup_delete. by case_decide. }
    split; [done|]. intros oa Hin Hhost.
    apply elem_of_getOpenArchives in Hin as (a & _ & _ & ->). by rewrite Hhost.
Qed.

Lemma lastUsed_undefined_until_getArchive_witness :
  (∀ env u, (env, OpGetArchive u) ∈ demo_history →
     KAddr <$> resolveName env u ≠ Some (KAddr "aa"))
  ∧ (host <$> getOpenArchives (exec demo_history demo_start))
    = [KAddr "bb"; KAddr "aa"; KUndefined]
  ∧ ∀ oa, oa ∈ getOpenArchives (exec demo_history demo_start) →
          host oa = KAddr "aa" → lastUsed oa = None.
Proof.
  assert (∀ env u, (env, OpGetArchive u) ∈ demo_history →
            KAddr <$> resolveName env u ≠ Some (KAddr "aa")) as Hh.
  { intros env u Hin. unfold demo_history in Hin.
    repeat (apply elem_of_cons in Hin as [Hin|Hin]; [by inversion Hin|]).
    by apply not_elem_of_nil in Hin. }
  split; [exact Hh|]. split; [vm_compute; reflexivity|].
  apply (proj2 lastUsed_undefined_until_getArchive demo_history "/lib" ∅ 100
           (KAddr "aa") Hh).
Defined.

(** ** Tasks that interleave: rely and guarantee *)

Section RelyGuarantee.
Context (Rely Guar : State -> State -> Prop).
Context (Rely_refl : ∀ s, Rely s s).

Lemma rg_mono {A : Type} (t : Async A) (s : State) (Q Q' : Result A -> State -> Prop) :
  (∀ r s', Q r s' → Q' r s') → rg Rely Guar t s Q → rg Rely Guar t s Q'.
Proof using Type.
  intros HQ. revert s. induction t as [a|e|f k IH|k IH]; intros s; cbn [rg].
  - apply HQ.
  - apply HQ.
  - intros [Hf Hk]. split; [done|]. by apply IH.
  - intros Hk s' Hs'. by apply IH, Hk.
Qed.

Lemma rg_bind {A B : Type} (t : Async A) (g : A -> Async B) (s : State)
    (Q : Result B -> State -> Prop) :
  rg Rely Guar t s
    (fun r s' => match r with
                 | Ok a => rg Rely Guar (g a) s' Q
                 | Err e => Q (Err e) s'
                 end) →
  rg Rely Guar (t ≫= g) s Q.
Proof using Type.
  revert s. induction t as [a|e|f k IH|k IH]; intros s;
    cbn [rg mbind Async_bind bind].
  - done.
  - done.
  - intros [Hf Hk]. split; [done|]. by apply IH.
  - intros Hk s' Hs'. by apply IH, Hk.
Qed.

Lemma rg_try_catch {A : Type} (t : Async A) (h : Error -> Async A) (s : State)
    (Q : Result A -> State -> Prop) :
  rg Rely Guar t s
    (fun r s' => match r with
                 | Ok a => Q (Ok a) s'
                 | Err e => rg Rely Guar (h e) s' Q
                 end) →
  rg Rely Guar (try_catch t h) s Q.
Proof using Type.
  revert s. induction t as [a|e|f k IH|k IH]; intros s; cbn [rg try_catch].
  - done.
  - done.
  - intros [Hf Hk]. split; [done|]. by apply IH.
  - intros Hk s' Hs'. by apply IH, Hk.
Qed.

Lemma rg_await {A : Type} (g : State -> Result A * State) (s : State)
    (Q : Result A -> State -> Prop) :
  (∀ s', Rely s s' → Guar s' (g s').2 ∧ Q (g s').1 (g s').2) →
  rg Rely Guar (await g) s Q.
Proof using Type.
  intros Hg. cbn [await act rg]. intros s' Hs'. destruct (Hg s' Hs') as [H1 H2].
  split; [done|]. by destruct (g s').1.
Qed.

Lemma rg_modify (f : State -> State) (s : State) (Q : Result unit -> State -> Prop) :
  Guar s (f s) → Q (Ok tt) (f s) → rg Rely Guar (modify f) s Q.
Proof using Type. intros. by split. Qed.

Lemma rg_act {A : Type} (f : State -> State) (k : State -> Async A) (s : State)
    (Q : Result A -> State -> Prop) :
  Guar s (f s) → rg Rely Guar (k s) (f s) Q → rg Rely Guar (Act f k) s Q.
Proof using Type. intros. by split. Qed.

(** The steps of a task stay in any preorder that contains its
    guarantee. *)
Lemma rg_resume_steps {A : Type} (X : State -> State -> Prop) (t : Async A)
    (s : State) (Q : Result A -> State -> Prop) :
  (∀ s1, X s1 s1) → (∀ s1 s2 s3, X s1 s2 → X s2 s3 → X s1 s3) →
  (∀ s1 s2, Guar s1 s2 → X s1 s2) →
  rg Rely Guar t s Q → X s (resume t s).2.
Proof using Type.
  intros Xr Xt XG. revert s.
  induction t as [a|e|f k IH|k IH]; intros s; cbn [rg resume snd].
  - intros _. apply Xr.
  - intros _. apply Xr.
  - intros [Hf Hk]. eapply Xt; [apply XG, Hf|]. by apply IH.
  - intros _. apply Xr.
Qed.

Lemma rg_resume_next {A : Type} (t : Async A) (s : State)
    (Q : Result A -> State -> Prop) :
  (∀ r s1 s2, Q r s1 → Rely s1 s2 → Q r s2) →
  rg Rely Guar t s Q →
  ∀ s', Rely (resume t s).2 s' → rg Rely Guar (resume t s).1 s' Q.
Proof using Type.
  intros HQ. revert s. induction t as [a|e|f k IH|k IH]; intros s; cbn [rg resume fst snd].
  - intros H s' Hs'. by eapply HQ.
  - intros H s' Hs'. by eapply HQ.
  - intros [Hf Hk]. by apply IH.
  - auto.
Qed.

Lemma rg_run_steps {A : Type} (X : State -> State -> Prop) (t : Async A)
    (s : State) (Q : Result A -> State -> Prop) :
  (∀ s1, X s1 s1) → (∀ s1 s2 s3, X s1 s2 → X s2 s3 → X s1 s3) →
  (∀ s1 s2, Guar s1 s2 → X s1 s2) →
  rg Rely Guar t s Q → X s (run t s).2.
Proof using Rely_refl.
  intros Xr Xt XG. revert s.
  induction t as [a|e|f k IH|k IH]; intros s; cbn [rg run snd].
  - intros _. apply Xr.
  - intros _. apply Xr.
  - intros [Hf Hk]. eapply Xt; [apply XG, Hf|]. by apply IH.
  - intros Hk. apply IH, Hk, Rely_refl.
Qed.

(** A stronger rely and a weaker guarantee. *)
Lemma rg_relations {A : Type} (Rely' Guar' : State -> State -> Prop) (t : Async A)
    (s : State) (Q : Result A -> State -> Prop) :
  (∀ s1 s2, Rely' s1 s2 → Rely s1 s2) →
  (∀ s1 s2, Guar s1 s2 → Guar' s1 s2) →
  rg Rely Guar t s Q → rg Rely' Guar' t s Q.
Proof using Type.
  intros HR HG. revert s. induction t as [a|e|f k IH|k IH]; intros s; cbn [rg].
  - done.
  - done.
  - intros [Hf Hk]. split; [by apply HG|]. by apply IH.
  - intros Hk s' Hs'. by apply IH, Hk, HR.
Qed.

Lemma rg_run {A : Type} (t : Async A) (s : State) (Q : Result A -> State -> Prop) :
  rg Rely Guar t s Q → Q (run t s).1 (run t s).2.
Proof using Rely_refl.
  revert s. induction t as [a|e|f k IH|k IH]; intros s; cbn [rg run fst snd].
  - done.
  - done.
  - intros [Hf Hk]. by apply IH.
  - intros Hk. apply IH, Hk, Rely_refl.
Qed.
End RelyGuarantee.

Section Pool.
Context {A : Type}.
Context (Rely Guar : nat -> State -> State -> Prop).
Context (Q : nat -> Result A -> State -> Prop).
Context (Inv : State -> State -> Prop).
Context (Rely_refl : ∀ i s, Rely i s s).
Context (Rely_trans : ∀ i s1 s2 s3, Rely i s1 s2 → Rely i s2 s3 → Rely i s1 s3).
Context (Guar_Rely : ∀ i j s1 s2, i ≠ j → Guar j s1 s2 → Rely i s1 s2).
Context (Inv_refl : ∀ s, Inv s s).
Context (Inv_trans : ∀ s1 s2 s3, Inv s1 s2 → Inv s2 s3 → Inv s1 s3).
Context (Guar_Inv : ∀ j s1 s2, Guar j s1 s2 → Inv s1 s2).
Context (Q_stable : ∀ i r s1 s2, Q i r s1 → Rely i s1 s2 → Q i r s2).

Lemma pool_step_ok (j : nat) (ts : list (Async A)) (s : State) :
  pool_ok Rely Guar Q 0 ts s →
  ∃ ts', (run (pool_step j ts) s).1 = Ok ts'
         ∧ length ts' = length ts
         ∧ pool_ok Rely Guar Q 0 ts' (run (pool_step j ts) s).2
         ∧ Inv s (run (pool_step j ts) s).2.
Proof using Rely_refl Rely_trans Guar_Rely Inv_refl Inv_trans Guar_Inv Q_stable.
  intros Hok. unfold pool_step. destruct (ts !! j) as [t|] eqn:Hj; cbn [run fst snd].
  - pose proof (Hok j t Hj s (Rely_refl _ _)) as Ht. cbn [Nat.add] in Ht.
    exists (<[j:=(resume t s).1]> ts). split; [done|].
    split; [apply length_insert|]. split.
    + intros i t' Hi s' Hs'. cbn [Nat.add] in *.
      destruct (decide (i = j)) as [->|Hne].
      * rewrite list_lookup_insert_eq in Hi by (by eapply lookup_lt_Some).
        injection Hi as <-. by eapply rg_resume_next; [apply Q_stable|..].
      * rewrite list_lookup_insert_ne in Hi by done.
        apply (Hok i t' Hi). cbn [Nat.add].
        eapply Rely_trans; [|exact Hs'].
        eapply (rg_resume_steps (Rely j) (Guar j) (Rely i)); [apply Rely_refl|apply Rely_trans| |exact Ht].
        intros s1 s2. by apply Guar_Rely.
    + eapply (rg_resume_steps (Rely j) (Guar j) Inv); [done..|apply Guar_Inv|exact Ht].
  - exists ts. split_and!; try done.
Qed.

Lemma pool_run_ok (sched : list nat) (ts : list (Async A)) (s : State) :
  pool_ok Rely Guar Q 0 ts s →
  ∃ ts', (run (pool_run sched ts) s).1 = Ok ts'
         ∧ length ts' = length ts
         ∧ pool_ok Rely Guar Q 0 ts' (run (pool_run sched ts) s).2
         ∧ Inv s (run (pool_run sched ts) s).2.
Proof using Rely_refl Rely_trans Guar_Rely Inv_refl Inv_trans Guar_Inv Q_stable.
  revert ts s. induction sched as [|j sched IH]; intros ts s Hok.
  - exists ts. split_and!; try done.
  - cbn [pool_run]. rewrite run_mbind.
    destruct (pool_step_ok j ts s Hok) as (ts1 & Hr & Hlen & Hok1 & Hinv1).
    rewrite Hr. destruct (IH ts1 _ Hok1) as (ts2 & Hr2 & Hlen2 & Hok2 & Hinv2).
    exists ts2. split_and!; try done; [congruence|by eapply Inv_trans].
Qed.

Lemma settle_all_ok (n : nat) (ts : list (Async A)) (s : State) :
  pool_ok Rely Guar Q n ts s →
  ∃ rs, (run (settle_all ts) s).1 = Ok rs
        ∧ length rs = length ts
        ∧ Inv s (run (settle_all ts) s).2
        ∧ (∀ i, (i < n)%nat → Rely i s (run (settle_all ts) s).2)
        ∧ ∀ i r, rs !! i = Some r → Q (n + i)%nat r (run (settle_all ts) s).2.
Proof using Rely_refl Rely_trans Guar_Rely Inv_refl Inv_trans Guar_Inv Q_stable.
  revert n s. induction ts as [|t ts IH]; intros n s Hok.
  - exists []. split_and!; try done; intros i _; apply Rely_refl.
  - cbn [settle_all run]. rewrite run_mbind.
    pose proof (Hok 0%nat t eq_refl s (Rely_refl _ _)) as Ht.
    rewrite Nat.add_0_r in Ht.
    set (s1 := (run t s).2).
    assert (pool_ok Rely Guar Q (S n) ts s1) as Hok1.
    { intros i t' Hi s' Hs'. replace (S n + i)%nat with (n + S i)%nat in * by lia.
      apply (Hok (S i) t' Hi). eapply Rely_trans; [|exact Hs'].
      eapply (rg_run_steps (Rely n) (Guar n) (Rely_refl n) (Rely (n + S i)));
        [apply Rely_refl|apply Rely_trans| |exact Ht].
      intros s2 s3. apply Guar_Rely. lia. }
    destruct (IH (S n) s1 Hok1) as (rs & Hr & Hlen & Hinv & Hrely & HQ).
    rewrite Hr. cbn [run fst snd]. exists ((run t s).1 :: rs).
    split; [done|]. split; [cbn; by rewrite Hlen|]. split_and!.
    + eapply Inv_trans; [|exact Hinv].
      eapply (rg_run_steps (Rely n) (Guar n) (Rely_refl n) Inv); [done..|apply Guar_Inv|exact Ht].
    + intros i Hi. eapply Rely_trans; [|apply Hrely; lia].
      eapply (rg_run_steps (Rely n) (Guar n) (Rely_refl n) (Rely i));
        [apply Rely_refl|apply Rely_trans| |exact Ht].
      intros s2 s3. apply Guar_Rely. lia.
    + intros [|i] r Hi; cbn in Hi.
      * injection Hi as <-. rewrite Nat.add_0_r.
        eapply Q_stable; [|apply Hrely; lia].
        by eapply (rg_run (Rely n) (Guar n) (Rely_refl n)).
      * replace (n + S i)%nat with (S n + i)%nat by lia. by apply HQ.
Qed.

(** [Promise.all] over a pool: whatever the schedule, every task
    settles with its postcondition. *)
Lemma Promise_all_rg (sched : list nat) (ts : list (Async A)) (s : State) :
  pool_ok Rely Guar Q 0 ts s →
  ∃ rs, (run (Promise_all sched ts) s).1 = all_results rs
        ∧ length rs = length ts
        ∧ Inv s (run (Promise_all sched ts) s).2
        ∧ ∀ i r, rs !! i = Some r → Q i r (run (Promise_all sched ts) s).2.
Proof using Rely_refl Rely_trans Guar_Rely Inv_refl Inv_trans Guar_Inv Q_stable.
  intros Hok. unfold Promise_all. rewrite run_mbind.
  destruct (pool_run_ok sched ts s Hok) as (ts1 & Hr & Hlen & Hok1 & Hinv1).
  rewrite Hr, run_mbind.
  destruct (settle_all_ok 0 ts1 _ Hok1) as (rs & Hr2 & Hlen2 & Hinv2 & _ & HQ).
  rewrite Hr2. cbn [run]. exists rs.
  assert (∀ s', run (of_result (all_results rs)) s' = (all_results rs, s')) as ->
    by (intros s'; by destruct (all_results rs)).
  cbn [fst snd]. split_and!; try done; [congruence|by eapply Inv_trans].
Qed.
End Pool.

(** ** Startup reconciliation *)

Lemma engine_getDat_opens env a s :
  (engine_getDat env a s).1
  = match opens env s a with Some d => Ok d | None => Err EngineError end
  ∧ (∀ a', opens env (engine_getDat env a s).2 a' = opens env s a')
  ∧ storage (engine_getDat env a s).2 = storage s
  ∧ archives (engine_getDat env a s).2 = archives s
  ∧ archiveUsage (engine_getDat env a s).2 = archiveUsage s
  ∧ pending (engine_getDat env a s).2 = pending s
  ∧ libraryDir (engine_getDat env a s).2 = libraryDir s
  ∧ now (engine_getDat env a s).2 = now s
  ∧ engine_calls (engine_getDat env a s).2 = engine_calls s
  ∧ next_id (engine_getDat env a s).2 = next_id s.
Proof.
  unfold engine_getDat, opens. destruct (node_dats s !! a) as [d|] eqn:Hd.
  - cbn [fst snd]. split_and!; done.
  - destruct (load_drive env a) as [[dr rdy]|] eqn:Hl; cbn [fst snd fmap option_fmap option_map].
    + split_and!; try done. intros a'. state_simpl. rewrite lookup_insert.
      case_decide as Ha; [subst a'|done]. by rewrite Hd, Hl.
    + split_and!; try done.
Qed.

Lemma loads_opens env s s' e :
  (∀ a, opens env s' a = opens env s a) → loads env s' e = loads env s e.
Proof. intros H. unfold loads. destruct (resolveName env (url e)); [|done]. by rewrite H. Qed.

Lemma load_step_refl env library s : load_step env library s s.
Proof.
  split_and!; try done; [by left|]. intros k. destruct (archives s !! k); [by left|done].
Qed.

Lemma load_step_trans env library s1 s2 s3 :
  load_step env library s1 s2 → load_step env library s2 s3 →
  load_step env library s1 s3.
Proof.
  intros (Ho1 & Hs1 & Ha1 & Hu1 & Hp1 & Hd1 & Hn1) (Ho2 & Hs2 & Ha2 & Hu2 & Hp2 & Hd2 & Hn2).
  split_and!; try congruence.
  - intros k. destruct (Hs2 k) as [->|[-> (e & ? & ? & He)]]; [apply Hs1|].
    right. split; [done|]. exists e. split_and!; try done.
    by rewrite <- (loads_opens env s1 s2).
  - intros k. specialize (Ha2 k). specialize (Ha1 k).
    destruct (archives s3 !! k) as [a3|].
    + destruct Ha2 as [Ha2|(a & d & -> & Hopen & Hdr)].
      * by rewrite Ha2 in Ha1.
      * right. exists a, d. by rewrite <- Ho1.
    + by rewrite Ha2 in Ha1.
Qed.

(** Steps that touch neither the engine's table, nor the index, nor the
    cache. *)
Lemma load_step_frame env library s s' :
  node_dats s' = node_dats s → storage s' = storage s → archives s' = archives s →
  archiveUsage s' = archiveUsage s → pending s' = pending s →
  libraryDir s' = libraryDir s → now s' = now s →
  load_step env library s s'.
Proof.
  intros Hd Hs Ha Hu Hp Hl Hn. split_and!; try done.
  - intros a. unfold opens. by rewrite Hd.
  - intros k. left. by rewrite Hs.
  - intros k. rewrite Ha. destruct (archives s !! k); [by left|done].
Qed.

Lemma load_step_getDat env library a s :
  load_step env library s (engine_getDat env a s).2.
Proof.
  destruct (engine_getDat_opens env a s) as (_ & Ho & Hs & Ha & Hu & Hp & Hl & Hn & _).
  split_and!; try done.
  - intros k. left. by rewrite Hs.
  - intros k. rewrite Ha. destruct (archives s !! k); [by left|done].
Qed.

Lemma load_step_insert env library a d archive s :
  opens env s a = Some d → archive_drive archive = drive d →
  load_step env library s (set_archives (insert (KAddr a) archive) s).
Proof.
  intros Ho Hdr. split_and!; try done.
  - intros k. by left.
  - intros k. state_simpl. rewrite lookup_insert. case_decide as Hk.
    + subst k. right. eauto.
    + destruct (archives s !! k); [by left|done].
Qed.

Lemma load_step_delete env library e s :
  e ∈ library → loads env s e = None →
  load_step env library s (set_storage (delete (url e)) s).
Proof.
  intros Hin He. split_and!; try done.
  - intros k. state_simpl. rewrite lookup_delete. case_decide as Hk; [|by left].
    right. split; [done|]. eauto.
  - intros k. state_simpl. destruct (archives s !! k); [by left|done].
Qed.

Lemma loads_Some env s e d :
  loads env s e = Some d ↔
  ∃ a, resolveName env (url e) = Some a ∧ opens env s a = Some d ∧ dat_ready d = true.
Proof.
  unfold loads. split.
  - destruct (resolveName env (url e)) as [a|]; [|done].
    destruct (opens env s a) as [d'|] eqn:Ho; [|done].
    destruct (dat_ready d') eqn:Hr; [|done]. intros [= <-]. by exists a.
  - intros (a & -> & -> & ->). done.
Qed.

Lemma loaded_stable env library s0 e r s1 s2 :
  loaded env s0 e r s1 → load_step env library s1 s2 → loaded env s0 e r s2.
Proof.
  intros (Hr & Ho & HQ) (Ho2 & Hs2 & Ha2 & _). split; [done|].
  split; [intros a; by rewrite Ho2|].
  destruct (loads env s0 e) as [d|] eqn:Hl.
  - destruct HQ as (a & archive & Hres & Harch & Hdr).
    specialize (Ha2 (KAddr a)). rewrite Harch in Ha2.
    destruct (archives s2 !! KAddr a) as [archive2|] eqn:H2; [|done].
    exists a, archive2. split; [done|]. split; [done|].
    destruct Ha2 as [[= ->]|(a' & d' & [= <-] & Hopen & Hdr')]; [done|].
    apply loads_Some in Hl as (a'' & Hres' & Hopen' & _).
    rewrite Hres in Hres'. injection Hres' as <-.
    rewrite Ho, Hopen' in Hopen. by injection Hopen as <-.
  - destruct (Hs2 (url e)) as [->|[-> _]]; done.
Qed.

Lemma loadLibrary_catch_rg env library s0 e s :
  e ∈ library → loads env s0 e = None →
  (∀ a, opens env s a = opens env s0 a) →
  rg (load_step env library) (load_step env library)
     (await (fun s2 => (Ok tt, set_storage (delete (url e)) s2))) s
     (loaded env s0 e).
Proof.
  intros Hin Hl Ho. apply rg_await. intros s' Hs'. cbn [fst snd].
  assert (∀ a, opens env s' a = opens env s0 a) as Ho'
    by (intros a; destruct Hs' as [-> _]; apply Ho).
  split.
  - apply load_step_delete; [done|]. by rewrite (loads_opens env s0 s').
  - split; [done|]. split; [exact Ho'|]. rewrite Hl. state_simpl. apply lookup_delete_eq.
Qed.

(** The task of a record, resumed in any state the other tasks may have
    led to, keeps to [load_step] and ends as [loaded] says. *)
Lemma loadLibrary_rg env library s0 e s :
  e ∈ library →
  (∀ a, opens env s a = opens env s0 a) →
  rg (load_step env library) (load_step env library) (loadLibrary env e) s
     (loaded env s0 e).
Proof.
  intros Hin Ho. unfold loadLibrary.
  apply rg_try_catch, rg_bind, rg_await. intros s1 Hs1.
  split; [apply load_step_refl|]. cbn [fst snd].
  assert (∀ a, opens env s1 a = opens env s0 a) as Ho1
    by (intros a; destruct Hs1 as [-> _]; apply Ho).
  destruct (resolveName env (url e)) as [a|] eqn:Hres.
  2: { apply loadLibrary_catch_rg; [done| |done]. unfold loads. by rewrite Hres. }
  apply rg_bind. unfold getDat. apply rg_act; [by apply load_step_frame|].
  apply rg_await. intros s2 Hs2.
  assert (∀ a, opens env s2 a = opens env s0 a) as Ho2.
  { intros a'. destruct Hs2 as [-> _]. apply Ho1. }
  split; [apply load_step_getDat|].
  destruct (engine_getDat_opens env a s2) as (-> & Ho3' & _).
  assert (∀ a', opens env (engine_getDat env a s2).2 a' = opens env s0 a') as Ho3
    by (intros a'; by rewrite Ho3').
  clear Ho3'. revert Ho3. generalize (engine_getDat env a s2).2 as s3. intros s3 Ho3.
  rewrite Ho2. destruct (opens env s0 a) as [d|] eqn:Hopen.
  2: { apply loadLibrary_catch_rg; [done| |done]. unfold loads. by rewrite Hres, Hopen. }
  apply rg_bind, rg_await. intros s4 Hs4. cbn [fst snd].
  assert (∀ a, opens env s4 a = opens env s0 a) as Ho4
    by (intros a'; destruct Hs4 as [-> _]; apply Ho3).
  split; [apply load_step_refl|].
  destruct (dat_ready d) eqn:Hready.
  2: { apply loadLibrary_catch_rg; [done| |done].
       unfold loads. by rewrite Hres, Hopen, Hready. }
  apply rg_bind. unfold createDatArchive, act. cbn [fst snd].
  apply rg_act; [by apply load_step_frame|].
  cbn [rg]. apply rg_modify.
  - apply (load_step_insert env library a d); [|done].
    rewrite <- Hopen, <- Ho4. done.
  - split; [done|]. split; [exact Ho4|].
    assert (loads env s0 e = Some d) as -> by (apply loads_Some; eauto).
    eexists a, _. split; [done|]. state_simpl. rewrite lookup_insert_eq. done.
Qed.

Lemma all_results_Ok {A : Type} (rs : list (Result A)) :
  (∀ i r, rs !! i = Some r → ∃ a, r = Ok a) → ∃ l, all_results rs = Ok l.
Proof.
  induction rs as [|r rs IH]; intros H; [by eexists|].
  destruct (H 0%nat r eq_refl) as [a ->].
  destruct IH as [l Hl]; [intros i r Hi; by apply (H (S i))|].
  cbn [all_results]. rewrite Hl. by eexists.
Qed.

Lemma existsSync_libraryDir_nonempty env s :
  storage s ≠ ∅ → existsSync_libraryDir env s = true.
Proof. intros Hne. unfold existsSync_libraryDir. by destruct (decide (storage s = ∅)). Qed.

Lemma existsSync_libraryDir_empty env s :
  storage s = ∅ → existsSync_libraryDir env s = libraryDir_exists env.
Proof. intros He. unfold existsSync_libraryDir. by destruct (decide (storage s = ∅)). Qed.

Lemma run_init env sched_owned sched_load s :
  run (init env sched_owned sched_load) s =
  if existsSync_libraryDir env s || mkdirSync_ok env then
  if migrate_ok env then
    if storage_init_ok env then
      let library := (map_to_list (storage s)).*2 in
      let load s1 :=
        let r := run (Promise_all sched_load (loadLibrary env <$> library)) s1 in
        (match r.1 with Ok _ => Ok tt | Err e => Err e end, r.2) in
      if decide (length library = 0%nat) then
        match readdir_datDir env with
        | Some addresses =>
            let r := run (Promise_all sched_owned (checkOwned env <$> addresses)) s in
            match r.1 with
            | Ok _ => load r.2
            | Err e => (Err e, r.2)
            end
        | None => (Err FsError, s)
        end
      else load s
    else (Err StorageError, s)
  else (Err MigrateError, s)
  else (Err FsError, s).
Proof.
  unfold init. rewrite run_mbind.
  assert (run (init_libraryDir env) s
          = (if existsSync_libraryDir env s || mkdirSync_ok env
             then Ok tt else Err FsError, s)) as ->.
  { unfold init_libraryDir. cbn [run].
    destruct (existsSync_libraryDir env s); [done|]. by destruct (mkdirSync_ok env). }
  destruct (existsSync_libraryDir env s || mkdirSync_ok env); cbn [fst snd]; [|done].
  rewrite run_mbind. cbn [await act run of_result fst snd].
  destruct (migrate_ok env); cbn [of_result run fst snd]; [|done].
  rewrite run_mbind. cbn [await act run of_result fst snd].
  destruct (storage_init_ok env); cbn [of_result run fst snd]; [|done].
  rewrite run_mbind. unfold awaited, listLibrary. rewrite run_mbind.
  cbn [gets run fst snd].
  set (library := (map_to_list (storage s)).*2).
  rewrite run_mbind. cbv zeta.
  destruct (decide (length library = 0%nat)) as [Hlen|Hlen].
  - rewrite run_mbind. cbn [await act run of_result fst snd].
    destruct (readdir_datDir env) as [addresses|]; cbn [of_result run fst snd]; [|done].
    rewrite run_mbind.
    destruct (run (Promise_all sched_owned (checkOwned env <$> addresses)) s) as [[l|e] s1];
      cbn [fst snd run]; [|done].
    rewrite run_mbind.
    by destruct (run (Promise_all sched_load (loadLibrary env <$> library)) s1) as [[l'|e] s2].
  - cbn [run fst snd]. rewrite run_mbind.
    by destruct (run (Promise_all sched_load (loadLibrary env <$> library)) s) as [[l'|e] s2].
Qed.

(** C2 — startup reconciliation of a non-empty index, the records being
    processed concurrently in any order of interleaving: [init()]
    completes; every record that fails to load (its url does not resolve,
    the engine cannot open the address, or the handle does not get ready)
    is gone from the index; and every other record is still there, with a
    handle over its drive in the cache under its resolved address. *)
Theorem init_self_prunes (env : Env) (sched_owned sched_load : list nat) (s : State) :
  migrate_ok env = true →
  storage_init_ok env = true →
  storage s ≠ ∅ →
  map_Forall (fun k e => url e = k) (storage s) →
  let r := run (init env sched_owned sched_load) s in
  r.1 = Ok tt
  ∧ ∀ k e, storage s !! k = Some e →
      match loads env s e with
      | None => storage r.2 !! k = None
      | Some d =>
          storage r.2 !! k = Some e
          ∧ ∃ a archive, resolveName env k = Some a
                         ∧ archives r.2 !! KAddr a = Some archive
                         ∧ archive_drive archive = drive d
      end.
Proof.
  intros Hm Hst Hne Hkeys r. subst r.
  rewrite run_init, existsSync_libraryDir_nonempty, Hm, Hst by done.
  cbn [orb]. cbv zeta.
  set (library := (map_to_list (storage s)).*2).
  assert (∀ e, e ∈ library ↔ ∃ k, storage s !! k = Some e) as Hlib.
  { intros e. unfold library. rewrite list_elem_of_fmap. split.
    - intros [[k e'] [-> Hin]]. exists k. by apply elem_of_map_to_list.
    - intros [k Hk]. exists (k, e). split; [done|]. by apply elem_of_map_to_list. }
  destruct (decide (length library = 0%nat)) as [Hlen|_].
  { exfalso. apply Hne. apply map_to_list_empty_iff.
    apply nil_length_inv in Hlen. unfold library in Hlen.
    by apply fmap_nil_inv in Hlen. }
  set (G := load_step env library).
  destruct (Promise_all_rg (fun _ => G) (fun _ => G)
              (fun i r s' => ∃ e, library !! i = Some e ∧ loaded env s e r s') G)
    with (sched := sched_load) (ts := loadLibrary env <$> library) (s := s)
    as (rs & Hr & Hlen & Hinv & HQ).
  - intros _ s1. apply load_step_refl.
  - intros _ s1 s2 s3. apply load_step_trans.
  - done.
  - intros s1. apply load_step_refl.
  - intros s1 s2 s3. apply load_step_trans.
  - done.
  - intros i r s1 s2 (e & He & Hl) Hs. exists e. split; [done|].
    by eapply loaded_stable.
  - intros i t Hi s' Hs'. cbn [Nat.add] in *.
    rewrite list_lookup_fmap in Hi.
    destruct (library !! i) as [e|] eqn:He; [|done]. injection Hi as <-.
    eapply rg_mono; [|apply (loadLibrary_rg env library s e s')].
    + intros r s'' Hl. eauto.
    + by eapply list_elem_of_lookup_2.
    + intros a. by destruct Hs' as [-> _].
  - rewrite length_fmap in Hlen.
    assert (∃ l, all_results rs = Ok l) as [l Hl].
    { apply all_results_Ok. intros i r Hi. destruct (HQ i r Hi) as (e & _ & -> & _). eauto. }
    cbn [fst snd]. rewrite Hr, Hl. split; [done|].
    intros k e Hk.
    assert (e ∈ library) as Hin by (apply Hlib; eauto).
    apply list_elem_of_lookup_1 in Hin as [i Hi].
    destruct (lookup_lt_is_Some_2 rs i) as [ri Hri];
      [rewrite Hlen; by eapply lookup_lt_Some|].
    destruct (HQ i ri Hri) as (e' & He' & _ & _ & Hpost).
    rewrite Hi in He'. injection He' as <-.
    pose proof (Hkeys k e Hk) as Hurl. cbn in Hurl.
    destruct (loads env s e) as [d|] eqn:Hloads.
    + split.
      * destruct Hinv as (_ & Hs & _).
        destruct (Hs k) as [->|[_ (e2 & Hin2 & Hurl2 & Hl2)]]; [done|].
        apply Hlib in Hin2 as [k2 Hk2].
        pose proof (Hkeys k2 e2 Hk2) as Hurl2'. cbn in Hurl2'.
        assert (k2 = k) as -> by congruence.
        rewrite Hk in Hk2. injection Hk2 as <-. congruence.
      * rewrite <- Hurl. exact Hpost.
    + by rewrite <- Hurl.
Qed.

Lemma init_self_prunes_witness :
  migrate_ok demo_env = true
  ∧ storage_init_ok demo_env = true
  ∧ storage demo_indexed ≠ ∅
  ∧ map_Forall (fun k e => url e = k) (storage demo_indexed)
  ∧ (run (init demo_env [] [1; 0; 0; 1]%nat) demo_indexed).1 = Ok tt
  ∧ storage (run (init demo_env [] [1; 0; 0; 1]%nat) demo_indexed).2
      !! "dat://gone.example" = None
  ∧ storage (run (init demo_env [] [1; 0; 0; 1]%nat) demo_indexed).2
      !! "dat://aa" = Some demo_entry.
Proof.
  assert (storage demo_indexed ≠ ∅) as Hne.
  { intros H. apply (f_equal (lookup "dat://aa")) in H. vm_compute in H. discriminate H. }
  assert (map_Forall (fun k e => url e = k) (storage demo_indexed)) as Hkeys.
  { unfold demo_indexed, new_Library. cbn [storage].
    apply map_Forall_insert_2; [reflexivity|].
    apply map_Forall_insert_2; [reflexivity|]. apply map_Forall_empty. }
  destruct (init_self_prunes demo_env [] [1; 0; 0; 1]%nat demo_indexed
              eq_refl eq_refl Hne Hkeys) as [Hok Hrecs].
  split; [reflexivity|]. split; [reflexivity|]. split; [exact Hne|].
  split; [exact Hkeys|]. split; [exact Hok|]. split.
  - assert (storage demo_indexed !! "dat://gone.example" = Some gone_entry) as Hk
      by (vm_compute; reflexivity).
    assert (loads demo_env demo_indexed gone_entry = None) as Hl
      by (vm_compute; reflexivity).
    specialize (Hrecs _ _ Hk). rewrite Hl in Hrecs. exact Hrecs.
  - assert (storage demo_indexed !! "dat://aa" = Some demo_entry) as Hk
      by (vm_compute; reflexivity).
    assert (loads demo_env demo_indexed demo_entry
            = Some {| dat_address := "aa"; drive := demo_drive; dat_ready := true |}) as Hl
      by (vm_compute; reflexivity).
    specialize (Hrecs _ _ Hk). rewrite Hl in Hrecs. exact (proj1 Hrecs).
Defined.

(** ** The ownership scan *)

Section Scan.
Context (env : Env) (s0 : State) (addresses : list string).

Local Abbreviation sstep := (scan_step env s0 addresses).
Local Abbreviation ostep := (own_step env s0 addresses).
Local Abbreviation orely := (own_rely env s0 addresses).

Ltac scan_frame :=
  repeat match goal with |- _ ∧ _ => split end;
  try done;
  try (exists []; split; [by rewrite app_nil_r|by apply Forall_nil]);
  try (exists []; by rewrite app_nil_r);
  try (by eexists).

Lemma scan_step_refl s : sstep s s.
Proof. unfold scan_step. scan_frame. Qed.

Lemma scan_step_trans s1 s2 s3 : sstep s1 s2 → sstep s2 s3 → sstep s1 s3.
Proof.
  intros (Hs1 & Hu1 & Hd1 & Hn1 & (p1 & Hp1 & Hf1) & (c1 & Hc1))
         (Hs2 & Hu2 & Hd2 & Hn2 & (p2 & Hp2 & Hf2) & (c2 & Hc2)).
  split_and!; try congruence.
  - exists (p1 ++ p2)%list. rewrite Hp2, Hp1, app_assoc. split; [done|].
    by apply Forall_app.
  - exists (c1 ++ c2)%list. by rewrite Hc2, Hc1, app_assoc.
Qed.

Lemma own_rely_refl a s : orely a s s.
Proof. split; [apply scan_step_refl|done]. Qed.

Lemma own_rely_trans a s1 s2 s3 : orely a s1 s2 → orely a s2 s3 → orely a s1 s3.
Proof.
  intros (H1 & Hd1 & Ha1) (H2 & Hd2 & Ha2).
  split_and!; try congruence. by eapply scan_step_trans.
Qed.

Lemma own_step_rely a a' s s' : a ≠ a' → ostep a' s s' → orely a s s'.
Proof.
  intros Hne (H & Hd & Ha). split_and!; try done.
  - by apply Hd.
  - apply Ha. congruence.
Qed.

Lemma scanned_stable a r s1 s2 :
  scanned env s0 a r s1 → orely a s1 s2 → scanned env s0 a r s2.
Proof.
  intros [Hr HQ] ((_ & _ & _ & _ & (p & Hp & _) & (c & Hc)) & Hd & Ha).
  split; [done|].
  destruct (opens env s0 a) as [d|]; [|congruence].
  destruct (dat_ready d); [|congruence].
  destruct (writable (drive d)).
  - destruct HQ as (archive & H1 & H2 & H3). exists archive.
    split_and!; try congruence. rewrite Hp. apply elem_of_app. by left.
  - destruct HQ as (H1 & H2 & H3). split_and!; try congruence.
    rewrite Hc. apply elem_of_app. by left.
Qed.

(** Steps that write at most the engine's log and the identity counter. *)
Lemma own_step_frame a s s' :
  node_dats s' = node_dats s → storage s' = storage s → archives s' = archives s →
  archiveUsage s' = archiveUsage s → pending s' = pending s →
  libraryDir s' = libraryDir s → now s' = now s →
  (∃ calls, engine_calls s' = (engine_calls s ++ calls)%list) →
  ostep a s s'.
Proof.
  intros Hd Hs Ha Hu Hp Hl Hn Hc. unfold own_step, scan_step.
  scan_frame.
  - intros a' _. by rewrite Hd.
  - intros k _. by rewrite Ha.
Qed.

Lemma engine_getDat_table a s :
  (∀ a', a' ≠ a → node_dats (engine_getDat env a s).2 !! a' = node_dats s !! a')
  ∧ match opens env s a with
    | Some d => node_dats (engine_getDat env a s).2 !! a = Some d
    | None => node_dats (engine_getDat env a s).2 !! a = node_dats s !! a
    end.
Proof.
  unfold engine_getDat, opens. destruct (node_dats s !! a) as [d|] eqn:Hd; [done|].
  destruct (load_drive env a) as [[dr rdy]|]; cbn [fst snd fmap option_fmap option_map].
  - state_simpl. split; [|apply lookup_insert_eq].
    intros a' Hne. by rewrite lookup_insert_ne.
  - done.
Qed.

Lemma own_step_getDat a s : ostep a s (engine_getDat env a s).2.
Proof.
  destruct (engine_getDat_opens env a s) as (_ & _ & Hs & Ha & Hu & Hp & Hl & Hn & Hc & _).
  destruct (engine_getDat_table a s) as [Hd _].
  unfold own_step, scan_step. scan_frame.
  intros k _. by rewrite Ha.
Qed.

Lemma checkOwned_rg a s :
  a ∈ addresses →
  (∀ d, opens env s0 a = Some d → dat_address d = a) →
  orely a s0 s →
  rg (orely a) (ostep a) (checkOwned env a) s (scanned env s0 a).
Proof.
  intros Hin Hwf Hs. unfold checkOwned, getDat.
  apply rg_try_catch, rg_bind, rg_act.
  { apply own_step_frame; try done. by eexists. }
  apply rg_await. intros s2 Hs2.
  assert (orely a s0 s2) as H02.
  { eapply own_rely_trans; [exact Hs|]. eapply own_rely_trans; [|exact Hs2].
    unfold own_rely, scan_step. scan_frame. }
  split; [apply own_step_getDat|].
  assert (opens env s2 a = opens env s0 a) as Hopen.
  { unfold opens. by destruct H02 as (_ & -> & _). }
  destruct (engine_getDat_opens env a s2) as (-> & _ & _ & Ha3 & _ & Hp3 & _ & _ & Hc3 & _).
  destruct (engine_getDat_table a s2) as [_ Hd3].
  rewrite Hopen in *.
  revert Ha3 Hp3 Hc3 Hd3. generalize (engine_getDat env a s2).2 as s3.
  intros s3 Ha3 Hp3 Hc3 Hd3.
  destruct (opens env s0 a) as [d|] eqn:Ho0; cbn [rg].
  2: { split; [done|]. rewrite Ho0, Ha3. by destruct H02 as (_ & _ & ->). }
  specialize (Hwf d eq_refl).
  apply rg_bind, rg_await. intros s4 Hs4. cbn [fst snd].
  split; [apply own_step_frame; try done; exists []; by rewrite app_nil_r|].
  assert (archives s4 !! KAddr a = archives s0 !! KAddr a) as Ha4.
  { destruct Hs4 as (_ & _ & ->). rewrite Ha3. by destruct H02 as (_ & _ & ->). }
  assert (node_dats s4 !! a = Some d) as Hd4.
  { destruct Hs4 as (_ & -> & _). done. }
  destruct (dat_ready d) eqn:Hready; cbn [rg].
  2: { split; [done|]. by rewrite Ho0, Hready. }
  destruct (writable (drive d)) eqn:Hw.
  - apply rg_bind. unfold createDatArchive, act. cbn [fst snd].
    apply rg_act; [apply own_step_frame; try done; exists []; by rewrite app_nil_r|].
    cbn [rg]. apply rg_bind. unfold updateLibraryEntry. apply rg_modify.
    + unfold own_step, scan_step. scan_frame.
      eexists [_]. split; [done|]. apply Forall_singleton.
      exists a, d. split_and!; done.
    + apply rg_modify.
      * unfold own_step, scan_step. scan_frame.
        intros k Hk. state_simpl. by rewrite lookup_insert_ne.
      * split; [done|]. rewrite Ho0, Hready, Hw.
        eexists. state_simpl. rewrite lookup_insert_eq. split; [done|].
        split; [done|]. apply elem_of_app. right. apply list_elem_of_here.
  - unfold dat_close. apply rg_modify.
    + unfold engine_close. rewrite Hwf.
      unfold own_step, scan_step. scan_frame.
      intros a' Hne. state_simpl. by rewrite lookup_delete_ne.
    + split; [done|]. rewrite Ho0, Hready, Hw.
      unfold engine_close. rewrite Hwf. state_simpl.
      split; [done|]. split; [apply lookup_delete_eq|].
      apply elem_of_app. right. apply list_elem_of_here.
Qed.
End Scan.

Lemma run_pool_run_nil {A : Type} (sched : list nat) (s : State) :
  run (pool_run sched ([] : list (Async A))) s = (Ok [], s).
Proof. induction sched as [|i sched IH]; [done|]. cbn [pool_run]. by rewrite run_mbind. Qed.

Lemma run_Promise_all_nil {A : Type} (sched : list nat) (s : State) :
  run (Promise_all sched ([] : list (Async A))) s = (Ok [], s).
Proof. unfold Promise_all. by rewrite run_mbind, run_pool_run_nil. Qed.

Lemma land_entries_storage (l : list DatArchive) (s : State) (archive : DatArchive)
    (info : Info) :
  archive ∈ l → getInfo archive = Some info →
  ∃ archive' info',
    archive' ∈ l ∧ archive_url archive' = archive_url archive
    ∧ getInfo archive' = Some info'
    ∧ storage (fold_left (fun s' a => land_entry a s') l s) !! archive_url archive
      = Some (library_entry (libraryDir s) info').
Proof.
  revert s. induction l as [|a l IH] using rev_ind; intros s Hin Hi.
  { by apply not_elem_of_nil in Hin. }
  rewrite fold_left_app. cbn [fold_left].
  set (s1 := fold_left (fun s' a0 => land_entry a0 s') l s).
  assert (libraryDir s1 = libraryDir s) as Hdir.
  { unfold s1. clear. revert s. induction l as [|a l IH]; intros s; [done|].
    cbn [fold_left]. by rewrite IH, land_entry_libraryDir. }
  destruct (decide (archive_url a = archive_url archive ∧ is_Some (getInfo a)))
    as [[Hu [info' Hi']]|Hno].
  - exists a, info'. split; [apply elem_of_app; right; apply list_elem_of_here|].
    split; [done|]. split; [done|].
    unfold land_entry. rewrite Hi'. state_simpl. by rewrite Hu, lookup_insert_eq, Hdir.
  - assert (archive ∈ l) as Hin'.
    { apply elem_of_app in Hin as [Hin|Hin]; [done|].
      apply list_elem_of_singleton in Hin as ->. destruct Hno. eauto. }
    destruct (IH s Hin' Hi) as (archive' & info' & H1 & H2 & H3 & H4).
    exists archive', info'. split; [apply elem_of_app; by left|].
    split; [done|]. split; [done|].
    unfold land_entry. destruct (getInfo a) as [ia|] eqn:Hia; [|done].
    state_simpl. rewrite lookup_insert_ne; [done|].
    intros Hu. apply Hno. eauto.
Qed.

Lemma settle_storage (s : State) (archive : DatArchive) (info : Info) :
  archive ∈ pending s → getInfo archive = Some info →
  ∃ archive' info',
    archive' ∈ pending s ∧ archive_url archive' = archive_url archive
    ∧ getInfo archive' = Some info'
    ∧ storage (settle s) !! archive_url archive
      = Some (library_entry (libraryDir s) info').
Proof.
  intros Hin Hi. unfold settle.
  apply (land_entries_storage (pending s) (set_pending (fun _ => []) s) archive info Hin Hi).
Qed.

Lemma opens_address env s a d :
  map_Forall (fun a d => dat_address d = a) (node_dats s) →
  opens env s a = Some d → dat_address d = a.
Proof.
  intros Hwf. unfold opens. destruct (node_dats s !! a) as [d'|] eqn:Hd.
  - intros [= <-]. by apply (Hwf a d').
  - destruct (load_drive env a) as [[dr rdy]|]; [|done]. by intros [= <-].
Qed.

(** C6, as amended — the ownership scan that [init()] runs over an empty
    index, the candidates being processed concurrently in any order of
    interleaving.  [init()] completes without waiting for the metadata
    captures it starts: a writable candidate is registered in the handle
    cache, under its address, and has a capture started, and the captures
    started are for handles of writable candidates only; the index itself
    is not written by the scan, so that, as long as no capture has
    landed, it is still empty when [init()] returns and [listLibrary()]
    returns no record.  The record of a writable candidate gets into the
    index, under the handle's url, when a capture for that url lands with
    [getInfo()] succeeding; when [getInfo()] rejects for every capture of
    that url, the candidate stays in the cache and is never recorded.  A
    candidate that opens as non-writable has been closed, is not held by
    the engine, is not in the cache and has no metadata capture.  A
    candidate that fails to open changes nothing of that, and nothing for
    the other candidates. *)
Theorem init_ownership_scan (env : Env) (sched_owned sched_load : list nat)
    (s : State) (addresses : list string) :
  libraryDir_exists env || mkdirSync_ok env = true →
  migrate_ok env = true →
  storage_init_ok env = true →
  storage s = ∅ →
  readdir_datDir env = Some addresses →
  NoDup addresses →
  map_Forall (fun a d => dat_address d = a) (node_dats s) →
  let r := run (init env sched_owned sched_load) s in
  r.1 = Ok tt
  ∧ storage r.2 = ∅
  ∧ (run listLibrary r.2).1 = Ok []
  ∧ ∃ new,
      pending r.2 = (pending s ++ new)%list
      ∧ Forall (owned_candidate env s addresses) new
      ∧ ∀ a, a ∈ addresses →
          match opens env s a with
          | Some d =>
              if dat_ready d then
                if writable (drive d) then
                  ∃ archive,
                    archives r.2 !! KAddr a = Some archive
                    ∧ archive_drive archive = drive d
                    ∧ archive ∈ pending r.2
                    ∧ (is_Some (getInfo archive) →
                       ∃ archive' info',
                         archive' ∈ pending r.2
                         ∧ archive_url archive' = archive_url archive
                         ∧ getInfo archive' = Some info'
                         ∧ storage (settle r.2) !! archive_url archive
                           = Some (library_entry (libraryDir s) info'))
                    ∧ ((∀ archive', archive' ∈ pending r.2 →
                          archive_url archive' = archive_url archive →
                          getInfo archive' = None) →
                       storage (settle r.2) !! archive_url archive = None)
                else
                  archives r.2 !! KAddr a = archives s !! KAddr a
                  ∧ node_dats r.2 !! a = None
                  ∧ CallClose a ∈ engine_calls r.2
                  ∧ ∀ archive, archive ∈ new → archive_drive archive ≠ drive d
              else archives r.2 !! KAddr a = archives s !! KAddr a
          | None => archives r.2 !! KAddr a = archives s !! KAddr a
          end.
Proof.
  intros Hmk Hm Hst Hempty Hdir Hnodup Hwf r. subst r.
  rewrite run_init, existsSync_libraryDir_empty, Hmk, Hm, Hst, Hdir, Hempty by done.
  cbv zeta.
  rewrite map_to_list_empty. cbn [fmap list_fmap length].
  destruct (decide (0%nat = 0%nat)) as [_|]; [|done].
  set (Rely := fun (i : nat) (s1 s2 : State) =>
                 ∀ a, addresses !! i = Some a → own_rely env s addresses a s1 s2).
  set (Guar := fun (j : nat) (s1 s2 : State) =>
                 ∃ a, addresses !! j = Some a ∧ own_step env s addresses a s1 s2).
  destruct (Promise_all_rg Rely Guar
              (fun i r s' => ∃ a, addresses !! i = Some a ∧ scanned env s a r s')
              (scan_step env s addresses))
    with (sched := sched_owned) (ts := checkOwned env <$> addresses) (s := s)
    as (rs & Hr & Hlen & Hinv & HQ).
  - intros i s1 a _. apply own_rely_refl.
  - intros i s1 s2 s3 H1 H2 a Ha. eapply own_rely_trans; eauto.
  - intros i j s1 s2 Hne (aj & Haj & Hstep) ai Hai.
    eapply own_step_rely; [|exact Hstep].
    intros ->. apply Hne. by eapply NoDup_lookup.
  - apply scan_step_refl.
  - apply scan_step_trans.
  - intros j s1 s2 (a & _ & Hstep & _). exact Hstep.
  - intros i r s1 s2 (a & Ha & Hsc) Hrely. exists a. split; [done|].
    eapply scanned_stable; [exact Hsc|]. by apply Hrely.
  - intros i t Hi s' Hs'. cbn [Nat.add] in *.
    rewrite list_lookup_fmap in Hi.
    destruct (addresses !! i) as [a|] eqn:Ha; [|done]. injection Hi as <-.
    eapply rg_mono; [|eapply rg_relations; [| |apply (checkOwned_rg env s addresses a s')]].
    + intros r s'' Hsc. cbn beta. eauto.
    + intros s1 s2 H. by apply H.
    + intros s1 s2 H. exists a. by split.
    + by eapply list_elem_of_lookup_2.
    + intros d. by apply opens_address.
    + by apply Hs'.
  - rewrite length_fmap in Hlen.
    assert (∃ l, all_results rs = Ok l) as [l Hl].
    { apply all_results_Ok. intros i r Hi. destruct (HQ i r Hi) as (a & _ & -> & _). eauto. }
    rewrite Hr, Hl, run_Promise_all_nil. cbn [fst snd].
    set (s1 := (run (Promise_all sched_owned (checkOwned env <$> addresses)) s).2) in *.
    destruct Hinv as (Hs1 & _ & Hd1 & _ & (new & Hp1 & Hnew) & _).
    assert (storage s1 = ∅) as Hs1' by (by rewrite Hs1).
    split; [done|]. split; [done|].
    split; [cbn [listLibrary gets run fst]; by rewrite Hs1', map_to_list_empty|].
    exists new. split; [done|]. split; [done|].
    intros a Hin. apply list_elem_of_lookup_1 in Hin as [i Hi].
    destruct (lookup_lt_is_Some_2 rs i) as [ri Hri];
      [rewrite Hlen; by eapply lookup_lt_Some|].
    destruct (HQ i ri Hri) as (a' & Ha' & _ & Hpost).
    rewrite Hi in Ha'. injection Ha' as <-.
    destruct (opens env s a) as [d|]; [|done].
    destruct (dat_ready d); [|done].
    destruct (writable (drive d)) eqn:Hw.
    + destruct Hpost as (archive & H1 & H2 & H3). exists archive.
      split_and!; try done.
      * intros [info Hinfo]. rewrite <- Hd1. by eapply settle_storage.
      * intros Hnone.
        destruct (storage (settle s1) !! archive_url archive) as [e|] eqn:He; [|done].
        unfold settle in He.
        apply land_entries_lookup in He as [He|(archive' & info & Hin' & Hi' & Hk & _)].
        -- revert He. state_simpl. by rewrite Hs1', lookup_empty.
        -- by rewrite (Hnone archive' Hin' (eq_sym Hk)) in Hi'.
    + destruct Hpost as (H1 & H2 & H3). split_and!; try done.
      intros archive Hain Hdr.
      rewrite Forall_forall in Hnew.
      destruct (Hnew archive Hain) as (a2 & d2 & _ & _ & _ & Hw2 & Hdr2).
      congruence.
Qed.

Lemma init_ownership_scan_witness :
  libraryDir_exists demo_env || mkdirSync_ok demo_env = true
  ∧ migrate_ok demo_env = true
  ∧ storage_init_ok demo_env = true
  ∧ storage demo_start = ∅
  ∧ readdir_datDir demo_env = Some ["aa"; "bb"; "cc"]
  ∧ NoDup ["aa"; "bb"; "cc"]
  ∧ map_Forall (fun a d => dat_address d = a) (node_dats demo_start)
  ∧ (run (init demo_env [2; 0; 1; 1; 0]%nat []) demo_start).1 = Ok tt
  ∧ storage (run (init demo_env [2; 0; 1; 1; 0]%nat []) demo_start).2 = ∅
  ∧ (snd <$> map_to_list
       (storage (settle (run (init demo_env [2; 0; 1; 1; 0]%nat []) demo_start).2)))
    = [demo_entry]
  ∧ (host <$> getOpenArchives (run (init demo_env [2; 0; 1; 1; 0]%nat []) demo_start).2)
    = [KAddr "aa"].
Proof.
  assert (NoDup ["aa"; "bb"; "cc"]) as Hnd.
  { apply (bool_decide_unpack _). vm_compute. exact I. }
  assert (map_Forall (fun a d => dat_address d = a) (node_dats demo_start)) as Hwf
    by apply map_Forall_empty.
  destruct (init_ownership_scan demo_env [2; 0; 1; 1; 0]%nat [] demo_start
              ["aa"; "bb"; "cc"] eq_refl eq_refl eq_refl eq_refl eq_refl Hnd Hwf)
    as (Hok & Hs & _).
  split_and!; try done; vm_compute; reflexivity.
Defined.

(** C6, the claim as stated fails.  Over the empty index and the candidates
    [aa] (writable), [bb] (not writable) and [cc] (does not open),
    [init()] returns with [aa] in the handle cache and, its metadata
    capture not having landed yet, [listLibrary()] without a record: the
    candidate is not in the index when the scan is over.  And the writable
    candidate [ee], whose [getInfo()] rejects, is in the handle cache but
    not in the index even after every detached write has run. *)
Lemma init_ownership_scan_counterexample :
  storage demo_start = ∅
  ∧ readdir_datDir demo_env = Some ["aa"; "bb"; "cc"]
  ∧ (writable ∘ fst <$> load_drive demo_env "aa") = Some true
  ∧ (run (init demo_env [] []) demo_start).1 = Ok tt
  ∧ (host <$> getOpenArchives (run (init demo_env [] []) demo_start).2) = [KAddr "aa"]
  ∧ (run listLibrary (run (init demo_env [] []) demo_start).2).1 = Ok []
  ∧ readdir_datDir silent_env = Some ["ee"]
  ∧ (writable ∘ fst <$> load_drive silent_env "ee") = Some true
  ∧ (run (init silent_env [] []) demo_start).1 = Ok tt
  ∧ (host <$> getOpenArchives (run (init silent_env [] []) demo_start).2) = [KAddr "ee"]
  ∧ (run listLibrary (settle (run (init silent_env [] []) demo_start).2)).1 = Ok [].
Proof. split_and!; vm_compute; reflexivity. Qed.

(** ** Concurrent [getArchive] calls *)

Lemma sum_list_insert (ns : list nat) (i n n' : nat) :
  ns !! i = Some n → (sum_list (<[i:=n']> ns) + n = sum_list ns + n')%nat.
Proof.
  revert i. induction ns as [|x ns IH]; intros [|i] Hn; try done.
  - injection Hn as ->. cbn. lia.
  - change (<[S i:=n']> (x :: ns)) with (x :: <[i:=n']> ns).
    change (sum_list (x :: <[i:=n']> ns)) with (x + sum_list (<[i:=n']> ns))%nat.
    change (sum_list (x :: ns)) with (x + sum_list ns)%nat.
    specialize (IH i Hn). lia.
Qed.

Section Spends.
Context (c : State -> nat).

Lemma spends_mono {A : Type} (n n' : nat) (t : Async A) :
  (n ≤ n')%nat → spends c n t → spends c n' t.
Proof.
  revert n n'. induction t as [a|e|f k IH|k IH]; intros n n' Hn; cbn [spends]; auto.
  - intros H s. destruct (H s) as (m & Hm & Hc & Hk).
    exists m. split; [lia|]. split; [done|]. eapply IH; [|exact Hk]. lia.
  - by apply IH.
Qed.

Lemma spends_bind {A B : Type} (n m : nat) (t : Async A) (g : A -> Async B) :
  spends c n t → (∀ a, spends c m (g a)) → spends c (n + m) (t ≫= g).
Proof.
  intros Ht Hg. revert n Ht.
  induction t as [a|e|f k IH|k IH]; intros n Ht; cbn [mbind Async_bind bind spends] in *.
  - eapply spends_mono; [|apply Hg]. lia.
  - done.
  - intros s. destruct (Ht s) as (j & Hj & Hc & Hk).
    exists j. split; [lia|]. split; [done|].
    replace (n + m - j)%nat with ((n - j) + m)%nat by lia. by apply IH.
  - by apply IH.
Qed.

Lemma spends_try_catch {A : Type} (n m : nat) (t : Async A) (h : Error -> Async A) :
  spends c n t → (∀ e, spends c m (h e)) → spends c (n + m) (try_catch t h).
Proof.
  intros Ht Hh. revert n Ht.
  induction t as [a|e|f k IH|k IH]; intros n Ht; cbn [try_catch spends] in *.
  - done.
  - eapply spends_mono; [|apply Hh]. lia.
  - intros s. destruct (Ht s) as (j & Hj & Hc & Hk).
    exists j. split; [lia|]. split; [done|].
    replace (n + m - j)%nat with ((n - j) + m)%nat by lia. by apply IH.
  - by apply IH.
Qed.

Lemma spends_free {A : Type} (t : Async A) :
  all_acts (fun s s' => c s' = c s) t → spends c 0 t.
Proof.
  induction t as [a|e|f k IH|k IH]; cbn [all_acts spends]; auto.
  intros H s. destruct (H s) as [Hf Hk]. exists 0%nat.
  split; [lia|]. split; [lia|]. by apply IH.
Qed.

Lemma spends_run {A : Type} (n : nat) (t : Async A) (s : State) :
  spends c n t → (c s ≤ c (run t s).2 ≤ c s + n)%nat.
Proof.
  revert n s. induction t as [a|e|f k IH|k IH]; intros n s; cbn [spends run snd].
  - lia.
  - lia.
  - intros H. destruct (H s) as (m & Hm & Hc & Hk).
    specialize (IH s (n - m)%nat (f s) Hk). lia.
  - apply IH.
Qed.

Lemma spends_resume {A : Type} (n : nat) (t : Async A) (s : State) :
  spends c n t →
  ∃ n', spends c n' (resume t s).1
        ∧ (c s ≤ c (resume t s).2)%nat
        ∧ (c (resume t s).2 + n' ≤ c s + n)%nat.
Proof.
  revert n s. induction t as [a|e|f k IH|k IH]; intros n s; cbn [spends resume fst snd].
  - intros _. exists 0%nat. split; [done|]. lia.
  - intros _. exists 0%nat. split; [done|]. lia.
  - intros H. destruct (H s) as (m & Hm & Hc & Hk).
    destruct (IH s (n - m)%nat (f s) Hk) as (n' & H1 & H2 & H3).
    exists n'. split; [done|]. lia.
  - intros H. exists n. split; [done|]. lia.
Qed.

Lemma spends_pool_run {A : Type} (sched : list nat) (ns : list nat)
    (ts : list (Async A)) (s : State) :
  Forall2 (spends c) ns ts →
  ∃ ts' ns', (run (pool_run sched ts) s).1 = Ok ts'
             ∧ Forall2 (spends c) ns' ts'
             ∧ (c s ≤ c (run (pool_run sched ts) s).2)%nat
             ∧ (c (run (pool_run sched ts) s).2 + sum_list ns' ≤ c s + sum_list ns)%nat.
Proof.
  revert ns ts s. induction sched as [|i sched IH]; intros ns ts s Hts.
  - exists ts, ns. cbn. split_and!; try done; lia.
  - cbn [pool_run]. rewrite run_mbind. unfold pool_step.
    destruct (ts !! i) as [t|] eqn:Hi; cbn [run fst snd].
    + destruct (Forall2_lookup_r _ _ _ _ _ Hts Hi) as (n & Hn & Hsp).
      destruct (spends_resume n t s Hsp) as (n' & H1 & H2 & H3).
      destruct (IH (<[i:=n']> ns) (<[i:=(resume t s).1]> ts) (resume t s).2)
        as (ts' & ns' & Hr & Hf & Hle & Hsum).
      { by apply Forall2_insert. }
      exists ts', ns'. split_and!; try done; [lia|].
      pose proof (sum_list_insert ns i n n' Hn). lia.
    + apply IH. done.
Qed.

Lemma spends_settle_all {A : Type} (ns : list nat) (ts : list (Async A)) (s : State) :
  Forall2 (spends c) ns ts →
  (c s ≤ c (run (settle_all ts) s).2 ≤ c s + sum_list ns)%nat.
Proof.
  intros Hts. revert s. induction Hts as [|n t ns ts Ht Hts IH]; intros s.
  - cbn. lia.
  - cbn [settle_all run]. rewrite run_mbind.
    change (sum_list (n :: ns)) with (n + sum_list ns)%nat.
    pose proof (spends_run n t s Ht) as H1.
    specialize (IH (run t s).2).
    destruct (run (settle_all ts) (run t s).2) as [[rs|e] s']; cbn [fst snd run] in *; lia.
Qed.

Lemma spends_Promise_all {A : Type} (sched : list nat) (ns : list nat)
    (ts : list (Async A)) (s : State) :
  Forall2 (spends c) ns ts →
  (c s ≤ c (run (Promise_all sched ts) s).2 ≤ c s + sum_list ns)%nat.
Proof.
  intros Hts. unfold Promise_all. rewrite run_mbind.
  destruct (spends_pool_run sched ns ts s Hts) as (ts' & ns' & Hr & Hf & Hle & Hsum).
  rewrite Hr, run_mbind.
  pose proof (spends_settle_all ns' ts' (run (pool_run sched ts) s).2 Hf) as H.
  destruct (run (settle_all ts') (run (pool_run sched ts) s).2) as [[rs|e] s'];
    cbn [fst snd run] in *; [|lia].
  destruct (all_results rs); cbn [of_result run snd]; lia.
Qed.
End Spends.

Lemma open_calls_log h c s :
  open_calls h (log_call c s)
  = (open_calls h s + (if is_open h c then 1 else 0))%nat.
Proof.
  unfold open_calls. state_simpl. rewrite List.filter_app, length_app. cbn [List.filter].
  by destruct (is_open h c).
Qed.

Lemma open_calls_engine_getDat h env a s :
  open_calls h (engine_getDat env a s).2 = open_calls h s.
Proof.
  unfold open_calls.
  by destruct (engine_getDat_opens env a s) as (_ & _ & _ & _ & _ & _ & _ & _ & -> & _).
Qed.

Lemma spends_await {A : Type} (c : State -> nat) (g : State -> Result A * State) :
  (∀ s, c (g s).2 = c s) → spends c 0 (await g).
Proof.
  intros Hg. apply spends_free, all_acts_await. done.
Qed.

(** One [getArchive] call makes at most one [node.getDat] call. *)
Lemma spends_getArchive h env u : spends (open_calls h) 1 (getArchive env u).
Proof.
  unfold getArchive.
  apply (spends_bind _ 0 1); [by apply spends_await|]. intros a.
  apply (spends_bind _ 0 1); [by apply spends_free, all_acts_gets|]. intros cached.
  apply (spends_bind _ 1 0).
  2: { intros _. apply (spends_bind _ 0 0); [|intros _; by apply spends_free, all_acts_gets].
       by apply spends_free, all_acts_modify. }
  destruct cached; [done|].
  apply (spends_bind _ 1 0); [|intros archive; by apply spends_free, all_acts_modify].
  unfold awaited. apply (spends_bind _ 1 0); [|done].
  unfold createTempArchive.
  apply (spends_bind _ 0 1).
  { unfold awaited, ensureCacheDir. apply (spends_bind _ 0 0); [|done].
    apply (spends_bind _ 0 0); [by apply spends_await|].
    intros [|]; [done|by apply spends_await]. }
  intros _. apply (spends_bind _ 1 0).
  - unfold getDat. cbn [spends]. intros s.
    exists (if is_open h (CallGetDat a) then 1 else 0)%nat.
    split; [destruct (is_open h (CallGetDat a)); lia|].
    split; [apply open_calls_log|].
    eapply spends_mono; [|apply spends_await; intros s'; apply open_calls_engine_getDat].
    lia.
  - intros d. apply (spends_bind _ 0 0); [by apply spends_await|].
    intros _. unfold createDatArchive, act. cbn [spends fst snd]. intros s. exists 0%nat.
    split; [lia|]. split; [unfold open_calls; state_simpl; lia|done].
Qed.

Section Opened.
Context (env : Env) (u h : string) (c0 : nat).
Context (Hres : resolveName env u = Some h).

Local Abbreviation G := (opened_step h c0).

Lemma opened_step_refl s : G s s.
Proof using Type. split; [lia|done]. Qed.

Lemma opened_step_trans s1 s2 s3 : G s1 s2 → G s2 s3 → G s1 s3.
Proof using Type. intros [H1 H1'] [H2 H2']. split; [lia|auto]. Qed.

(** A step that changes neither the log nor the cache. *)
Lemma opened_step_frame s s' :
  engine_calls s' = engine_calls s → archives s' = archives s → G s s'.
Proof using Type.
  intros Hc Ha. unfold opened_step, open_calls. rewrite Hc, Ha. split; [lia|done].
Qed.

Local Abbreviation opened_inv := (opened_inv h c0).

Lemma opened_inv_step s s' : opened_inv s → G s s' → opened_inv s'.
Proof using Type. intros [H1 H2] [H3 H4]. split; [lia|auto]. Qed.

Lemma opened_done_step s s' : (c0 < open_calls h s)%nat → G s s' → (c0 < open_calls h s')%nat.
Proof using Type. intros H1 [H3 H4]. lia. Qed.

Lemma getArchive_rg s :
  opened_inv s →
  rg G G (getArchive env u) s (fun _ s' => (c0 < open_calls h s')%nat).
Proof using Hres.
  intros Hinv. unfold getArchive.
  apply rg_bind, rg_await. intros s1 Hs1. rewrite Hres. cbn [fst snd].
  split; [apply opened_step_refl|].
  pose proof (opened_inv_step _ _ Hinv Hs1) as Hinv1.
  apply rg_bind. unfold gets. apply rg_act; [apply opened_step_refl|]. cbn [rg].
  destruct (bool_decide (is_Some (archives s1 !! KAddr h))) eqn:Hc.
  - apply bool_decide_eq_true_1 in Hc.
    assert (c0 < open_calls h s1)%nat as Hlt by (by apply Hinv1).
    apply rg_bind. cbn [rg]. apply rg_bind, rg_modify; [by apply opened_step_frame|].
    apply rg_act; [apply opened_step_refl|]. cbn [rg].
    unfold open_calls in *. by state_simpl.
  - apply rg_bind. unfold awaited. apply rg_bind, rg_bind.
    unfold createTempArchive. apply rg_bind. unfold awaited, ensureCacheDir.
    apply rg_bind, rg_bind, rg_await. intros s2 Hs2. cbn [fst snd].
    split; [apply opened_step_refl|].
    pose proof (opened_inv_step _ _ Hinv1 Hs2) as Hinv2.
    assert (∀ s3, opened_inv s3 →
              rg G G
                (getDat env h ≫= fun dat =>
                   await_ready dat ≫= fun _ => createDatArchive (drive dat)) s3
                (fun r s' =>
                   match r with
                   | Ok a =>
                       rg G G (Await (Ret a)) s'
                         (fun r s'0 =>
                            match r with
                            | Ok a0 =>
                                rg G G (modify (set_archives <[KAddr h:=a0]>)) s'0
                                  (fun r0 s'1 =>
                                     match r0 with
                                     | Ok a1 =>
                                         rg G G
                                           ((fun _ : () =>
                                               modify (fun s4 => set_archiveUsage <[KAddr h:=now s4]> s4)
                                               ≫= fun _ => gets (fun s4 => archives s4 !! KAddr h)) a1)
                                           s'1 (fun _ s'2 => (c0 < open_calls h s'2)%nat)
                                     | Err _ => (c0 < open_calls h s'1)%nat
                                     end)
                            | Err _ => (c0 < open_calls h s'0)%nat
                            end)
                   | Err _ => (c0 < open_calls h s')%nat
                   end)) as Hrest.
    { intros s3 Hinv3. apply rg_bind. unfold getDat.
      assert (c0 < open_calls h (log_call (CallGetDat h) s3))%nat as Hlt.
      { rewrite open_calls_log. cbn [is_open]. rewrite bool_decide_eq_true_2 by done.
        destruct Hinv3. lia. }
      apply rg_act.
      { split; [rewrite open_calls_log; lia|]. intros _ _. exact Hlt. }
      apply rg_await. intros s4 Hs4.
      pose proof (opened_done_step _ _ Hlt Hs4) as Hlt4.
      assert (G s4 (engine_getDat env h s4).2) as Hstep.
      { destruct (engine_getDat_opens env h s4) as (_ & _ & _ & Ha & _ & _ & _ & _ & Hcalls & _).
        by apply opened_step_frame. }
      split; [exact Hstep|].
      pose proof (opened_done_step _ _ Hlt4 Hstep) as Hlt5.
      destruct (engine_getDat env h s4).1 as [d|e]; [|done].
      apply rg_bind, rg_await. intros s6 Hs6. cbn [fst snd].
      split; [apply opened_step_refl|].
      pose proof (opened_done_step _ _ Hlt5 Hs6) as Hlt6.
      destruct (dat_ready d); [|done].
      unfold createDatArchive, act. cbn [fst snd].
      apply rg_act; [by apply opened_step_frame|].
      cbn [rg]. intros s7 Hs7.
      assert (c0 < open_calls h s7)%nat as Hlt7.
      { eapply opened_done_step; [|exact Hs7]. unfold open_calls in *. by state_simpl. }
      apply rg_modify.
      { split; [unfold open_calls; state_simpl; lia|]. intros _ _.
        unfold open_calls in *. by state_simpl. }
      apply rg_bind, rg_modify; [by apply opened_step_frame|].
      apply rg_act; [apply opened_step_refl|]. cbn [rg].
      unfold open_calls in *. by state_simpl. }
    destruct (datDir_exists env); cbn [rg].
    + intros s3 Hs3. apply Hrest. by eapply opened_inv_step.
    + apply rg_await. intros s3 Hs3. cbn [fst snd].
      split; [apply opened_step_refl|]. cbn [rg]. intros s4 Hs4.
      apply Hrest. eapply opened_inv_step; [|exact Hs4].
      by eapply opened_inv_step.
Qed.
End Opened.

Lemma getArchive_cached_opens env u h s :
  resolveName env u = Some h → is_Some (archives s !! KAddr h) →
  open_calls h (run (getArchive env u) s).2 = open_calls h s
  ∧ is_Some (archives (run (getArchive env u) s).2 !! KAddr h).
Proof.
  intros Hres [a Ha]. rewrite run_getArchive, Hres, Ha. cbn [snd].
  unfold open_calls. state_simpl. rewrite Ha. eauto.
Qed.

Lemma getArchive_first_opens env u h s d :
  resolveName env u = Some h → archives s !! KAddr h = None →
  opens env s h = Some d → dat_ready d = true →
  open_calls h (run (getArchive env u) s).2 = (open_calls h s + 1)%nat
  ∧ is_Some (archives (run (getArchive env u) s).2 !! KAddr h).
Proof.
  intros Hres Ha Ho Hr. rewrite run_getArchive, Hres, Ha.
  unfold createTempArchive_effect.
  destruct (engine_getDat_opens env h (log_call (CallGetDat h) s))
    as (H1 & _ & _ & _ & _ & _ & _ & _ & Hc & _).
  assert (opens env (log_call (CallGetDat h) s) h = Some d) as Ho' by exact Ho.
  rewrite Ho' in H1.
  destruct (engine_getDat env h (log_call (CallGetDat h) s)) as [r s2].
  cbn [fst snd] in *. subst r. rewrite Hr. cbn [snd]. state_simpl.
  rewrite lookup_insert_eq. split; [|eauto].
  unfold open_calls. state_simpl. rewrite Hc. state_simpl.
  rewrite List.filter_app, length_app. cbn [List.filter is_open].
  by rewrite bool_decide_eq_true_2.
Qed.

Lemma settle_all_cached_opens env u h n s :
  resolveName env u = Some h → is_Some (archives s !! KAddr h) →
  open_calls h (run (settle_all (replicate n (getArchive env u))) s).2 = open_calls h s.
Proof.
  intros Hres. revert s. induction n as [|n IH]; intros s Ha; [done|].
  cbn [replicate settle_all run]. rewrite run_mbind.
  destruct (getArchive_cached_opens env u h s Hres Ha) as [Hc Ha'].
  specialize (IH _ Ha').
  destruct (run (settle_all (replicate n (getArchive env u))) (run (getArchive env u) s).2)
    as [[rs|e] s']; cbn [fst snd run] in *; congruence.
Qed.

Lemma run_Promise_all_unscheduled {A : Type} (ts : list (Async A)) (s : State) :
  (run (Promise_all [] ts) s).2 = (run (settle_all ts) s).2.
Proof.
  unfold Promise_all. cbn [pool_run]. rewrite run_mbind. cbn [run fst snd].
  rewrite run_mbind. destruct (run (settle_all ts) s) as [[rs|e] s']; cbn [fst snd run]; [|done].
  by destruct (all_results rs).
Qed.

(** C9, as amended — [N] concurrent [getArchive(u)] calls for an address
    [h] that is not in the cache make at least one and at most [N] engine
    opens for [h], whatever the interleaving: the calls are not
    deduplicated.  When the calls do not overlap (each one settles before
    the next starts) and the engine can open [h], they make exactly
    one. *)
Theorem getArchive_concurrent_opens (env : Env) (u h : string) (s : State)
    (N : nat) (sched : list nat) :
  resolveName env u = Some h →
  archives s !! KAddr h = None →
  (0 < N)%nat →
  let tasks := replicate N (getArchive env u) in
  (open_calls h s + 1 ≤ open_calls h (run (Promise_all sched tasks) s).2
   ≤ open_calls h s + N)%nat
  ∧ ((∃ d, opens env s h = Some d ∧ dat_ready d = true) →
     open_calls h (run (Promise_all [] tasks) s).2 = (open_calls h s + 1)%nat).
Proof.
  intros Hres Ha HN tasks. split; [split|].
  - set (c0 := open_calls h s). set (G := opened_step h c0).
    destruct (Promise_all_rg (fun _ => G) (fun _ => G)
                (fun (_ : nat) (_ : Result (option DatArchive)) s' =>
                   (c0 < open_calls h s')%nat) G)
      with (sched := sched) (ts := tasks) (s := s)
      as (rs & _ & Hlen & _ & HQ).
    + intros _ s1. apply opened_step_refl.
    + intros _ s1 s2 s3. apply opened_step_trans.
    + done.
    + intros s1. apply opened_step_refl.
    + intros s1 s2 s3. apply opened_step_trans.
    + done.
    + intros _ _ s1 s2 H1 H2. by eapply opened_done_step.
    + intros i t Hi s' Hs'. unfold tasks in Hi.
      apply lookup_replicate in Hi as [-> _].
      apply getArchive_rg; [done|].
      eapply opened_inv_step; [|exact Hs']. split; [done|].
      rewrite Ha. by intros [? ?].
    + unfold tasks in Hlen. rewrite length_replicate in Hlen.
      destruct rs as [|r rs]; [cbn in Hlen; lia|].
      specialize (HQ 0%nat r eq_refl). cbn beta in HQ. lia.
  - pose proof (spends_Promise_all (open_calls h) sched (replicate N 1%nat) tasks s) as H.
    assert (sum_list (replicate N 1%nat) = N) as HsumN.
    { clear. induction N as [|N IH]; [done|]. cbn [replicate].
      change (sum_list (1%nat :: replicate N 1%nat)) with (1 + sum_list (replicate N 1%nat))%nat.
      by rewrite IH. }
    rewrite HsumN in H. apply H. unfold tasks. clear.
    induction N as [|N IH]; cbn [replicate]; constructor; [apply spends_getArchive|done].
  - intros (d & Ho & Hr). rewrite run_Promise_all_unscheduled. unfold tasks.
    destruct N as [|N]; [lia|]. cbn [replicate settle_all run]. rewrite run_mbind.
    destruct (getArchive_first_opens env u h s d Hres Ha Ho Hr) as [Hc Ha'].
    pose proof (settle_all_cached_opens env u h N _ Hres Ha') as Hrest.
    destruct (run (settle_all (replicate N (getArchive env u))) (run (getArchive env u) s).2)
      as [[rs|e] s']; cbn [fst snd run] in *; congruence.
Qed.

Lemma getArchive_concurrent_opens_witness :
  resolveName demo_env "dat://aa" = Some "aa"
  ∧ archives demo_start !! KAddr "aa" = None
  ∧ (0 < 3)%nat
  ∧ (1 ≤ open_calls "aa"
           (run (Promise_all [0; 1; 2; 1; 1; 0]%nat
                   (replicate 3 (getArchive demo_env "dat://aa"))) demo_start).2
     ≤ 3)%nat.
Proof.
  split; [reflexivity|]. split; [reflexivity|]. split; [lia|].
  pose proof (getArchive_concurrent_opens demo_env "dat://aa" "aa" demo_start 3
                [0; 1; 2; 1; 1; 0]%nat eq_refl eq_refl ltac:(lia)) as [H _].
  exact H.
Defined.

(** C9, the claim as stated fails: two concurrent [getArchive] calls for
    the unseen [dat://aa], both past the cache lookup before either has
    built its handle, make two engine opens. *)
Lemma getArchive_concurrent_counterexample :
  resolveName demo_env "dat://aa" = Some "aa"
  ∧ archives demo_start !! KAddr "aa" = None
  ∧ engine_calls demo_start = []
  ∧ engine_calls
      (run (Promise_all [0; 1; 0; 1]%nat
              [getArchive demo_env "dat://aa"; getArchive demo_env "dat://aa"])
         demo_start).2
    = [CallGetDat "aa"; CallGetDat "aa"]
  ∧ open_calls "aa"
      (run (Promise_all [0; 1; 0; 1]%nat
              [getArchive demo_env "dat://aa"; getArchive demo_env "dat://aa"])
         demo_start).2
    = 2%nat.
Proof. split_and!; vm_compute; reflexivity. Qed.

(** ** [forkArchive] *)

Lemma run_forkArchive env u opts s :
  run (forkArchive env u opts) s =
  match resolveName env u with
  | None => (Err ResolveError, s)
  | Some a =>
      match engine_getDat env a (log_call (CallGetDat a) s) with
      | (Err e, s1) => (Err e, s1)
      | (Ok d, s1) =>
          let s2 := log_call (CallFork (drive d) opts) s1 in
          match fork_drive env (drive d) opts with
          | None => (Err EngineError, s2)
          | Some dst =>
              (Ok (drive_url dst),
               set_pending
                 (fun l => (l ++ [{| archive_id := next_id s2; archive_drive := dst |}])%list)
                 (engine_new (Some dst) s2).2)
          end
      end
  end.
Proof.
  unfold forkArchive. rewrite run_mbind, run_dns_resolveName.
  destruct (resolveName env u) as [a|]; cbn [fst snd]; [|done].
  rewrite run_mbind. unfold getDat. cbn [run await act of_result fst snd].
  destruct (engine_getDat env a (log_call (CallGetDat a) s)) as [[d|e] s1];
    cbn [of_result run fst snd]; [|done].
  rewrite run_mbind. unfold engine_fork. cbn [run await act of_result fst snd].
  destruct (fork_drive env (drive d) opts) as [dst|];
    cbn [engine_new of_result run fst snd]; [|done].
  unfold updateLibraryEntry. run_simpl. done.
Qed.

(** C5, as amended — [forkArchive(src, opts)] resolves [src], gets the
    source's handle from the engine and hands the source drive and the
    options, unchanged, to the engine's [fork]; the forked archive, the
    url returned and the metadata capture started are those of the drive
    that [fork] returns, whatever fields it carries.  The allow-list
    [DAT_PRESERVED_FIELDS_ON_FORK] takes no part in it, and the handle
    cache is left as it was. *)
Theorem forkArchive_delegates (env : Env) (srcArchiveUrl : string) (opts : Manifest)
    (s : State) (a : string) (d : Dat) :
  resolveName env srcArchiveUrl = Some a →
  opens env s a = Some d →
  let r := run (forkArchive env srcArchiveUrl opts) s in
  match fork_drive env (drive d) opts with
  | Some dst =>
      r.1 = Ok (drive_url dst)
      ∧ (∃ archive, pending r.2 = (pending s ++ [archive])%list
                    ∧ archive_drive archive = dst)
      ∧ engine_calls r.2
        = (engine_calls s ++ [CallGetDat a; CallFork (drive d) opts])%list
      ∧ archives r.2 = archives s
      ∧ storage r.2 = storage s
  | None =>
      r.1 = Err EngineError
      ∧ pending r.2 = pending s
      ∧ archives r.2 = archives s
      ∧ storage r.2 = storage s
  end.
Proof.
  intros Hres Ho r. subst r. rewrite run_forkArchive, Hres.
  destruct (engine_getDat_opens env a (log_call (CallGetDat a) s))
    as (H1 & _ & Hs & Ha & _ & Hp & _ & _ & Hc & _).
  assert (opens env (log_call (CallGetDat a) s) a = Some d) as Ho' by exact Ho.
  rewrite Ho' in H1.
  destruct (engine_getDat env a (log_call (CallGetDat a) s)) as [r1 s1].
  cbn [fst snd] in *. subst r1. cbv zeta.
  destruct (fork_drive env (drive d) opts) as [dst|]; cbn [fst snd engine_new]; state_simpl.
  - rewrite Hp, Hc, Ha, Hs. state_simpl. split_and!; try done.
    + eexists. split; [done|]. done.
    + by rewrite <- app_assoc.
  - rewrite Hp, Ha, Hs. done.
Qed.

Lemma forkArchive_delegates_witness :
  resolveName inheriting_env "dat://aa" = Some "aa"
  ∧ opens inheriting_env demo_start "aa"
    = Some {| dat_address := "aa"; drive := demo_drive; dat_ready := true |}
  ∧ (run (forkArchive inheriting_env "dat://aa" []) demo_start).1 = Ok "dat://ff".
Proof.
  split; [reflexivity|]. split; [reflexivity|].
  pose proof (forkArchive_delegates inheriting_env "dat://aa" [] demo_start "aa"
                {| dat_address := "aa"; drive := demo_drive; dat_ready := true |}
                eq_refl eq_refl) as H.
  cbv zeta in H. apply H.
Defined.

(** C5, the claim as stated fails: with an engine whose [fork] takes the
    title from the source when the options give none, the fork of
    [dat://aa] with empty options has the source's title, a field that is
    not on the allow-list. *)
Lemma forkArchive_counterexample :
  let s' := (run (forkArchive inheriting_env "dat://aa" []) demo_start).2 in
  ∃ archive,
    last (pending s') = Some archive
    ∧ ("title" ∉ DAT_PRESERVED_FIELDS_ON_FORK)
    ∧ manifest_get "title" [] = None
    ∧ manifest_get "title" (drive_manifest demo_drive) = Some "Notes"
    ∧ manifest_get "title" (drive_manifest (archive_drive archive)) = Some "Notes"
    ∧ ¬ spec_fork_carries (drive_manifest demo_drive) []
          (drive_manifest (archive_drive archive)).
Proof.
  cbv zeta. eexists. split; [vm_compute; reflexivity|].
  assert ("title" ∉ DAT_PRESERVED_FIELDS_ON_FORK) as Hnot.
  { apply (bool_decide_unpack _). vm_compute. exact I. }
  split; [exact Hnot|]. split; [reflexivity|]. split; [reflexivity|].
  split; [reflexivity|].
  intros [_ H]. specialize (H "title" Hnot). vm_compute in H. discriminate H.
Qed.

(** * Further properties of library.js *)

(** ** [formatArchiveName] *)

Lemma replace_first_length x y s :
  String.length (replace_first x y s) = String.length s.
Proof.
  induction s as [|c s IH]; [done|]. cbn [replace_first].
  case_decide; cbn [String.length]; congruence.
Qed.

Lemma occurrences_replace_first x y s :
  x ≠ y → occurrences x (replace_first x y s) = pred (occurrences x s).
Proof.
  intros Hxy. induction s as [|c s IH]; [done|]. cbn [replace_first].
  case_decide as Hc.
  - subst c. cbn [occurrences].
    rewrite (decide_False (P := y = x)) by congruence.
    rewrite (decide_True (P := x = x)) by done. done.
  - cbn [occurrences]. rewrite (decide_False (P := c = x)) by done. done.
Qed.

Lemma occurrences_replace_first_other z x y s :
  z ≠ x → z ≠ y → occurrences z (replace_first x y s) = occurrences z s.
Proof.
  intros Hzx Hzy. induction s as [|c s IH]; [done|]. cbn [replace_first].
  case_decide as Hc.
  - subst c. cbn [occurrences]. rewrite !decide_False by congruence. done.
  - cbn [occurrences]. by rewrite IH.
Qed.

Lemma replace_first_absent x y s :
  occurrences x s = 0%nat → replace_first x y s = s.
Proof.
  induction s as [|c s IH]; [done|]. cbn [replace_first occurrences].
  case_decide as Hc; [done|]. intros Hs. by rewrite IH.
Qed.

(** X1 — [formatArchiveName] keeps the length of the name. *)
Theorem formatArchiveName_length (name : string) :
  String.length (formatArchiveName name) = String.length name.
Proof. unfold formatArchiveName. by rewrite !replace_first_length. Qed.

Lemma occurrences_formatArchiveName (name : string) (c : ascii) :
  c ∈ reserved_characters →
  occurrences c (formatArchiveName name) = pred (occurrences c name).
Proof.
  intros Hc. unfold reserved_characters in Hc. unfold formatArchiveName.
  repeat (apply elem_of_cons in Hc as [->|Hc]).
  - rewrite !occurrences_replace_first_other by done.
    by apply occurrences_replace_first.
  - rewrite !occurrences_replace_first_other by done.
    rewrite occurrences_replace_first by done.
    by rewrite occurrences_replace_first_other.
  - rewrite occurrences_replace_first_other by done.
    rewrite occurrences_replace_first by done.
    by rewrite !occurrences_replace_first_other.
  - rewrite occurrences_replace_first by done.
    by rewrite !occurrences_replace_first_other.
  - by apply not_elem_of_nil in Hc.
Qed.

(** X2 — [formatArchiveName] replaces one occurrence of each of the
    characters space, slash, backslash and colon, and no more: a name with
    several spaces (or slashes, ...) keeps all but one of them, so that
    the result is free of such a character exactly when the name has it
    once at most. *)
Theorem formatArchiveName_occurrences (name : string) (c : ascii) :
  c ∈ reserved_characters →
  occurrences c (formatArchiveName name) = pred (occurrences c name)
  ∧ (occurrences c (formatArchiveName name) = 0%nat ↔ (occurrences c name ≤ 1)%nat).
Proof.
  intros Hc. rewrite (occurrences_formatArchiveName name c Hc). split; [done|]. lia.
Qed.

Lemma formatArchiveName_occurrences_witness :
  ("/"%char ∈ reserved_characters)
  ∧ formatArchiveName "my notes: a/b/c" = "my-notes_ a_b/c"
  ∧ occurrences "/"%char (formatArchiveName "my notes: a/b/c") = 1%nat.
Proof.
  assert ("/"%char ∈ reserved_characters) as Hc.
  { apply (bool_decide_unpack _). vm_compute. exact I. }
  split; [exact Hc|]. split; [reflexivity|].
  apply (formatArchiveName_occurrences "my notes: a/b/c" "/"%char Hc).
Defined.

(** X3 — the names [formatArchiveName] returns unchanged are exactly
    those without space, slash, backslash and colon. *)
Theorem formatArchiveName_unchanged (name : string) :
  formatArchiveName name = name ↔
  ∀ c, c ∈ reserved_characters → occurrences c name = 0%nat.
Proof.
  split.
  - intros Heq c Hc. pose proof (occurrences_formatArchiveName name c Hc) as H.
    rewrite Heq in H. destruct (occurrences c name); [done|]. cbn in H. lia.
  - intros H. unfold formatArchiveName.
    assert (∀ c, c ∈ reserved_characters → occurrences c name = 0%nat) as H' by done.
    rewrite (replace_first_absent " "%char "-"%char name).
    2: { apply H. apply (bool_decide_unpack _). vm_compute. exact I. }
    rewrite (replace_first_absent "/"%char "_"%char name).
    2: { apply H. apply (bool_decide_unpack _). vm_compute. exact I. }
    rewrite (replace_first_absent "\"%char "_"%char name).
    2: { apply H. apply (bool_decide_unpack _). vm_compute. exact I. }
    apply replace_first_absent.
    apply H. apply (bool_decide_unpack _). vm_compute. exact I.
Qed.

(** ** The storage of the engine *)

Lemma occurrences_app c p q :
  occurrences c (p ++ q) = (occurrences c p + occurrences c q)%nat.
Proof.
  induction p as [|c' p IH]; [done|].
  change (String c' p ++ q) with (String c' (p ++ q)).
  cbn [occurrences]. rewrite IH. lia.
Qed.

Lemma replace_first_app x y p q :
  occurrences x p = 0%nat →
  replace_first x y (p ++ String x q) = p ++ String y q.
Proof.
  induction p as [|c p IH].
  - intros _. change ("" ++ String x q) with (String x q).
    cbn [replace_first]. by rewrite decide_True.
  - change (String c p ++ String x q) with (String c (p ++ String x q)).
    change (String c p ++ String y q) with (String c (p ++ String y q)).
    cbn [replace_first occurrences].
    case_decide as Hc; [done|]. intros Hp. by rewrite IH.
Qed.

(** X4 — the storage factory replaces the first slash of a file name only,
    by a dot: the names [p/q] and [p.q] (no slash in [p] and [q]), though
    different, get the same file, which lies directly in the directory
    that the storage deleter removes for the key. *)
Theorem storageFile_collision (s : State) (key p q : string) :
  occurrences "/"%char p = 0%nat →
  occurrences "/"%char q = 0%nat →
  p ++ "/" ++ q ≠ p ++ "." ++ q
  ∧ storageFile s key (p ++ "/" ++ q) = storageFile s key (p ++ "." ++ q)
  ∧ storageFile s key (p ++ "/" ++ q) = storageDirectory s key ++ "/" ++ p ++ "." ++ q
  ∧ occurrences "/"%char (p ++ "." ++ q) = 0%nat.
Proof.
  intros Hp Hq.
  assert (occurrences "/"%char (p ++ "." ++ q) = 0%nat) as Hdot.
  { rewrite occurrences_app.
    change ("." ++ q) with (String "."%char q). cbn [occurrences].
    rewrite decide_False by done. lia. }
  split_and!.
  - intros Heq. apply (f_equal (occurrences "/"%char)) in Heq.
    rewrite Hdot, occurrences_app in Heq.
    change ("/" ++ q) with (String "/"%char q) in Heq. cbn [occurrences] in Heq.
    rewrite decide_True in Heq by done. lia.
  - unfold storageFile. do 4 f_equal.
    change (p ++ "/" ++ q) with (p ++ String "/"%char q).
    rewrite replace_first_app by done.
    by rewrite replace_first_absent.
  - unfold storageFile, storageDirectory.
    change (p ++ "/" ++ q) with (p ++ String "/"%char q).
    rewrite replace_first_app by done.
    change (String "."%char q) with ("." ++ q).
    generalize (datDir s). intros d. generalize (p ++ "." ++ q). intros r.
    induction d as [|c d IH]; [done|].
    change (String c d ++ "/" ++ key ++ "/" ++ r)
      with (String c (d ++ "/" ++ key ++ "/" ++ r)).
    change ((String c d ++ "/" ++ key) ++ "/" ++ r)
      with (String c ((d ++ "/" ++ key) ++ "/" ++ r)).
    by rewrite IH.
  - exact Hdot.
Qed.

Lemma storageFile_collision_witness :
  occurrences "/"%char "content" = 0%nat
  ∧ occurrences "/"%char "data" = 0%nat
  ∧ storageFile demo_start "aa" "content/data" = "/lib/dat2/aa/content.data"
  ∧ storageFile demo_start "aa" "content/data" = storageFile demo_start "aa" "content.data".
Proof.
  split; [reflexivity|]. split; [reflexivity|]. split; [reflexivity|].
  apply (storageFile_collision demo_start "aa" "content" "data" eq_refl eq_refl).
Defined.

(** ** [getArchive], alone and with [close] *)

Lemma createTempArchive_effect_trace env h s :
  let r := createTempArchive_effect env h s in
  archives r.2 = archives s
  ∧ archiveUsage r.2 = archiveUsage s
  ∧ storage r.2 = storage s
  ∧ pending r.2 = pending s
  ∧ now r.2 = now s
  ∧ engine_calls r.2 = (engine_calls s ++ [CallGetDat h])%list
  ∧ match r.1 with
    | Ok archive =>
        ∃ d, opens env s h = Some d ∧ dat_ready d = true
             ∧ archive_drive archive = drive d ∧ node_dats r.2 !! h = Some d
    | Err e =>
        e = EngineError
        ∧ match opens env s h with Some d => dat_ready d = false | None => True end
    end.
Proof.
  cbv zeta. unfold createTempArchive_effect.
  destruct (engine_getDat_opens env h (log_call (CallGetDat h) s))
    as (H1 & _ & Hs & Ha & Hu & Hp & _ & Hn & Hc & _).
  pose proof (engine_getDat_table env h (log_call (CallGetDat h) s)) as [_ Ht].
  change (opens env (log_call (CallGetDat h) s) h) with (opens env s h) in *.
  destruct (engine_getDat env h (log_call (CallGetDat h) s)) as [r1 s1].
  cbn [fst snd] in *. subst r1.
  destruct (opens env s h) as [d|] eqn:Ho.
  - destruct (dat_ready d) eqn:Hr; cbn [fst snd]; state_simpl.
    + split_and!; try done. exists d. by split_and!.
    + split_and!; done.
  - cbn [fst snd]. split_and!; done.
Qed.

(** X5 — a [getArchive] call that fails leaves the registry as it was:
    the handle cache, the usage map, the index and the started metadata
    captures are unchanged.  It fails either because the name does not
    resolve, and then nothing at all has changed, or because the engine
    cannot open the address or the handle does not get ready, and then
    the engine has been asked once and no handle has been closed. *)
Theorem getArchive_failure (env : Env) (u : string) (s : State) (e : Error) :
  (run (getArchive env u) s).1 = Err e →
  let s' := (run (getArchive env u) s).2 in
  archives s' = archives s
  ∧ archiveUsage s' = archiveUsage s
  ∧ storage s' = storage s
  ∧ pending s' = pending s
  ∧ match resolveName env u with
    | None => e = ResolveError ∧ s' = s
    | Some h =>
        e = EngineError
        ∧ archives s !! KAddr h = None
        ∧ engine_calls s' = (engine_calls s ++ [CallGetDat h])%list
        ∧ match opens env s h with Some d => dat_ready d = false | None => True end
    end.
Proof.
  rewrite run_getArchive. destruct (resolveName env u) as [h|]; cbv zeta.
  - destruct (archives s !! KAddr h) as [a|] eqn:Ha; [done|].
    pose proof (createTempArchive_effect_trace env h s) as H. cbv zeta in H.
    destruct (createTempArchive_effect env h s) as [[a|e'] s1]; cbn [fst snd] in *; [done|].
    intros [= <-]. destruct H as (? & ? & ? & ? & ? & ? & ? & ?). split_and!; done.
  - cbn [fst snd]. intros [= <-]. split_and!; done.
Qed.

Lemma getArchive_failure_witness :
  (run (getArchive demo_env "dat://cc.example") demo_open).1 = Err ResolveError
  ∧ (run (getArchive demo_env "dat://cc.example") demo_open).2 = demo_open.
Proof.
  split; [reflexivity|].
  pose proof (getArchive_failure demo_env "dat://cc.example" demo_open ResolveError eq_refl)
    as (_ & _ & _ & _ & H).
  apply H.
Defined.

(** X6 — a [getArchive] call that succeeds returns the handle that the
    cache holds for the resolved address afterwards, stamps that address
    with the time of the call, and changes nothing else of the registry:
    the other cache and usage entries, the index and the started metadata
    captures are as before (the handle is not persisted), and
    [getOpenArchives()] lists the address with the handle's url and the
    time of the call. *)
Theorem getArchive_success (env : Env) (u : string) (s : State) (r : option DatArchive) :
  (run (getArchive env u) s).1 = Ok r →
  let s' := (run (getArchive env u) s).2 in
  ∃ h archive,
    resolveName env u = Some h
    ∧ r = Some archive
    ∧ archives s' = <[KAddr h := archive]> (archives s)
    ∧ archiveUsage s' = <[KAddr h := now s]> (archiveUsage s)
    ∧ storage s' = storage s
    ∧ pending s' = pending s
    ∧ {| host := KAddr h; open_url := archive_url archive; lastUsed := Some (now s) |}
      ∈ getOpenArchives s'.
Proof.
  rewrite run_getArchive. destruct (resolveName env u) as [h|]; cbv zeta; [|done].
  assert (∀ archive s1,
            archives s1 = <[KAddr h:=archive]> (archives s) →
            archiveUsage s1 = <[KAddr h:=now s]> (archiveUsage s) →
            {| host := KAddr h; open_url := archive_url archive; lastUsed := Some (now s) |}
            ∈ getOpenArchives s1) as Hlist.
  { intros archive s1 Ha Hu. apply elem_of_getOpenArchives. exists archive.
    cbn [host open_url lastUsed]. by rewrite Ha, Hu, !lookup_insert_eq. }
  destruct (archives s !! KAddr h) as [a|] eqn:Ha.
  - cbn [fst snd]. intros [= <-]. exists h, a. state_simpl.
    assert (archives s = <[KAddr h:=a]> (archives s)) as Hid by (by rewrite insert_id).
    split_and!; try done. by apply Hlist.
  - pose proof (createTempArchive_effect_trace env h s) as H. cbv zeta in H.
    destruct (createTempArchive_effect env h s) as [[a|e'] s1]; cbn [fst snd] in *; [|done].
    intros [= <-]. destruct H as (Ha1 & Hu1 & Hs1 & Hp1 & Hn1 & _).
    exists h, a. state_simpl. rewrite Ha1, Hu1, Hn1.
    split_and!; try done. apply Hlist; state_simpl; by rewrite ?Ha1, ?Hu1.
Qed.

Lemma getArchive_success_witness :
  ∃ archive,
    (run (getArchive demo_env "dat://aa") demo_start).1 = Ok (Some archive)
    ∧ {| host := KAddr "aa"; open_url := "dat://aa"; lastUsed := Some 100%Z |}
      ∈ getOpenArchives demo_open.
Proof.
  destruct (getArchive_success demo_env "dat://aa" demo_start
              (Some {| archive_id := 0; archive_drive := demo_drive |}) eq_refl)
    as (h & archive & Hres & Hr & _ & _ & _ & _ & Hin).
  exists archive. split; [by rewrite <- Hr|].
  injection Hres as <-. injection Hr as <-. exact Hin.
Defined.

(** X7 — [getArchive(u)] followed by [close(u)] removes the address from
    the cache and the usage map again: if the address was not cached
    before, both maps are back as they were, and the handle that
    [getArchive] had the engine open is the one [close] closes. *)
Theorem getArchive_close (env : Env) (u h : string) (s : State) (r : option DatArchive) :
  resolveName env u = Some h →
  (run (getArchive env u) s).1 = Ok r →
  archives s !! KAddr h = None →
  archiveUsage s !! KAddr h = None →
  let s1 := (run (getArchive env u) s).2 in
  let s2 := (run (close env u) s1).2 in
  (run (close env u) s1).1 = Ok tt
  ∧ archives s2 = archives s
  ∧ archiveUsage s2 = archiveUsage s
  ∧ getOpenArchives s2 = getOpenArchives s
  ∧ ∃ d, opens env s h = Some d
         ∧ engine_calls s2
           = (engine_calls s ++ [CallGetDat h; CallClose (dat_address d)])%list.
Proof.
  intros Hres Hok Ha Hu s1 s2. subst s2 s1. revert Hok.
  rewrite run_getArchive, Hres, Ha.
  pose proof (createTempArchive_effect_trace env h s) as H. cbv zeta in H.
  destruct (createTempArchive_effect env h s) as [[a|e'] s1]; cbn [fst snd] in *; [|done].
  intros _. destruct H as (Ha1 & Hu1 & _ & _ & _ & Hc1 & d & Ho & _ & _ & Hd1).
  rewrite run_close, Hres. cbn [fst snd].
  rewrite archives_close_effect, archiveUsage_close_effect. state_simpl.
  rewrite Ha1, Hu1.
  assert (delete (KAddr h) (<[KAddr h:=a]> (archives s)) = archives s) as Hda
    by (by rewrite delete_insert_eq, delete_id).
  assert (delete (KAddr h) (<[KAddr h:=now s1]> (archiveUsage s)) = archiveUsage s) as Hdu
    by (by rewrite delete_insert_eq, delete_id).
  split; [done|]. split; [exact Hda|]. split; [exact Hdu|]. split.
  - unfold getOpenArchives. rewrite archives_close_effect, archiveUsage_close_effect.
    state_simpl. by rewrite Ha1, Hu1, Hda, Hdu.
  - exists d. split; [done|].
    pose proof (engine_close_effect h
                  (set_archiveUsage <[KAddr h:=now s1]> (set_archives <[KAddr h:=a]> s1))) as Hcl.
    revert Hcl. state_simpl. rewrite Hd1. intros [-> _]. state_simpl.
    by rewrite Hc1, <- app_assoc.
Qed.

Lemma getArchive_close_witness :
  resolveName demo_env "dat://aa" = Some "aa"
  ∧ archives demo_start !! KAddr "aa" = None
  ∧ getOpenArchives (run (close demo_env "dat://aa") demo_open).2 = [].
Proof.
  split; [reflexivity|]. split; [reflexivity|].
  pose proof (getArchive_close demo_env "dat://aa" "aa" demo_start
                (Some {| archive_id := 0; archive_drive := demo_drive |})
                eq_refl eq_refl eq_refl eq_refl) as (_ & _ & _ & H & _).
  exact H.
Defined.

(** ** [remove] and [listLibrary] *)

Lemma run_listLibrary s :
  run listLibrary s = (Ok ((map_to_list (storage s)).*2), s).
Proof. done. Qed.

(** X8 — after a successful [remove(u)] the record is gone for good: a
    second [remove(u)] fails with "not in library" and changes nothing,
    and [listLibrary()] returns the records of the other urls, one fewer
    than before. *)
Theorem remove_then_gone (env : Env) (u h : string) (s : State) (e : LibraryEntry) :
  storage s !! u = Some e →
  resolveName env u = Some h →
  let s1 := (run (remove env u) s).2 in
  (run (remove env u) s).1 = Ok e
  ∧ run (remove env u) s1 = (Err NotInLibrary, s1)
  ∧ run listLibrary s1 = (Ok ((map_to_list (delete u (storage s))).*2), s1)
  ∧ length ((map_to_list (delete u (storage s))).*2)
    = pred (length ((map_to_list (storage s)).*2)).
Proof.
  intros Hu Hres s1. subst s1. rewrite !run_remove, Hu, Hres. cbn [fst snd].
  state_simpl. rewrite storage_close_effect, lookup_delete_eq.
  split; [done|]. split; [done|]. split.
  - rewrite run_listLibrary. state_simpl. by rewrite storage_close_effect.
  - rewrite !length_fmap, !length_map_to_list.
    apply map_size_delete_Some. eauto.
Qed.

Lemma remove_then_gone_witness :
  storage demo_indexed !! "dat://aa" = Some demo_entry
  ∧ resolveName demo_env "dat://aa" = Some "aa"
  ∧ (run (remove demo_env "dat://aa") (run (remove demo_env "dat://aa") demo_indexed).2).1
    = Err NotInLibrary.
Proof.
  assert (storage demo_indexed !! "dat://aa" = Some demo_entry) as Hu
    by (vm_compute; reflexivity).
  split; [exact Hu|]. split; [reflexivity|].
  pose proof (remove_then_gone demo_env "dat://aa" "aa" demo_indexed demo_entry Hu eq_refl)
    as (_ & H & _).
  cbv zeta in H. by rewrite H.
Defined.

(** ** [createArchive], its failures and what it leaves in the index *)

(** X9 — a [createArchive] call that fails leaves the registry as it was
    (cache, usage map, index, started metadata captures).  It fails
    either because the engine cannot create the archive, or because the
    url of the archive it has just created does not resolve: in that case
    the engine holds the new archive, which is neither cached nor
    recorded. *)
Theorem createArchive_failure (env : Env) (opts : Manifest) (s : State) (e : Error) :
  (run (createArchive env opts) s).1 = Err e →
  let s' := (run (createArchive env opts) s).2 in
  archives s' = archives s
  ∧ archiveUsage s' = archiveUsage s
  ∧ storage s' = storage s
  ∧ pending s' = pending s
  ∧ engine_calls s' = (engine_calls s ++ [CallCreate opts])%list
  ∧ match create_drive env opts with
    | None => e = EngineError ∧ node_dats s' = node_dats s
    | Some dr =>
        e = ResolveError
        ∧ resolveName env (drive_url dr) = None
        ∧ ∃ d, node_dats s' !! drive_address dr = Some d ∧ drive d = dr
    end.
Proof.
  rewrite run_createArchive. destruct (create_drive env opts) as [dr|]; cbv zeta.
  - destruct (resolveName env (drive_url dr)) as [r|]; [done|].
    cbn [fst snd engine_new]. intros [= <-]. state_simpl.
    split_and!; try done. eexists. rewrite lookup_insert_eq. done.
  - cbn [fst snd]. intros [= <-]. state_simpl. split_and!; done.
Qed.

Lemma createArchive_failure_witness :
  (run (createArchive unresolving_env []) demo_start).1 = Err ResolveError
  ∧ getOpenArchives (run (createArchive unresolving_env []) demo_start).2 = [].
Proof.
  split; [reflexivity|].
  pose proof (createArchive_failure unresolving_env [] demo_start ResolveError eq_refl)
    as (H & _).
  cbv zeta in H. unfold getOpenArchives. rewrite H. reflexivity.
Defined.

Lemma land_entries_last (l : list DatArchive) (a : DatArchive) (info : Info) (s : State) :
  getInfo a = Some info →
  storage (fold_left (fun s' a' => land_entry a' s') (l ++ [a]) s) !! archive_url a
  = Some (library_entry (libraryDir s) info).
Proof.
  intros Hi. rewrite fold_left_app. cbn [fold_left]. unfold land_entry at 1. rewrite Hi.
  state_simpl. rewrite lookup_insert_eq. f_equal. f_equal.
  generalize s. induction l as [|a' l IH]; intros s'; [done|].
  cbn [fold_left]. by rewrite IH, land_entry_libraryDir.
Qed.

(** X10 — once the metadata capture that a successful [createArchive]
    has started lands ([getInfo()] succeeding), the index has, under the
    url that [createArchive] returned, a record whose directory is
    [<libraryDir>/dat1/<key>/] and whose url, owner, title and
    description are those [getInfo()] reported. *)
Theorem createArchive_persists (env : Env) (opts : Manifest) (s : State)
    (u : string) (info : Info) :
  (run (createArchive env opts) s).1 = Ok u →
  (∀ dr, create_drive env opts = Some dr → drive_info dr = Some info) →
  let s1 := (run (createArchive env opts) s).2 in
  storage (settle s1) !! u
  = Some {| dir := libraryDir s ++ "/dat1/" ++ info_key info ++ "/";
            url := info_url info;
            owner := info_isOwner info;
            title := info_title info;
            description := info_description info |}
  ∧ (run listLibrary (settle s1)).1 = Ok ((map_to_list (storage (settle s1))).*2)
  ∧ storage s1 = storage s.
Proof.
  rewrite run_createArchive. intros Hok Hinfo. cbv zeta in *.
  destruct (create_drive env opts) as [dr|]; [|done].
  destruct (resolveName env (drive_url dr)) as [r|]; [|done].
  cbn [fst snd engine_new] in *. injection Hok as <-.
  split; [|done]. unfold settle. state_simpl.
  pose proof (land_entries_last (pending s)
                {| archive_id := next_id s; archive_drive := dr |} info) as H.
  unfold getInfo, archive_url in H. cbn [archive_drive] in H.
  rewrite H by (by apply Hinfo). done.
Qed.

Lemma createArchive_persists_witness :
  (run (createArchive demo_env []) demo_start).1 = Ok "dat://aa"
  ∧ (∀ dr, create_drive demo_env [] = Some dr → drive_info dr = Some demo_info)
  ∧ storage (settle demo_created) !! "dat://aa" = Some demo_entry.
Proof.
  assert (∀ dr, create_drive demo_env [] = Some dr → drive_info dr = Some demo_info) as Hi
    by (by intros dr [= <-]).
  split; [reflexivity|]. split; [exact Hi|].
  pose proof (createArchive_persists demo_env [] demo_start "dat://aa" demo_info
                eq_refl Hi) as [H _].
  exact H.
Defined.

(** X11 — two successful [createArchive] calls in a row leave one of the
    two new handles in the cache only: both are filed under the same key,
    so the second one takes the place of the first, although they are
    different instances. *)
Theorem createArchive_twice (env1 env2 : Env) (opts1 opts2 : Manifest) (s : State)
    (u1 u2 : string) :
  (run (createArchive env1 opts1) s).1 = Ok u1 →
  let s1 := (run (createArchive env1 opts1) s).2 in
  (run (createArchive env2 opts2) s1).1 = Ok u2 →
  let s2 := (run (createArchive env2 opts2) s1).2 in
  ∃ first second,
    archives s1 = <[KUndefined := first]> (archives s)
    ∧ archives s2 = <[KUndefined := second]> (archives s)
    ∧ archive_id first ≠ archive_id second
    ∧ archive_url first = u1
    ∧ archive_url second = u2
    ∧ pending s2 = (pending s ++ [first; second])%list.
Proof.
  rewrite !run_createArchive. cbv zeta.
  destruct (create_drive env1 opts1) as [dr1|]; [|done].
  destruct (resolveName env1 (drive_url dr1)) as [r1|]; [|done].
  cbn [fst snd engine_new]. state_simpl. intros [= <-].
  rewrite !run_createArchive. cbv zeta.
  destruct (create_drive env2 opts2) as [dr2|]; [|by cbn [fst]].
  destruct (resolveName env2 (drive_url dr2)) as [r2|]; [|by cbn [fst]].
  cbn [fst snd engine_new]. state_simpl. intros [= <-].
  eexists _, _. unfold host_property.
  split; [done|]. split; [by rewrite insert_insert_eq|].
  split; [cbn [archive_id]; lia|]. split; [done|]. split; [done|].
  by rewrite <- app_assoc.
Qed.

Lemma createArchive_twice_witness :
  (run (createArchive demo_env []) demo_start).1 = Ok "dat://aa"
  ∧ (run (createArchive demo_env []) demo_created).1 = Ok "dat://aa"
  ∧ length (getOpenArchives (run (createArchive demo_env []) demo_created).2) = 1%nat.
Proof.
  split; [reflexivity|]. split; [reflexivity|].
  destruct (createArchive_twice demo_env demo_env [] [] demo_start "dat://aa" "dat://aa"
              eq_refl eq_refl) as (a1 & a2 & _ & H & _).
  unfold getOpenArchives. rewrite length_fmap, length_map_to_list.
  change (run (createArchive demo_env []) demo_start).2 with demo_created in H.
  rewrite H. reflexivity.
Defined.

(** ** [forkArchive], its failures *)

(** X12 — a [forkArchive] call that fails leaves the registry as it was
    (cache, usage map, index, started metadata captures).  It fails with
    the resolution error, nothing having been asked of the engine, when
    the source url does not resolve; otherwise with the engine's error,
    either because the source cannot be opened, and then [fork] has not
    been called, or because [fork] itself fails. *)
Theorem forkArchive_failure (env : Env) (u : string) (opts : Manifest) (s : State)
    (e : Error) :
  (run (forkArchive env u opts) s).1 = Err e →
  let s' := (run (forkArchive env u opts) s).2 in
  archives s' = archives s
  ∧ archiveUsage s' = archiveUsage s
  ∧ storage s' = storage s
  ∧ pending s' = pending s
  ∧ match resolveName env u with
    | None => e = ResolveError ∧ s' = s
    | Some a =>
        e = EngineError
        ∧ match opens env s a with
          | None => engine_calls s' = (engine_calls s ++ [CallGetDat a])%list
          | Some d =>
              fork_drive env (drive d) opts = None
              ∧ engine_calls s'
                = (engine_calls s ++ [CallGetDat a; CallFork (drive d) opts])%list
          end
    end.
Proof.
  rewrite run_forkArchive. destruct (resolveName env u) as [a|]; cbv zeta.
  2: { cbn [fst snd]. intros [= <-]. split_and!; done. }
  destruct (engine_getDat_opens env a (log_call (CallGetDat a) s))
    as (H1 & _ & Hs & Ha & Hu & Hp & _ & _ & Hc & _).
  change (opens env (log_call (CallGetDat a) s) a) with (opens env s a) in H1.
  destruct (engine_getDat env a (log_call (CallGetDat a) s)) as [r1 s1].
  cbn [fst snd] in *. subst r1.
  destruct (opens env s a) as [d|].
  - destruct (fork_drive env (drive d) opts) as [dst|]; [done|].
    cbn [fst snd]. intros [= <-]. state_simpl. rewrite Hc. state_simpl.
    split_and!; try done. by rewrite <- app_assoc.
  - cbn [fst snd]. intros [= <-]. split_and!; try done.
Qed.

Lemma forkArchive_failure_witness :
  (run (forkArchive demo_env "dat://cc.example" []) demo_open).1 = Err ResolveError
  ∧ (run (forkArchive demo_env "dat://cc.example" []) demo_open).2 = demo_open.
Proof.
  split; [reflexivity|].
  pose proof (forkArchive_failure demo_env "dat://cc.example" [] demo_open ResolveError
                eq_refl) as (_ & _ & _ & _ & H).
  apply H.
Defined.

(** X13 — [forkArchive] does not await [dat.ready] of the source, as
    [createTempArchive] does.  For a source whose [ready] is rejected,
    [createTempArchive] and [getArchive] are rejected, nothing being
    cached, whereas [forkArchive] hands the drive of the source to [fork]
    all the same: its outcome is the outcome of [fork], the url of the
    fork or the engine's error. *)
Theorem forkArchive_unready_source (env : Env) (u : string) (opts : Manifest)
    (s : State) (a : string) (d : Dat) :
  resolveName env u = Some a →
  archives s !! KAddr a = None →
  opens env s a = Some d →
  dat_ready d = false →
  (run (createTempArchive env a) s).1 = Err EngineError
  ∧ (run (getArchive env u) s).1 = Err EngineError
  ∧ archives (run (getArchive env u) s).2 = archives s
  ∧ (run (forkArchive env u opts) s).1
    = match fork_drive env (drive d) opts with
      | Some dst => Ok (drive_url dst)
      | None => Err EngineError
      end
  ∧ engine_calls (run (forkArchive env u opts) s).2
    = (engine_calls s ++ [CallGetDat a; CallFork (drive d) opts])%list.
Proof.
  intros Hres Hc Ho Hr.
  assert ((createTempArchive_effect env a s).1 = Err EngineError
          ∧ archives (createTempArchive_effect env a s).2 = archives s) as [Ht Ha].
  { pose proof (createTempArchive_effect_trace env a s) as H. cbv zeta in H.
    destruct (createTempArchive_effect env a s) as [[archive|e] s1]; cbn [fst snd] in *.
    - destruct H as (_ & _ & _ & _ & _ & _ & d' & Ho' & Hr' & _). congruence.
    - by destruct H as (? & _ & _ & _ & _ & _ & -> & _). }
  split; [by rewrite run_createTempArchive|].
  assert (run (getArchive env u) s
          = (Err EngineError, (createTempArchive_effect env a s).2)) as ->.
  { rewrite run_getArchive, Hres, Hc.
    destruct (createTempArchive_effect env a s) as [[archive|e] s1]; cbn [fst snd] in *;
      congruence. }
  split; [done|]. split; [done|].
  rewrite run_forkArchive, Hres.
  destruct (engine_getDat_opens env a (log_call (CallGetDat a) s))
    as (H1 & _ & _ & _ & _ & _ & _ & _ & Hcalls & _).
  change (opens env (log_call (CallGetDat a) s) a) with (opens env s a) in H1.
  rewrite Ho in H1.
  destruct (engine_getDat env a (log_call (CallGetDat a) s)) as [r1 s1].
  cbn [fst snd] in *. subst r1. cbv zeta.
  destruct (fork_drive env (drive d) opts) as [dst|]; cbn [fst snd engine_new];
    state_simpl; rewrite Hcalls; state_simpl; by rewrite <- app_assoc.
Qed.

Lemma forkArchive_unready_source_witness :
  resolveName stalled_env "dat://aa" = Some "aa"
  ∧ (dat_ready <$> opens stalled_env demo_start "aa") = Some false
  ∧ (run (getArchive stalled_env "dat://aa") demo_start).1 = Err EngineError
  ∧ (run (forkArchive stalled_env "dat://aa" []) demo_start).1 = Ok "dat://ff".
Proof.
  split; [reflexivity|]. split; [reflexivity|].
  destruct (forkArchive_unready_source stalled_env "dat://aa" [] demo_start "aa"
              {| dat_address := "aa"; drive := demo_drive; dat_ready := false |}
              eq_refl eq_refl eq_refl eq_refl) as (_ & Hg & _ & Hf & _).
  split; [exact Hg|]. exact Hf.
Defined.

(** ** The outcome of [init] *)

Lemma never_throws_try_catch {A : Type} (t : Async A) (h : Error -> Async A) :
  (∀ e, never_throws (h e)) → never_throws (try_catch t h).
Proof.
  intros Hh. induction t as [a|e|f k IH|k IH]; cbn [try_catch never_throws]; auto.
Qed.

Lemma never_throws_run {A : Type} (t : Async A) (s : State) :
  never_throws t → ∃ a, (run t s).1 = Ok a.
Proof.
  revert s. induction t as [a|e|f k IH|k IH]; intros s; cbn [never_throws run]; eauto.
  done.
Qed.

Lemma never_throws_resume {A : Type} (t : Async A) (s : State) :
  never_throws t → never_throws (resume t s).1.
Proof.
  revert s. induction t as [a|e|f k IH|k IH]; intros s; cbn [never_throws resume fst]; auto.
Qed.

Lemma never_throws_pool_run {A : Type} (sched : list nat) (ts : list (Async A)) (s : State) :
  Forall never_throws ts →
  ∃ ts', (run (pool_run sched ts) s).1 = Ok ts' ∧ Forall never_throws ts'.
Proof.
  revert ts s. induction sched as [|i sched IH]; intros ts s Hts; [by exists ts|].
  cbn [pool_run]. rewrite run_mbind. unfold pool_step.
  destruct (ts !! i) as [t|] eqn:Hi; cbn [run fst snd].
  - apply IH. apply Forall_insert; [done|].
    apply never_throws_resume. eapply Forall_lookup_1; eauto.
  - by apply IH.
Qed.

Lemma never_throws_settle_all {A : Type} (ts : list (Async A)) (s : State) :
  Forall never_throws ts →
  ∃ rs, (run (settle_all ts) s).1 = Ok rs ∧ ∃ l, all_results rs = Ok l.
Proof.
  revert s. induction ts as [|t ts IH]; intros s Hts.
  - exists []. split; [done|]. by exists [].
  - apply Forall_cons in Hts as [Ht Hts]. cbn [settle_all run]. rewrite run_mbind.
    destruct (IH (run t s).2 Hts) as (rs & Hrs & l & Hl). rewrite Hrs. cbn [run fst].
    eexists. split; [done|].
    destruct (never_throws_run t s Ht) as [a Ha]. rewrite Ha. cbn [all_results].
    rewrite Hl. by eexists.
Qed.

Lemma never_throws_Promise_all {A : Type} (sched : list nat) (ts : list (Async A))
    (s : State) :
  Forall never_throws ts → ∃ l, (run (Promise_all sched ts) s).1 = Ok l.
Proof.
  intros Hts. unfold Promise_all. rewrite run_mbind.
  destruct (never_throws_pool_run sched ts s Hts) as (ts' & Hr & Hts'). rewrite Hr.
  rewrite run_mbind.
  destruct (never_throws_settle_all ts' (run (pool_run sched ts) s).2 Hts')
    as (rs & Hrs & l & Hl).
  rewrite Hrs. cbn [run]. rewrite Hl. by exists l.
Qed.

Lemma never_throws_checkOwned env a : never_throws (checkOwned env a).
Proof. unfold checkOwned. by apply never_throws_try_catch. Qed.

Lemma never_throws_loadLibrary env e : never_throws (loadLibrary env e).
Proof.
  unfold loadLibrary. apply never_throws_try_catch. intros _.
  cbn [await act never_throws of_result]. done.
Qed.

Lemma library_empty (s : State) :
  length ((map_to_list (storage s)).*2) = 0%nat ↔ storage s = ∅.
Proof. rewrite length_fmap, length_map_to_list. apply map_size_empty_iff. Qed.


(** ** Steps of the tasks, one primitive at a time *)

Section Steps.
Context (R : State -> State -> Prop).
Context (R_refl : ∀ s, R s s).
Context (R_trans : ∀ s1 s2 s3, R s1 s2 → R s2 s3 → R s1 s3).
Context (R_node_dats : ∀ f s, R s (set_node_dats f s)).
Context (R_log : ∀ c s, R s (log_call c s)).
Context (R_bump : ∀ s, R s (bump_id s)).
Context (R_cache : ∀ k a s, R s (set_archives (insert k a) s)).
Context (R_prune : ∀ k s, R s (set_storage (delete k) s)).
Context (R_capture : ∀ a s, R s (set_pending (fun l => (l ++ [a])%list) s)).

Lemma step_updateLibraryEntry a : all_acts R (updateLibraryEntry a).
Proof using R_capture. apply all_acts_modify. intros s. apply R_capture. Qed.

Lemma step_checkOwned env a : all_acts R (checkOwned env a).
Proof using R_refl R_trans R_node_dats R_log R_bump R_cache R_capture.
  unfold checkOwned. apply all_acts_try_catch; [|done].
  apply all_acts_bind; [by apply frame_getDat|]. intros d.
  apply all_acts_bind; [by apply frame_await_ready|]. intros _.
  destruct (writable (drive d)); [|by apply frame_dat_close].
  apply all_acts_bind; [by apply frame_createDatArchive|]. intros archive.
  apply all_acts_bind; [apply step_updateLibraryEntry|]. intros _.
  apply all_acts_modify. intros s. apply R_cache.
Qed.

Lemma step_loadLibrary env e : all_acts R (loadLibrary env e).
Proof using R_refl R_node_dats R_log R_bump R_cache R_prune.
  unfold loadLibrary. apply all_acts_try_catch.
  - apply all_acts_bind; [by apply frame_dns_resolveName|]. intros a.
    apply all_acts_bind; [by apply frame_getDat|]. intros d.
    apply all_acts_bind; [by apply frame_await_ready|]. intros _.
    apply all_acts_bind; [by apply frame_createDatArchive|]. intros archive.
    apply all_acts_modify. intros s. apply R_cache.
  - intros _. apply all_acts_await. intros s. apply R_prune.
Qed.

Lemma step_createArchive env opts : all_acts R (createArchive env opts).
Proof using R_refl R_trans R_node_dats R_log R_bump R_cache R_capture.
  unfold createArchive.
  apply all_acts_bind.
  { intros s. split; [apply R_log|]. apply all_acts_await. intros s'.
    by apply frame_engine_new. }
  intros a.
  apply all_acts_bind; [by apply frame_dns_resolveName|]. intros r.
  apply all_acts_bind; [apply all_acts_modify; intros s; apply R_cache|]. intros _.
  apply all_acts_bind; [apply step_updateLibraryEntry|]. by intros _.
Qed.

Lemma step_forkArchive env u opts : all_acts R (forkArchive env u opts).
Proof using R_refl R_trans R_node_dats R_log R_bump R_capture.
  unfold forkArchive.
  apply all_acts_bind; [by apply frame_dns_resolveName|]. intros a.
  apply all_acts_bind; [by apply frame_getDat|]. intros d.
  apply all_acts_bind.
  { intros s. split; [apply R_log|]. apply all_acts_await. intros s'.
    by apply frame_engine_new. }
  intros dst.
  apply all_acts_bind; [apply step_updateLibraryEntry|]. by intros _.
Qed.

Lemma step_init env sched_owned sched_load s :
  R s (run (init env sched_owned sched_load) s).2.
Proof using All.
  pose proof (fun A => all_acts_run R R_refl R_trans (A:=A)) as Hrun.
  unfold init.
  apply (run_bind_rel R R_trans); [by apply Hrun, frame_init_libraryDir|].
  intros _ _.
  apply (run_bind_rel R R_trans); [apply Hrun, all_acts_await; intros; apply R_refl|].
  intros _ _.
  apply (run_bind_rel R R_trans); [apply Hrun, all_acts_await; intros; apply R_refl|].
  intros _ _.
  apply (run_bind_rel R R_trans);
    [by apply Hrun, all_acts_awaited, frame_listLibrary|].
  intros library _.
  apply (run_bind_rel R R_trans).
  - destruct (decide (length library = 0%nat)); [|apply R_refl].
    apply (run_bind_rel R R_trans); [apply Hrun, all_acts_await; intros; apply R_refl|].
    intros addresses _.
    apply (run_bind_rel R R_trans); [|intros; apply R_refl].
    apply (run_Promise_all_rel R R_refl R_trans).
    apply Forall_fmap, Forall_forall. intros a _. apply step_checkOwned.
  - intros _ _.
    apply (run_bind_rel R R_trans); [|intros; apply R_refl].
    apply (run_Promise_all_rel R R_refl R_trans).
    apply Forall_fmap, Forall_forall. intros e _. apply step_loadLibrary.
Qed.
End Steps.

Lemma startup_step_refl s : startup_step s s.
Proof. unfold startup_step. split_and!; done. Qed.

Lemma startup_step_trans s1 s2 s3 :
  startup_step s1 s2 → startup_step s2 s3 → startup_step s1 s3.
Proof.
  intros (A1 & A2 & A3 & A4 & A5 & A6) (B1 & B2 & B3 & B4 & B5 & B6).
  unfold startup_step. split_and!; try congruence; try (by etrans); auto.
Qed.

Lemma startup_step_init env sched_owned sched_load s :
  startup_step s (run (init env sched_owned sched_load) s).2.
Proof.
  apply step_init.
  - apply startup_step_refl.
  - apply startup_step_trans.
  - intros f s'. unfold startup_step. state_simpl. split_and!; done.
  - intros c s'. unfold startup_step. state_simpl. split_and!; try done.
    by apply prefix_app_r.
  - intros s'. unfold startup_step. state_simpl. split_and!; done.
  - intros k a s'. unfold startup_step. state_simpl. split_and!; try done.
    intros k' Hk'. rewrite lookup_insert. case_decide; [by eexists|done].
  - intros k s'. unfold startup_step. state_simpl. split_and!; try done.
    apply delete_subseteq.
  - intros a s'. unfold startup_step. state_simpl. split_and!; try done.
    by apply prefix_app_r.
Qed.

(** X15 — [init()] only adds, whatever it is started on, whatever the
    scheduling of its tasks and whatever its outcome: it writes no record
    into the index (records may only go), it drops no key from the handle
    cache, it leaves the usage map alone, and the metadata captures
    started before it and the calls made to the engine before it are
    still there, in front of those it adds. *)
Theorem init_only_adds (env : Env) (sched_owned sched_load : list nat) (s : State) :
  let s' := (run (init env sched_owned sched_load) s).2 in
  storage s' ⊆ storage s
  ∧ (∀ k, is_Some (archives s !! k) → is_Some (archives s' !! k))
  ∧ archiveUsage s' = archiveUsage s
  ∧ (∃ new, pending s' = (pending s ++ new)%list)
  ∧ (∃ calls, engine_calls s' = (engine_calls s ++ calls)%list)
  ∧ (length (getOpenArchives s) ≤ length (getOpenArchives s'))%nat
  ∧ (length ((map_to_list (storage s')).*2) ≤ length ((map_to_list (storage s)).*2))%nat.
Proof.
  cbv zeta.
  destruct (startup_step_init env sched_owned sched_load s)
    as (_ & Hu & Hst & Ha & Hp & Hc).
  split_and!; try done.
  - unfold getOpenArchives. rewrite !length_fmap, !length_map_to_list.
    rewrite <- !size_dom. apply subseteq_size. intros k. rewrite !elem_of_dom. apply Ha.
  - rewrite !length_fmap, !length_map_to_list. by apply map_subseteq_size.
Qed.

Lemma reload_step_refl s : reload_step s s.
Proof.
  unfold reload_step. split_and!; try done. exists []. by rewrite app_nil_r.
Qed.

Lemma reload_step_trans s1 s2 s3 :
  reload_step s1 s2 → reload_step s2 s3 → reload_step s1 s3.
Proof.
  intros (A1 & A2 & l1 & A3 & A4) (B1 & B2 & l2 & B3 & B4).
  unfold reload_step. split_and!; [congruence|by etrans|].
  exists (l1 ++ l2)%list. split; [by rewrite B3, A3, <- app_assoc|].
  by apply Forall_app.
Qed.

Lemma reload_step_frame s s' :
  pending s' = pending s → node_dats s' = node_dats s →
  engine_calls s' = engine_calls s → reload_step s s'.
Proof.
  intros Hp Hn Hc. unfold reload_step. rewrite Hp, Hn, Hc. apply reload_step_refl.
Qed.

Lemma reload_step_loadLibrary env e : all_acts reload_step (loadLibrary env e).
Proof.
  unfold loadLibrary. apply all_acts_try_catch.
  - apply all_acts_bind; [apply frame_dns_resolveName, reload_step_refl|]. intros a.
    apply all_acts_bind.
    { unfold getDat. intros s. split.
      - unfold reload_step. state_simpl. split_and!; try done.
        exists [CallGetDat a]. split; [done|]. apply Forall_singleton. by eexists.
      - apply all_acts_await. intros s'. unfold engine_getDat.
        destruct (node_dats s' !! a) as [d|] eqn:Hd; [apply reload_step_refl|].
        destruct (load_drive env a) as [[dr rdy]|]; [|apply reload_step_refl].
        cbn [snd]. unfold reload_step. state_simpl. split_and!; try done.
        + by apply insert_subseteq.
        + exists []. by rewrite app_nil_r. }
    intros d.
    apply all_acts_bind; [apply frame_await_ready, reload_step_refl|]. intros _.
    apply all_acts_bind.
    { intros s. split; [by apply reload_step_frame|done]. }
    intros archive. apply all_acts_modify. intros s. by apply reload_step_frame.
  - intros _. apply all_acts_await. intros s. by apply reload_step_frame.
Qed.

(** X16 — started on an index that is not empty, [init()] only reopens:
    it starts no metadata capture, so that no record can be written
    later on its account; it asks the engine for nothing but to open
    addresses, so that it closes, creates and forks nothing; and the
    engine still holds every handle it held before. *)
Theorem init_reload_only_opens (env : Env) (sched_owned sched_load : list nat)
    (s : State) :
  storage s ≠ ∅ →
  let s' := (run (init env sched_owned sched_load) s).2 in
  pending s' = pending s
  ∧ node_dats s ⊆ node_dats s'
  ∧ ∃ calls, engine_calls s' = (engine_calls s ++ calls)%list
             ∧ Forall (fun c => ∃ a, c = CallGetDat a) calls.
Proof.
  intros Hne. cbv zeta. change (reload_step s (run (init env sched_owned sched_load) s).2).
  rewrite run_init, existsSync_libraryDir_nonempty by done. cbn [orb].
  destruct (migrate_ok env); [|apply reload_step_refl].
  destruct (storage_init_ok env); [|apply reload_step_refl]. cbv zeta.
  destruct (decide _) as [Hl|Hl]; [by apply library_empty in Hl|].
  cbn [snd].
  apply (run_Promise_all_rel reload_step reload_step_refl reload_step_trans).
  apply Forall_fmap, Forall_forall. intros e _. apply reload_step_loadLibrary.
Qed.

Lemma init_reload_only_opens_witness :
  storage demo_indexed ≠ ∅
  ∧ pending (run (init demo_env [] [0; 1; 0]%nat) demo_indexed).2 = [].
Proof.
  assert (storage demo_indexed ≠ ∅) as Hne.
  { intros H. apply (f_equal (fun m => m !! "dat://aa")) in H. vm_compute in H. done. }
  split; [exact Hne|].
  pose proof (init_reload_only_opens demo_env [] [0; 1; 0]%nat demo_indexed Hne) as [H _].
  exact H.
Defined.

(** ** Invariants over histories of calls *)

Ltac startup_step_prims :=
  first
    [ apply startup_step_refl
    | apply startup_step_trans
    | intros; unfold startup_step; state_simpl; split_and!; try done;
      first
        [ by apply prefix_app_r
        | apply delete_subseteq
        | let Hk := fresh "Hk" in
          intros ? Hk; rewrite lookup_insert; case_decide; [by eexists|done] ] ].

Lemma startup_step_createArchive env opts s :
  startup_step s (run (createArchive env opts) s).2.
Proof.
  apply (all_acts_run startup_step startup_step_refl startup_step_trans).
  apply step_createArchive; startup_step_prims.
Qed.

Lemma startup_step_forkArchive env u opts s :
  startup_step s (run (forkArchive env u opts) s).2.
Proof.
  apply (all_acts_run startup_step startup_step_refl startup_step_trans).
  apply step_forkArchive; startup_step_prims.
Qed.

Lemma startup_step_usage_cached s s' :
  startup_step s s' → usage_cached s → usage_cached s'.
Proof.
  intros (_ & Hu & _ & Ha & _) H k. rewrite Hu. intros Hk. apply Ha, H, Hk.
Qed.

Lemma settle_cache s :
  archives (settle s) = archives s ∧ archiveUsage (settle s) = archiveUsage s.
Proof.
  apply (frame_settle
           (fun s1 s2 => archives s2 = archives s1 ∧ archiveUsage s2 = archiveUsage s1));
    try done.
  intros s1 s2 s3 [-> ->] [-> ->]. done.
Qed.

Lemma usage_cached_close_effect h s :
  usage_cached s → usage_cached (close_effect h s).
Proof.
  intros H k. rewrite archives_close_effect, archiveUsage_close_effect.
  rewrite !lookup_delete. case_decide; [by intros [? ?]|]. apply H.
Qed.

Lemma usage_cached_perform env op s :
  usage_cached s → usage_cached (perform env op s).
Proof.
  intros H. destruct op; cbn [perform].
  - eapply startup_step_usage_cached; [apply startup_step_init|done].
  - done.
  - rewrite run_remove. destruct (storage s !! u); [|done].
    destruct (resolveName env u) as [h|]; [|done]. cbn [snd].
    intros k. state_simpl. by apply usage_cached_close_effect.
  - rewrite run_close. destruct (resolveName env u) as [h|]; [|done].
    by apply usage_cached_close_effect.
  - done.
  - rewrite run_getArchive. destruct (resolveName env u) as [h|]; [|done].
    destruct (archives s !! KAddr h) as [a|] eqn:Ha; cbn [snd].
    + intros k. state_simpl. rewrite lookup_insert. case_decide as Hk; [|apply H].
      subst k. intros _. by eexists.
    + pose proof (createTempArchive_effect_trace env h s) as Ht. cbv zeta in Ht.
      destruct (createTempArchive_effect env h s) as [[a|e] s1]; cbn [fst snd] in *.
      * intros k. state_simpl. rewrite !lookup_insert.
        destruct Ht as (Hc & Hu & _). rewrite Hc, Hu.
        case_decide; [by eexists|apply H].
      * destruct Ht as (Hc & Hu & _). intros k. rewrite Hc, Hu. apply H.
  - eapply startup_step_usage_cached; [apply startup_step_createArchive|done].
  - eapply startup_step_usage_cached; [apply startup_step_forkArchive|done].
  - intros k. destruct (settle_cache s) as [-> ->]. apply H.
  - done.
Qed.

Lemma usage_cached_exec h s : usage_cached s → usage_cached (exec h s).
Proof.
  revert s. induction h as [|[env op] h IH]; intros s Hs; [done|].
  apply IH. by apply usage_cached_perform.
Qed.

(** X17 — in a library built by [new Library] and used through any
    history of calls, a usage timestamp is never left behind without its
    handle: every key of the usage map is a key of the handle cache, so
    that [getOpenArchives()] reports every recorded [lastUsed], next to
    the url of the handle it belongs to. *)
Theorem usage_within_cache (h : list (Env * Op)) (d : string)
    (index : gmap string LibraryEntry) (t : Z) (k : JsKey) (used : Z) :
  let s := exec h (new_Library d index t) in
  archiveUsage s !! k = Some used →
  ∃ archive,
    archives s !! k = Some archive
    ∧ {| host := k; open_url := archive_url archive; lastUsed := Some used |}
      ∈ getOpenArchives s.
Proof.
  cbv zeta. intros Hk.
  assert (usage_cached (exec h (new_Library d index t))) as H.
  { apply usage_cached_exec. intros k'. cbn [new_Library archiveUsage].
    rewrite lookup_empty. by intros [? ?]. }
  destruct (H k) as [archive Ha]; [by eexists|].
  exists archive. split; [done|].
  apply elem_of_getOpenArchives. exists archive. cbn [host open_url lastUsed].
  by rewrite Hk.
Qed.

Lemma usage_within_cache_witness :
  archiveUsage (exec demo_history demo_start) !! KAddr "bb" = Some 107
  ∧ ∃ archive,
      archives (exec demo_history demo_start) !! KAddr "bb" = Some archive
      ∧ {| host := KAddr "bb"; open_url := archive_url archive; lastUsed := Some 107 |}
        ∈ getOpenArchives (exec demo_history demo_start).
Proof.
  assert (archiveUsage (exec demo_history demo_start) !! KAddr "bb" = Some 107) as Hk
    by (vm_compute; reflexivity).
  split; [exact Hk|].
  apply (usage_within_cache demo_history "/lib" ∅ 100 (KAddr "bb") 107 Hk).
Defined.

Lemma storage_perform env op s :
  op ≠ OpSettle → storage (perform env op s) ⊆ storage s.
Proof.
  intros Hop. destruct op; cbn [perform]; try done.
  - apply startup_step_init.
  - rewrite run_remove. destruct (storage s !! u); [|done].
    destruct (resolveName env u) as [h|]; [|done]. cbn [snd]. state_simpl.
    rewrite storage_close_effect. apply delete_subseteq.
  - rewrite run_close. destruct (resolveName env u) as [h|]; [|done].
    cbn [snd]. by rewrite storage_close_effect.
  - rewrite run_getArchive. destruct (resolveName env u) as [h|]; [|done].
    destruct (archives s !! KAddr h) as [a|]; [done|].
    pose proof (createTempArchive_effect_trace env h s) as Ht. cbv zeta in Ht.
    destruct (createTempArchive_effect env h s) as [[a|e] s1]; cbn [fst snd] in *;
      destruct Ht as (_ & _ & Hst & _); state_simpl; by rewrite Hst.
  - apply startup_step_createArchive.
  - apply startup_step_forkArchive.
Qed.

(** X18 — the index gets a new record through the detached write of
    [updateLibraryEntry] only: over any history of calls during which no
    such write lands, every record of the index was there at the start,
    unchanged; [createArchive] and [forkArchive] return before the
    archive they have made is recorded. *)
Theorem index_written_by_detached_write (h : list (Env * Op)) (s : State) :
  (∀ env, (env, OpSettle) ∉ h) →
  storage (exec h s) ⊆ storage s
  ∧ ∀ u e, storage (exec h s) !! u = Some e → storage s !! u = Some e.
Proof.
  intros Hh.
  assert (storage (exec h s) ⊆ storage s) as H.
  { revert s. induction h as [|[env op] h IH]; intros s; [done|].
    change (exec ((env, op) :: h) s) with (exec h (perform env op s)).
    etrans; [apply IH|].
    - intros env' Hin. apply (Hh env'). by right.
    - apply storage_perform. intros ->. apply (Hh env). by left. }
  split; [done|]. intros u e Hu. by eapply lookup_weaken.
Qed.

Lemma index_written_by_detached_write_witness :
  (∀ env, (env, OpSettle) ∉ unsettled_history)
  ∧ storage (exec unsettled_history demo_start) = ∅
  ∧ length (pending (exec unsettled_history demo_start)) = 2%nat.
Proof.
  assert (∀ env, (env, OpSettle) ∉ unsettled_history) as Hh.
  { intros env Hin. unfold unsettled_history in Hin.
    repeat (apply elem_of_cons in Hin as [Hin|Hin]; [by inversion Hin|]).
    by apply not_elem_of_nil in Hin. }
  split; [exact Hh|]. split; [|vm_compute; reflexivity].
  pose proof (index_written_by_detached_write unsettled_history demo_start Hh) as [H _].
  apply map_eq. intros u. rewrite lookup_empty.
  destruct (storage (exec unsettled_history demo_start) !! u) as [e|] eqn:Hu; [|done].
  eapply lookup_weaken in Hu; [|exact H]. done.
Defined.

(** ** [createArchive] and [close] *)

(** X19 — [close] cannot evict the handle that [createArchive] has
    cached: closing the url that [createArchive] returned succeeds, and
    the handle is still in the cache afterwards, listed by
    [getOpenArchives()], because it is not filed under the address that
    [close] deletes. *)
Theorem close_keeps_created (env : Env) (opts : Manifest) (s : State) (u : string) :
  (run (createArchive env opts) s).1 = Ok u →
  let s1 := (run (createArchive env opts) s).2 in
  let r := run (close env u) s1 in
  r.1 = Ok tt
  ∧ ∃ archive,
      archive_url archive = u
      ∧ archives r.2 !! KUndefined = Some archive
      ∧ ∃ oa, oa ∈ getOpenArchives r.2 ∧ host oa = KUndefined ∧ open_url oa = u.
Proof.
  rewrite run_createArchive. cbv zeta.
  destruct (create_drive env opts) as [dr|]; [|done].
  destruct (resolveName env (drive_url dr)) as [h|] eqn:Hres; [|done].
  cbn [fst snd engine_new]. intros [= <-]. rewrite run_close, Hres. cbn [fst snd].
  split; [done|]. eexists. split; [|split].
  2: { rewrite archives_close_effect. state_simpl. unfold host_property.
       rewrite lookup_delete_ne by done. apply lookup_insert_eq. }
  - done.
  - eexists {| host := KUndefined; open_url := drive_url dr; lastUsed := _ |}.
    split; [|done]. apply elem_of_getOpenArchives. cbn [host open_url lastUsed].
    eexists. split; [|split; [|reflexivity]].
    + rewrite archives_close_effect. state_simpl. unfold host_property.
      rewrite lookup_delete_ne by done. apply lookup_insert_eq.
    + done.
Qed.

Lemma close_keeps_created_witness :
  (run (createArchive demo_env []) demo_start).1 = Ok "dat://aa"
  ∧ (run (close demo_env "dat://aa") demo_created).1 = Ok tt
  ∧ ∃ archive,
      archive_url archive = "dat://aa"
      ∧ archives (run (close demo_env "dat://aa") demo_created).2 !! KUndefined
        = Some archive.
Proof.
  split; [reflexivity|].
  destruct (close_keeps_created demo_env [] demo_start "dat://aa" eq_refl)
    as (H1 & archive & H2 & H3 & _).
  split; [exact H1|]. exists archive. split; [exact H2|exact H3].
Defined.

Lemma land_entries_storage_eq (l : list DatArchive) (s s' : State) :
  storage s = storage s' → libraryDir s = libraryDir s' →
  storage (fold_left (fun s1 a => land_entry a s1) l s)
  = storage (fold_left (fun s1 a => land_entry a s1) l s').
Proof.
  revert s s'. induction l as [|a l IH]; intros s s' Hs Hd; [done|].
  cbn [fold_left]. apply IH.
  - unfold land_entry. destruct (getInfo a); [|done]. state_simpl. by rewrite Hs, Hd.
  - by rewrite !land_entry_libraryDir.
Qed.

(** X20 — when [getInfo()] rejects for the archive that [createArchive]
    has made, the archive never gets a record: once all the detached
    writes have run, the index is what it would have been without the
    call, although the call has succeeded and the handle is cached. *)
Theorem createArchive_unrecorded (env : Env) (opts : Manifest) (s : State) (u : string) :
  (run (createArchive env opts) s).1 = Ok u →
  (∀ dr, create_drive env opts = Some dr → drive_info dr = None) →
  let s1 := (run (createArchive env opts) s).2 in
  storage (settle s1) = storage (settle s)
  ∧ (run listLibrary (settle s1)).1 = (run listLibrary (settle s)).1
  ∧ is_Some (archives (settle s1) !! KUndefined).
Proof.
  rewrite run_createArchive. intros Hok Hinfo. cbv zeta in *.
  destruct (create_drive env opts) as [dr|]; [|done].
  destruct (resolveName env (drive_url dr)) as [r|]; [|done].
  cbn [fst snd engine_new] in *. injection Hok as <-.
  assert (storage (settle (set_pending
            (fun l => (l ++ [{| archive_id := next_id s; archive_drive := dr |}])%list)
            (set_archives
               <[host_property r := {| archive_id := next_id s; archive_drive := dr |}]>
               (bump_id (set_node_dats
                  <[drive_address dr := {| dat_address := drive_address dr;
                                           drive := dr; dat_ready := true |}]>
                  (log_call (CallCreate opts) s))))))
          = storage (settle s)) as Hst.
  { unfold settle. state_simpl. rewrite fold_left_app. cbn [fold_left].
    unfold land_entry at 1. unfold getInfo. cbn [archive_drive].
    rewrite (Hinfo dr eq_refl). by apply land_entries_storage_eq. }
  split; [exact Hst|]. split; [by rewrite !run_listLibrary; cbn [fst]; rewrite Hst|].
  destruct (settle_cache (set_pending
            (fun l => (l ++ [{| archive_id := next_id s; archive_drive := dr |}])%list)
            (set_archives
               <[host_property r := {| archive_id := next_id s; archive_drive := dr |}]>
               (bump_id (set_node_dats
                  <[drive_address dr := {| dat_address := drive_address dr;
                                           drive := dr; dat_ready := true |}]>
                  (log_call (CallCreate opts) s)))))) as [-> _].
  state_simpl. unfold host_property. rewrite lookup_insert_eq. by eexists.
Qed.

Lemma createArchive_unrecorded_witness :
  (run (createArchive silent_env []) demo_start).1 = Ok "dat://ee"
  ∧ (∀ dr, create_drive silent_env [] = Some dr → drive_info dr = None)
  ∧ storage (settle (run (createArchive silent_env []) demo_start).2) = ∅.
Proof.
  assert (∀ dr, create_drive silent_env [] = Some dr → drive_info dr = None) as Hi
    by (by intros dr [= <-]).
  split; [reflexivity|]. split; [exact Hi|].
  pose proof (createArchive_unrecorded silent_env [] demo_start "dat://ee" eq_refl Hi)
    as [H _].
  rewrite H. reflexivity.
Defined.

(** ** Where the records point and where the files are *)

Lemma string_app_assoc (a b c : string) : (a ++ b) ++ c = a ++ (b ++ c).
Proof.
  induction a as [|x a IH]; [done|].
  change ((String x a ++ b) ++ c) with (String x ((a ++ b) ++ c)).
  change (String x a ++ (b ++ c)) with (String x (a ++ (b ++ c))).
  by rewrite IH.
Qed.

Lemma string_app_inv_head (a b c : string) : a ++ b = a ++ c → b = c.
Proof.
  induction a as [|x a IH]; [done|].
  change (String x a ++ b) with (String x (a ++ b)).
  change (String x a ++ c) with (String x (a ++ c)).
  intros [= H]. by apply IH.
Qed.

(** X21 — the directory that a record of the index names is not where
    the archive's files are: no file that the storage factory of the
    engine opens, for any key and any file name, lies under the [dir] of
    any record that [updateLibraryEntry] writes for the same library. *)
Theorem recorded_dir_outside_storage (s : State) (info : Info) (key f rest : string) :
  storageFile s key f ≠ dir (library_entry (libraryDir s) info) ++ rest
  ∧ storageDirectory s key ≠ dir (library_entry (libraryDir s) info) ++ rest.
Proof.
  unfold storageFile, storageDirectory, datDir, library_entry. cbn [dir].
  split; intros H; rewrite !string_app_assoc in H;
    apply string_app_inv_head in H; cbn in H; discriminate.
Qed.

(** ** Concurrent [getArchive] calls for any urls *)

Lemma all_acts_rg {A : Type} (Rely Guar : State -> State -> Prop) (t : Async A)
    (s : State) (Q : Result A -> State -> Prop) :
  all_acts Guar t → (∀ r s', Q r s') → rg Rely Guar t s Q.
Proof.
  intros Ht HQ. revert s. induction t as [a|e|f k IH|k IH]; intros s; cbn [rg all_acts] in *.
  - apply HQ.
  - apply HQ.
  - destruct (Ht s) as [Hf Hk]. split; [done|]. by apply IH.
  - intros s' _. by apply IH.
Qed.

Lemma cache_grows_refl s : cache_grows s s.
Proof. by split. Qed.

Lemma cache_grows_trans s1 s2 s3 : cache_grows s1 s2 → cache_grows s2 s3 → cache_grows s1 s3.
Proof. intros [A1 A2] [B1 B2]. split; auto. Qed.

Lemma cache_grows_frame s s' :
  archives s' = archives s → archiveUsage s' = archiveUsage s → cache_grows s s'.
Proof. intros Ha Hu. unfold cache_grows. by rewrite Ha, Hu. Qed.

Lemma cache_grows_cache k a s : cache_grows s (set_archives (insert k a) s).
Proof.
  split; [|done]. intros k' Hk'. state_simpl. rewrite lookup_insert.
  case_decide; [by eexists|done].
Qed.

Lemma cache_grows_stamp k t s : cache_grows s (set_archiveUsage (insert k t) s).
Proof.
  split; [done|]. intros k' Hk'. state_simpl. rewrite lookup_insert.
  case_decide; [by eexists|done].
Qed.

Lemma cache_grows_createTempArchive env h :
  all_acts cache_grows (awaited (createTempArchive env h)).
Proof.
  pose proof cache_grows_refl as Hr. pose proof cache_grows_trans as Ht.
  apply all_acts_awaited. unfold createTempArchive.
  apply all_acts_bind.
  { apply all_acts_awaited. unfold ensureCacheDir.
    apply all_acts_bind; [by apply all_acts_await|].
    intros []; [done|by apply all_acts_await]. }
  intros _.
  apply all_acts_bind.
  { apply frame_getDat; [done|by intros; apply cache_grows_frame..]. }
  intros d.
  apply all_acts_bind; [by apply frame_await_ready|]. intros _.
  apply frame_createDatArchive. by intros; apply cache_grows_frame.
Qed.

Lemma got_stable env u r s s' : got env u r s → cache_grows s s' → got env u r s'.
Proof.
  intros H [Ha Hu] x Hx. destruct (H x Hx) as (h & ? & ? & ? & ?).
  exists h. split_and!; auto.
Qed.

Lemma getArchive_got_rg env u s :
  rg cache_grows cache_grows (getArchive env u) s (got env u).
Proof.
  unfold getArchive. apply rg_bind, rg_await. intros s1 _. cbn [fst snd].
  split; [apply cache_grows_refl|].
  destruct (resolveName env u) as [h|] eqn:Hres; [|by intros x].
  assert (∀ s2, rg cache_grows cache_grows
                  (modify (fun s3 => set_archiveUsage (insert (KAddr h) (now s3)) s3)
                   ≫= fun _ => gets (fun s3 => archives s3 !! KAddr h)) s2
                  (fun r s' => is_Some (archives s2 !! KAddr h) → got env u r s')) as Hend.
  { intros s2. apply rg_bind, rg_modify; [apply cache_grows_stamp|].
    apply rg_act; [apply cache_grows_refl|]. cbn [rg]. state_simpl.
    intros Hc x [= <-]. exists h. split_and!; try done.
    state_simpl. rewrite lookup_insert_eq. by eexists. }
  apply rg_bind. unfold gets. apply rg_act; [apply cache_grows_refl|]. cbn [rg].
  destruct (bool_decide (is_Some (archives s1 !! KAddr h))) eqn:Hc.
  - apply bool_decide_eq_true_1 in Hc. apply rg_bind. cbn [rg].
    eapply rg_mono; [|apply Hend]. cbn beta. auto.
  - apply rg_bind, rg_bind. apply all_acts_rg; [apply cache_grows_createTempArchive|].
    intros [archive|e] s2; [|by intros x].
    apply rg_modify; [apply cache_grows_cache|].
    eapply rg_mono; [|apply Hend]. cbn beta. intros r s' H. apply H.
    state_simpl. rewrite lookup_insert_eq. by eexists.
Qed.

Lemma all_results_Ok_inv {A : Type} (rs : list (Result A)) (l : list A) :
  all_results rs = Ok l → rs = Ok <$> l.
Proof.
  revert l. induction rs as [|[a|e] rs IH]; intros l; cbn [all_results].
  - by intros [= <-].
  - destruct (all_results rs) as [l'|e]; [|done]. intros [= <-].
    cbn [fmap list_fmap]. f_equal. by apply IH.
  - done.
Qed.

(** X22 — any number of [getArchive] calls, for any urls, awaited
    together with [Promise.all] and interleaved in any way: when all of
    them succeed, each call has returned a handle (never [undefined]),
    and at the end the cache holds a handle for the address of every url
    and the usage map a timestamp for it. *)
Theorem getArchive_concurrent_cached (env : Env) (urls : list string)
    (sched : list nat) (s : State) (l : list (option DatArchive)) :
  (run (Promise_all sched (getArchive env <$> urls)) s).1 = Ok l →
  let s' := (run (Promise_all sched (getArchive env <$> urls)) s).2 in
  length l = length urls
  ∧ ∀ i u, urls !! i = Some u →
      ∃ h archive,
        resolveName env u = Some h
        ∧ l !! i = Some (Some archive)
        ∧ is_Some (archives s' !! KAddr h)
        ∧ is_Some (archiveUsage s' !! KAddr h).
Proof.
  intros Hok. cbv zeta.
  destruct (Promise_all_rg (fun _ => cache_grows) (fun _ => cache_grows)
              (fun i r s' => ∃ u, urls !! i = Some u ∧ got env u r s') cache_grows)
    with (sched := sched) (ts := getArchive env <$> urls) (s := s)
    as (rs & Hr & Hlen & _ & HQ).
  - intros _ s1. apply cache_grows_refl.
  - intros _ s1 s2 s3. apply cache_grows_trans.
  - done.
  - intros s1. apply cache_grows_refl.
  - intros s1 s2 s3. apply cache_grows_trans.
  - done.
  - intros i r s1 s2 (u & Hu & Hg) Hs. exists u. split; [done|]. by eapply got_stable.
  - intros i t Hi s1 _. cbn [Nat.add] in *. rewrite list_lookup_fmap in Hi.
    destruct (urls !! i) as [u|] eqn:Hu; [|done]. injection Hi as <-.
    eapply rg_mono; [|apply getArchive_got_rg]. cbn beta. eauto.
  - rewrite Hok in Hr. symmetry in Hr. apply all_results_Ok_inv in Hr. subst rs.
    rewrite !length_fmap in Hlen. split; [done|].
    intros i u Hu.
    destruct (lookup_lt_is_Some_2 l i) as [x Hx];
      [rewrite Hlen; by eapply lookup_lt_Some|].
    destruct (HQ i (Ok x)) as (u' & Hu' & Hg).
    { by rewrite list_lookup_fmap, Hx. }
    rewrite Hu in Hu'. injection Hu' as <-.
    destruct (Hg x eq_refl) as (h & Hres & [archive ->] & Ha & Hus).
    exists h, archive. split_and!; done.
Qed.

Lemma getArchive_concurrent_cached_witness :
  (run (Promise_all demo_sched (getArchive demo_env <$> demo_urls)) demo_start).1
  = Ok demo_gets
  ∧ length demo_gets = 3%nat
  ∧ ∃ h archive,
      resolveName demo_env "dat://notes.example" = Some h
      ∧ demo_gets !! 2%nat = Some (Some archive)
      ∧ is_Some (archives
                   (run (Promise_all demo_sched (getArchive demo_env <$> demo_urls))
                      demo_start).2 !! KAddr h).
Proof.
  assert ((run (Promise_all demo_sched (getArchive demo_env <$> demo_urls)) demo_start).1
          = Ok demo_gets) as Hok by (vm_compute; reflexivity).
  split; [exact Hok|].
  destruct (getArchive_concurrent_cached demo_env demo_urls demo_sched demo_start
              demo_gets Hok) as [Hlen H].
  split; [exact Hlen|].
  destruct (H 2%nat "dat://notes.example" eq_refl) as (h & archive & H1 & H2 & H3 & _).
  exists h, archive. split_and!; assumption.
Defined.

(** ** Overlapping [remove] calls *)

Ltac pool_simpl :=
  cbn [pool_run pool_step settle_all lookup list_lookup mbind Async_bind bind run
       resume fst snd await act of_result awaited list_insert insert modify gets
       all_results dat_close].

(** X23 — [remove] is not atomic: of two [remove(u)] calls that overlap,
    both past the index lookup before either deletes the record, both
    return the record, and the record, the cached handle and the usage
    entry are gone; when the second call starts after the first has
    settled, it fails with "not in library". *)
Theorem remove_overlapping (env : Env) (u h : string) (s : State) (e : LibraryEntry) :
  storage s !! u = Some e →
  resolveName env u = Some h →
  let r := run (Promise_all overlapped [remove env u; remove env u]) s in
  r.1 = Ok [e; e]
  ∧ storage r.2 = delete u (storage s)
  ∧ archives r.2 = delete (KAddr h) (archives s)
  ∧ archiveUsage r.2 = delete (KAddr h) (archiveUsage s)
  ∧ (run (Promise_all [] [remove env u; remove env u]) s).1 = Err NotInLibrary.
Proof.
  intros Hs Hres. cbv zeta.
  assert ((run (Promise_all [] [remove env u; remove env u]) s).1 = Err NotInLibrary)
    as Hseq.
  { unfold Promise_all. rewrite run_mbind. cbn [pool_run run fst snd settle_all].
    rewrite run_mbind. cbn [run fst snd]. rewrite run_mbind. cbn [run fst snd].
    rewrite !run_remove, Hs, Hres. cbn [fst snd]. state_simpl.
    rewrite storage_close_effect, lookup_delete_eq. done. }
  revert Hseq. generalize (run (Promise_all [] [remove env u; remove env u]) s).1.
  intros r0 Hseq.
  unfold overlapped, Promise_all, remove. rewrite run_mbind.
  pool_simpl. rewrite Hs. unfold close, dns_resolveName. pool_simpl. rewrite Hs.
  pool_simpl. rewrite Hres. pool_simpl. state_simpl.
  destruct (node_dats s !! h) as [d|]; pool_simpl; state_simpl;
    match goal with
    | |- context [match ?m !! h with _ => _ end] => destruct (m !! h) as [d'|]
    end;
    pool_simpl; state_simpl; unfold engine_close; state_simpl;
    rewrite ?delete_delete_eq, ?delete_idemp; split_and!; done.
Qed.

Lemma remove_overlapping_witness :
  storage demo_indexed !! "dat://aa" = Some demo_entry
  ∧ resolveName demo_env "dat://aa" = Some "aa"
  ∧ (run (Promise_all overlapped
            [remove demo_env "dat://aa"; remove demo_env "dat://aa"]) demo_indexed).1
    = Ok [demo_entry; demo_entry].
Proof.
  assert (storage demo_indexed !! "dat://aa" = Some demo_entry) as Hu
    by (vm_compute; reflexivity).
  split; [exact Hu|]. split; [reflexivity|].
  pose proof (remove_overlapping demo_env "dat://aa" "aa" demo_indexed demo_entry Hu eq_refl)
    as (H & _).
  exact H.
Defined.

(** ** [createTempArchive] *)

(** X24 — [createTempArchive(address)] opens without registering: it asks
    the engine once for the address and leaves the handle cache, the usage
    map, the index and the started metadata captures as they were.  It
    succeeds exactly when the engine yields a handle that gets ready, and
    then returns a new wrapper over the drive of that handle, which the
    engine holds from then on. *)
Theorem createTempArchive_opens_only (env : Env) (address : string) (s : State) :
  let r := run (createTempArchive env address) s in
  archives r.2 = archives s
  ∧ archiveUsage r.2 = archiveUsage s
  ∧ storage r.2 = storage s
  ∧ pending r.2 = pending s
  ∧ getOpenArchives r.2 = getOpenArchives s
  ∧ engine_calls r.2 = (engine_calls s ++ [CallGetDat address])%list
  ∧ match opens env s address with
    | Some d =>
        if dat_ready d
        then ∃ archive, r.1 = Ok archive ∧ archive_drive archive = drive d
                        ∧ node_dats r.2 !! address = Some d
        else r.1 = Err EngineError
    | None => r.1 = Err EngineError
    end.
Proof.
  cbv zeta. rewrite run_createTempArchive.
  pose proof (createTempArchive_effect_trace env address s) as H. cbv zeta in H.
  destruct H as (Ha & Hu & Hs & Hp & _ & Hc & H).
  split_and!; try done.
  - unfold getOpenArchives. by rewrite Ha, Hu.
  - destruct (createTempArchive_effect env address s).1 as [archive|e].
    + destruct H as (d & -> & -> & Hd & Hn). eauto.
    + destruct H as [-> H]. destruct (opens env s address) as [d|]; [|done].
      by rewrite H.
Qed.

(** ** [createArchive] and [getArchive] *)

(** X25 — [getArchive] never finds the handle that [createArchive] has
    cached: asked for the url that [createArchive] returned, it has the
    engine open the address again and, when that succeeds, returns and
    caches another instance under the address, next to the one
    [createArchive] filed, which stays where it is. *)
Theorem createArchive_then_getArchive (env : Env) (opts : Manifest) (s : State)
    (u h : string) :
  (run (createArchive env opts) s).1 = Ok u →
  resolveName env u = Some h →
  archives s !! KAddr h = None →
  let s1 := (run (createArchive env opts) s).2 in
  let r := run (getArchive env u) s1 in
  engine_calls r.2 = (engine_calls s ++ [CallCreate opts; CallGetDat h])%list
  ∧ archives r.2 !! KUndefined = archives s1 !! KUndefined
  ∧ ∃ created,
      archives s1 !! KUndefined = Some created
      ∧ archive_url created = u
      ∧ ∀ archive, r.1 = Ok (Some archive) →
          archive_id archive ≠ archive_id created
          ∧ archives r.2 !! KAddr h = Some archive.
Proof.
  rewrite run_createArchive. cbv zeta.
  destruct (create_drive env opts) as [dr|]; [|done].
  destruct (resolveName env (drive_url dr)) as [r0|]; [|done].
  cbn [fst snd engine_new]. intros [= <-] Hres Hc.
  set (created := {| archive_id := next_id s; archive_drive := dr |}).
  set (s1 := set_pending _ _).
  assert (archives s1 = <[KUndefined := created]> (archives s)) as Ha1 by done.
  assert (engine_calls s1 = (engine_calls s ++ [CallCreate opts])%list) as Hc1 by done.
  assert (next_id s1 = S (next_id s)) as Hn1 by done.
  rewrite run_getArchive, Hres, Ha1, lookup_insert_ne, Hc by done.
  pose proof (createTempArchive_effect_trace env h s1) as Ht. cbv zeta in Ht.
  assert (∀ archive, (createTempArchive_effect env h s1).1 = Ok archive →
                     archive_id archive = next_id s1) as Hid.
  { unfold createTempArchive_effect.
    destruct (engine_getDat_opens env h (log_call (CallGetDat h) s1))
      as (_ & _ & _ & _ & _ & _ & _ & _ & _ & Hn).
    destruct (engine_getDat env h (log_call (CallGetDat h) s1)) as [[d|e] s2];
      cbn [fst snd] in *; [|done].
    destruct (dat_ready d); cbn [fst]; [|done]. intros archive [= <-].
    cbn [archive_id]. exact Hn. }
  destruct (createTempArchive_effect env h s1) as [[archive|e] s2];
    cbn [fst snd] in *; destruct Ht as (Ha2 & _ & _ & _ & _ & Hc2 & _); state_simpl.
  - rewrite Hc2, Hc1, <- app_assoc, Ha2. split; [done|].
    split; [by rewrite lookup_insert_ne|].
    exists created. rewrite Ha1, lookup_insert_eq. split; [done|]. split; [done|].
    intros archive' [= <-]. split; [|by rewrite lookup_insert_eq].
    rewrite (Hid archive eq_refl), Hn1. cbn [created archive_id]. lia.
  - rewrite Hc2, Hc1, <- app_assoc, Ha2. split; [done|]. split; [done|].
    exists created. rewrite Ha1, lookup_insert_eq. split; [done|]. split; [done|].
    intros archive' [=].
Qed.

Lemma createArchive_then_getArchive_witness :
  (run (createArchive demo_env []) demo_start).1 = Ok "dat://aa"
  ∧ resolveName demo_env "dat://aa" = Some "aa"
  ∧ archives demo_start !! KAddr "aa" = None
  ∧ (host <$> getOpenArchives (run (getArchive demo_env "dat://aa") demo_created).2)
    = [KAddr "aa"; KUndefined]
  ∧ engine_calls (run (getArchive demo_env "dat://aa") demo_created).2
    = [CallCreate []; CallGetDat "aa"].
Proof.
  split; [reflexivity|]. split; [reflexivity|]. split; [reflexivity|].
  split; [vm_compute; reflexivity|].
  pose proof (createArchive_then_getArchive demo_env [] demo_start "dat://aa" "aa"
                eq_refl eq_refl eq_refl) as [H _].
  exact H.
Defined.
